(** * Wash-sale tracker: the detection engine of [src/App.jsx]

    A shallow embedding of the engine of the web application: the
    chronological sort, FIFO lot matching, loss-sale detection, the two
    wash-window correlation passes, the active-window filter and the
    ticker check; and around it the CSV reader, the construction of the
    transactions from its rows, the summary and the table of active windows.

    Conventions of the embedding.

    - A JS [Date] is its time value, a [Z] number of milliseconds since the
      epoch.  Transaction dates are built by [parseDate] at local midnight.
      [setDate(getDate() + n)] moves the wall-clock reading of the date by
      [n] days and reads it back as a time value ([addDays]); the local time
      zone that does the two readings is a parameter ([Zone]) of the engine
      and of every statement about it, so that the days of a zone with
      daylight-saving time, which have 23, 24 or 25 hours, are covered.  The
      samples are read in a zone on Greenwich time ([fixedZone]) or in one
      that changes its offset once ([autumnZone]).
    - A JS number holding a quantity, a price or an amount is an exact
      rational ([Q]); IEEE-754 rounding is not modelled.
    - The [lots] object, used as a map from ticker to an array of lots, is a
      [gmap string (list Lot)], and the [grouped] object of the table a
      list of fields in the order they were created; tickers are taken not
      to collide with property names of [Object.prototype]
      ([objectPrototypeNames]), under which these objects hold inherited
      values.
    - Strings are ASCII; [trim] and [toUpperCase] act on ASCII blanks and
      letters.
    - The engine is entered after parsing: [processTransactions] receives the
      [transactions] array as it stands at line 131 of the source, before it
      is sorted.  A warning keeps the ticker and the date its message is
      built from, not the rendered text.
    - What comes before that line is embedded on its own: [parseCSV], the
      parsers of the fields and the loop that builds the transactions, which
      [processTransactionsOfText] composes with the engine.  The built-ins
      [parseFloat] and the construction of a [Date] from a date string are
      parameters of that part; NaN is [None], and a date string is taken to
      give a valid date ([readableDate] describes strings that do).  A row
      object is the [gmap string string] of its own properties.
    - The table of active windows is its data: the groups per ticker in the
      order of [Object.entries], and per row the total, the safe date, the
      days left and the number of sales; the markup is not modelled. *)

From Stdlib Require Import ZArith QArith Qminmax Qabs Lia Lqa Bool Ascii String.
From Stdlib Require Import Sorting.Sorted Permutation.
From stdpp Require Import gmap strings list.

Local Open Scope Z_scope.

(** ** Data model *)

Inductive TransType := Buy | Sell.

Record Transaction := mkTransaction {
  date : Z;
  ticker : string;
  transType : TransType;
  quantity : Q;
  price : Q;
  amount : Q
}.

(** An element of [lots[ticker]]: [{date, quantity, price, remaining}]. *)
Record Lot := mkLot {
  lot_date : Z;
  lot_quantity : Q;
  lot_price : Q;
  remaining : Q
}.

Record LossSale := mkLossSale {
  ls_ticker : string;
  saleDate : Z;
  ls_quantity : Q;
  salePrice : Q;
  proceeds : Q;
  costBasis : Q;
  lossAmount : Q
}.

Record Violation := mkViolation {
  v_ticker : string;
  lossSale : LossSale;
  buyDate : Z;
  buyQuantity : Q;
  disallowedLoss : Q
}.

(** [`No buy lots found for ${ticker} sell on ${formatDate(date)}`] *)
Record Warning := mkWarning {
  w_ticker : string;
  w_date : Z
}.

(** The mutable locals of [processTransactions]. *)
Record State := mkState {
  lots : gmap string (list Lot);
  lossSales : list LossSale;
  violations : list Violation;
  warnings : list Warning
}.

Record Summary := mkSummary {
  total : nat;
  buys : nat;
  sells : nat;
  tickerCount : nat;
  dateRange : option (Z * Z)
}.

Record Report := mkReport {
  r_transactions : list Transaction;
  r_summary : Summary;
  r_lossSales : list LossSale;
  r_violations : list Violation;
  r_activeWindows : list LossSale;
  r_warnings : list Warning
}.

(** ** Dates *)

Definition MS_PER_DAY : Z := 1000 * 60 * 60 * 24.

(** The local time zone as a [Date] reads it.  [localTime t] is the
    wall-clock reading of the time value [t] (ECMAScript's [LocalTime]) and
    [utc l] the time value of the wall-clock reading [l] (ECMAScript's
    [UTC]); each adds or takes away the offset of the zone, which changes
    with daylight-saving time.  The laws say that the offset does not
    change by a whole day within a day: the same wall-clock time one day
    later is a later time, and the wall-clock time of [t] one day earlier or
    later is before or after [t]. *)
Class Zone := {
  localTime : Z -> Z;
  utc : Z -> Z;
  utc_next_day : forall l, utc l < utc (l + MS_PER_DAY);
  local_prev_day : forall t, utc (localTime t - MS_PER_DAY) < t;
  local_next_day : forall t, t < utc (localTime t + MS_PER_DAY)
}.

Section Zoned.

Context {tz : Zone}.

(** [d.setDate(d.getDate() + n)]: the day of the month is a field of the
    wall-clock reading, which moves by [n] days of 24 hours and is read back
    as a time value. *)
Definition addDays (d n : Z) : Z := utc (localTime d + n * MS_PER_DAY).

Definition isInWashWindow (saleDate checkDate : Z) : bool :=
  let windowStart := addDays saleDate (-30) in
  let windowEnd := addDays saleDate 30 in
  (windowStart <=? checkDate) && (checkDate <=? windowEnd).

Definition getSafeDate (saleDate : Z) : Z := addDays saleDate 31.

(** [Math.ceil(diff / (1000 * 60 * 60 * 24))] on integral [diff]. *)
Definition daysUntil (targetDate fromDate : Z) : Z :=
  let diff := targetDate - fromDate in
  - ((- diff) / MS_PER_DAY).

(** ** Sorting *)

Definition isSell (t : Transaction) : Z :=
  match transType t with Sell => 1 | Buy => 0 end.

Definition isBuy (t : Transaction) : bool :=
  match transType t with Buy => true | Sell => false end.

(** The comparator handed to [transactions.sort]. *)
Definition compareTxn (a b : Transaction) : Z :=
  let dateDiff := date a - date b in
  if negb (dateDiff =? 0) then dateDiff
  else isSell a - isSell b.

(** [Array.prototype.sort] is stable; it is modelled by a stable insertion
    sort: an element is placed after the elements strictly below it. *)
Fixpoint sortInsert {A : Type} (cmp : A -> A -> Z) (x : A) (l : list A) : list A :=
  match l with
  | [] => [x]
  | y :: l' => if 0 <? cmp x y then y :: sortInsert cmp x l' else x :: y :: l'
  end.

Definition Array_sort {A : Type} (cmp : A -> A -> Z) (l : list A) : list A :=
  fold_right (sortInsert cmp) [] l.

(** ** The one-pass engine *)

Definition Qlt_bool (a b : Q) : bool := negb (Qle_bool b a).

(** The FIFO loop over [tickerLots]; the three accumulators are
    [remainingToSell], [totalCostBasis] and [quantitySold].  The loop mutates
    [lot.remaining] in place, so it returns the array as it stands
    afterwards. *)
Fixpoint fifoLoop (tickerLots : list Lot) (remainingToSell totalCostBasis quantitySold : Q)
  : list Lot * (Q * Q * Q) :=
  match tickerLots with
  | [] => ([], (remainingToSell, totalCostBasis, quantitySold))
  | lot :: rest =>
      if Qle_bool remainingToSell 0 then
        (lot :: rest, (remainingToSell, totalCostBasis, quantitySold))
      else if Qle_bool (remaining lot) 0 then
        let '(rest', acc) := fifoLoop rest remainingToSell totalCostBasis quantitySold in
        (lot :: rest', acc)
      else
        let take := Qmin (remaining lot) remainingToSell in
        let lot' := mkLot (lot_date lot) (lot_quantity lot) (lot_price lot)
                          (remaining lot - take)%Q in
        let '(rest', acc) :=
          fifoLoop rest (remainingToSell - take)%Q
                   (totalCostBasis + take * lot_price lot)%Q
                   (quantitySold + take)%Q in
        (lot' :: rest', acc)
  end.

(** Lines 159-170: a buy against every loss sale recorded so far. *)
Definition forwardPass (txn : Transaction) (lss : list LossSale)
    (vs : list Violation) : list Violation :=
  fold_left (fun vs ls =>
    if String.eqb (ls_ticker ls) (ticker txn) && isInWashWindow (saleDate ls) (date txn)
    then
      let disallowed := (Qmin (quantity txn) (ls_quantity ls) / ls_quantity ls * lossAmount ls)%Q in
      vs ++ [mkViolation (ticker txn) ls (date txn) (quantity txn) disallowed]
    else vs) lss vs.

(** Lines 218-222: [violations.some(...)]. *)
Definition alreadyRecorded (vs : list Violation) (txn priorTxn : Transaction) : bool :=
  existsb (fun v =>
    (saleDate (lossSale v) =? date txn) &&
    (buyDate v =? date priorTxn) &&
    String.eqb (v_ticker v) (ticker txn)) vs.

(** Lines 213-234: a new loss sale against every buy dated before it. *)
Definition backwardPass (transactions : list Transaction) (txn : Transaction)
    (ls : LossSale) (quantitySold gainLoss : Q) (vs : list Violation) : list Violation :=
  fold_left (fun vs priorTxn =>
    if isBuy priorTxn &&
       String.eqb (ticker priorTxn) (ticker txn) &&
       (date priorTxn <? date txn) &&
       isInWashWindow (date txn) (date priorTxn)
    then
      if alreadyRecorded vs txn priorTxn then vs
      else
        let disallowed :=
          (Qmin (quantity priorTxn) quantitySold / quantitySold * Qabs gainLoss)%Q in
        vs ++ [mkViolation (ticker txn) ls (date priorTxn) (quantity priorTxn) disallowed]
    else vs) transactions vs.

(** Lines 149-170: the buy branch. *)
Definition step_buy (st : State) (txn : Transaction) : State :=
  let tickerLots := default [] (lots st !! ticker txn) in
  let lot := mkLot (date txn) (quantity txn) (price txn) (quantity txn) in
  mkState (<[ticker txn := tickerLots ++ [lot]]> (lots st))
          (lossSales st)
          (forwardPass txn (lossSales st) (violations st))
          (warnings st).

(** Lines 172-239: the sell branch.  [lots[txn.ticker] || []] reads an
    absent queue as an empty one.  The two [continue]s leave before the
    clean-up of line 238; after the second one the queue still holds the
    lots the loop went through, which are the objects it mutated. *)
Definition step_sell (transactions : list Transaction) (st : State) (txn : Transaction) : State :=
  let tickerLots := default [] (lots st !! ticker txn) in
  if (length tickerLots =? 0)%nat then
    mkState (lots st) (lossSales st) (violations st)
            (warnings st ++ [mkWarning (ticker txn) (date txn)])
  else
    let '(tickerLots', (_, totalCostBasis, quantitySold)) :=
      fifoLoop tickerLots (quantity txn) 0%Q 0%Q in
    if Qeq_bool quantitySold 0 then
      mkState (<[ticker txn := tickerLots']> (lots st))
              (lossSales st) (violations st) (warnings st)
    else
      let proceeds := (amount txn * (quantitySold / quantity txn))%Q in
      let gainLoss := (proceeds - totalCostBasis)%Q in
      let cleaned := List.filter (fun l => Qlt_bool (1 # 10000) (remaining l)) tickerLots' in
      if Qlt_bool gainLoss 0 then
        let ls := mkLossSale (ticker txn) (date txn) quantitySold (price txn)
                             proceeds totalCostBasis (Qabs gainLoss) in
        mkState (<[ticker txn := cleaned]> (lots st))
                (lossSales st ++ [ls])
                (backwardPass transactions txn ls quantitySold gainLoss (violations st))
                (warnings st)
      else
        mkState (<[ticker txn := cleaned]> (lots st))
                (lossSales st) (violations st) (warnings st).

(** The body of [for (const txn of transactions)]. *)
Definition step (transactions : list Transaction) (st : State) (txn : Transaction) : State :=
  match transType txn with
  | Buy => step_buy st txn
  | Sell => step_sell transactions st txn
  end.

Definition initState : State := mkState ∅ [] [] [].

Definition run (transactions : list Transaction) (st : State) (l : list Transaction) : State :=
  fold_left (step transactions) l st.


(** [lossSales.filter(ls => getSafeDate(ls.saleDate) > asOfDate)], lines
    243-247 and again 705-711. *)
Definition activeWindows (lss : list LossSale) (asOfDate : Z) : list LossSale :=
  List.filter (fun ls => asOfDate <? getSafeDate (saleDate ls)) lss.

Definition summarize (transactions : list Transaction) : Summary :=
  mkSummary (length transactions)
            (length (List.filter isBuy transactions))
            (length (List.filter (fun t => negb (isBuy t)) transactions))
            (size (list_to_set (List.map ticker transactions) : gset string))
            (match transactions with
             | [] => None
             | t :: _ => Some (date t, date (List.last transactions t))
             end).

Definition processTransactions (rows : list Transaction) (asOfDate : Z) : Report :=
  let transactions := Array_sort compareTxn rows in
  let st := run transactions initState transactions in
  mkReport transactions (summarize transactions)
           (lossSales st) (violations st)
           (activeWindows (lossSales st) asOfDate)
           (warnings st).

(** ** Ticker check *)

Definition isBlank (c : ascii) : bool :=
  let n := nat_of_ascii c in
  ((9 <=? n) && (n <=? 13) || (n =? 32))%nat.

Fixpoint trimStart (s : string) : string :=
  match s with
  | String c s' => if isBlank c then trimStart s' else s
  | EmptyString => EmptyString
  end.

Fixpoint trimEnd (s : string) : string :=
  match s with
  | String c s' =>
      match trimEnd s' with
      | EmptyString => if isBlank c then EmptyString else String c EmptyString
      | r => String c r
      end
  | EmptyString => EmptyString
  end.

Definition trim (s : string) : string := trimEnd (trimStart s).

Definition upperChar (c : ascii) : ascii :=
  let n := nat_of_ascii c in
  if ((97 <=? n) && (n <=? 122))%nat then ascii_of_nat (n - 32) else c.

Fixpoint toUpperCase (s : string) : string :=
  match s with
  | String c s' => String (upperChar c) (toUpperCase s')
  | EmptyString => EmptyString
  end.

(** The value handed to [setResult]. *)
Inductive TickerResult :=
| SafeResult (t : string)
| WarningResult (t : string) (windows : list LossSale) (safeDate daysUntilSafe : Z).

(** [TickerChecker.checkTicker]; [None] when the callback returns without
    setting a result. *)
Definition checkTicker (data_activeWindows : list LossSale) (asOfDate : Z)
    (tickerInput : string) : option TickerResult :=
  if String.eqb (trim tickerInput) EmptyString then None
  else
    let upperTicker := toUpperCase (trim tickerInput) in
    let matchingWindows :=
      List.filter (fun w => String.eqb (ls_ticker w) upperTicker) data_activeWindows in
    if (length matchingWindows =? 0)%nat then Some (SafeResult upperTicker)
    else
      let latestSafe :=
        fold_left (fun latest w =>
                     let safe := getSafeDate (saleDate w) in
                     if latest <? safe then safe else latest)
                  matchingWindows 0 in
      Some (WarningResult upperTicker matchingWindows latestSafe
                          (daysUntil latestSafe asOfDate)).

(** The check as the application wires it: [TickerChecker] is handed
    [{...data, activeWindows}] with the windows recomputed for [asOfDate]. *)
Definition checkTickerOn (r : Report) (asOfDate : Z) (tickerInput : string)
  : option TickerResult :=
  checkTicker (activeWindows (r_lossSales r) asOfDate) asOfDate tickerInput.

(** ** Notions used to state the properties *)

(** The sort key behind [compareTxn]: date first, then Buy (0) before
    Sell (1). *)
Definition txn_key (t : Transaction) : Z := 2 * date t + isSell t.

Definition txn_le (a b : Transaction) : Prop := txn_key a <= txn_key b.

(** The order the spec asks for: non-decreasing dates, and on a tied date
    no sell ahead of a buy. *)
Definition chronological (a b : Transaction) : Prop :=
  date a < date b \/ (date a = date b /\ (transType a = Sell -> transType b = Sell)).

(** The deduplication key [(ticker, saleDate, buyDate)], as tested by
    [alreadyRecorded]. *)
Definition hasKey (T : string) (D d : Z) (v : Violation) : bool :=
  (saleDate (lossSale v) =? D) && (buyDate v =? d) && String.eqb (v_ticker v) T.

Definition countKey (T : string) (D d : Z) (vs : list Violation) : nat :=
  length (List.filter (hasKey T D d) vs).

(** What holds of every violation the engine emits: it refers to a recorded
    loss sale of its ticker, its buy date lies in that sale's window and
    differs from the sale date, its amount follows the proportional formula,
    and it stems from a buy of the input. *)
Definition violation_sound (all : list Transaction) (lss : list LossSale)
    (v : Violation) : Prop :=
  In (lossSale v) lss /\
  v_ticker v = ls_ticker (lossSale v) /\
  isInWashWindow (saleDate (lossSale v)) (buyDate v) = true /\
  buyDate v <> saleDate (lossSale v) /\
  disallowedLoss v =
    (Qmin (buyQuantity v) (ls_quantity (lossSale v)) / ls_quantity (lossSale v)
     * lossAmount (lossSale v))%Q /\
  exists b, In b all /\ transType b = Buy /\ ticker b = v_ticker v /\
            date b = buyDate v /\ quantity b = buyQuantity v.


Definition totalDisallowed (vs : list Violation) : Q :=
  fold_right Qplus 0%Q (List.map disallowedLoss vs).

(** The sells of ticker [T], and the warnings naming it. *)
Definition isSellOf (T : string) (t : Transaction) : bool :=
  negb (isBuy t) && String.eqb (ticker t) T.

Definition warnsOf (T : string) (w : Warning) : bool := String.eqb (w_ticker w) T.


(** ** The FIFO rule in the words of the specification *)

(** "Walk the ticker's queue from head, consuming
    [min(lot.remaining, stillNeeded)] from each open lot in order": the
    quantities consumed, lot by lot. *)
Fixpoint spec_consume (queue : list Lot) (stillNeeded : Q) : list Q :=
  match queue with
  | [] => []
  | lot :: rest =>
      let consumed := Qmin (remaining lot) stillNeeded in
      consumed :: spec_consume rest (stillNeeded - consumed)%Q
  end.

Definition sumQ (l : list Q) : Q := fold_right Qplus 0%Q l.

(** "[matchedCostBasis] = sum of [consumed_i * lot_i.unitPrice]". *)
Definition spec_costBasis (queue : list Lot) (consumed : list Q) : Q :=
  sumQ (List.map (fun lc => (snd lc * lot_price (fst lc))%Q) (combine queue consumed)).

(** A lot after [c] of it was consumed. *)
Definition lot_consumed (l' : Lot) (lc : Lot * Q) : Prop :=
  lot_date l' = lot_date (fst lc) /\
  lot_quantity l' = lot_quantity (fst lc) /\
  lot_price l' = lot_price (fst lc) /\
  (remaining l' == remaining (fst lc) - snd lc)%Q.

(** ** Sample inputs *)

(** Midnight of day [n], counted from the epoch. *)
Definition day (n : Z) : Z := n * MS_PER_DAY.

(** A buy, and a sell, of [q] shares at price [p] on day [d]; the amount is
    the settlement cash flow, negative for a buy. *)
Definition buyOf (d : Z) (t : string) (q p : Q) : Transaction :=
  mkTransaction (day d) t Buy q p (- (q * p))%Q.

Definition sellOf (d : Z) (t : string) (q p : Q) : Transaction :=
  mkTransaction (day d) t Sell q p (q * p)%Q.

(** Lots of 10 at 5 and 10 at 7, then a sell of 15. *)
Definition rows_fifo : list Transaction :=
  [buyOf 1 "T" 10 5; buyOf 2 "T" 10 7; sellOf 3 "T" 15 1].



(** A loss sale followed by two repurchases of the whole position. *)
Definition rows_uncapped : list Transaction :=
  [buyOf 0 "XYZ" 100 10; sellOf 59 "XYZ" 100 6;
   buyOf 60 "XYZ" 100 5; buyOf 61 "XYZ" 100 5].

(** Two buys on the same day before one loss sale. *)
Definition rows_dedup : list Transaction :=
  [buyOf 0 "T" 5 10; buyOf 0 "T" 5 10; sellOf 10 "T" 10 5].

(** One buy before two loss sales of the same day. *)
Definition rows_two_sales : list Transaction :=
  [buyOf 0 "T" 20 10; sellOf 10 "T" 10 5; sellOf 10 "T" 10 5].


(** A buy and a loss sale of its shares on the same day, sell listed
    first. *)
Definition rows_same_day : list Transaction :=
  [sellOf 5 "T" 10 5; buyOf 5 "T" 10 10].


(** A loss sale recorded under a lower-case ticker. *)
Definition rows_lowercase : list Transaction :=
  [buyOf 0 "xyz" 100 10; sellOf 59 "xyz" 100 6].

(** The locals after one buy of 10 shares at 10. *)
Definition state_one_lot : State := run [] initState [buyOf 0 "T" 10 10].

(** A lot of 10 shares at 5 met by an order of 15. *)
Definition rows_partial : list Transaction :=
  [buyOf 0 "T" 10 5; mkTransaction (day 1) "T" Sell 15 2 30].

(** A ticker sold without ever being bought, next to one that was. *)
Definition rows_never_bought : list Transaction :=
  [sellOf 3 "U" 5 1; buyOf 0 "T" 10 5; sellOf 4 "T" 10 6].

(** ** Notions used to state further properties *)

(** Transactions of date [D] and of one kind: the ties of [compareTxn]. *)
Definition inSlot (D : Z) (buy : bool) (t : Transaction) : bool :=
  (date t =? D) && Bool.eqb (isBuy t) buy.

(** The shares still open in a queue. *)
Definition sumRemaining (queue : list Lot) : Q := sumQ (List.map remaining queue).

(** A buy, a loss sale recorded in its window and a later sell. *)
Definition rows_history : list Transaction :=
  [buyOf 0 "T" 10 10; sellOf 20 "T" 4 5; buyOf 25 "T" 2 6].

(** A lot as a sell may leave it: the same acquisition, no more shares
    open than before. *)
Definition lotShrunk (l l' : Lot) : Prop :=
  lot_date l' = lot_date l /\ lot_quantity l' = lot_quantity l /\
  lot_price l' = lot_price l /\ (remaining l' <= remaining l)%Q.

(** ** The table of active windows *)

(** An entry of [grouped] in [ActiveWindowsTable]:
    [{ losses: [], total: 0, safeDate: null }]. *)
Record Group := mkGroup {
  g_losses : list LossSale;
  g_total : Q;
  g_safeDate : option Z
}.

(** Lines 556-562: what [forEach] does to the entry of [w.ticker].  A [Date]
    is never falsy, so [!safeDate] holds for [null] only. *)
Definition addToGroup (g : Group) (w : LossSale) : Group :=
  let safe := getSafeDate (saleDate w) in
  mkGroup (g_losses g ++ [w])
          (g_total g + lossAmount w)%Q
          (match g_safeDate g with
           | None => Some safe
           | Some d => if d <? safe then Some safe else Some d
           end).

(** [grouped] is an object filled key by key and read back with
    [Object.entries], which lists string keys in the order they were added
    (tickers are taken not to be array indices); it is kept as an association
    list in that order.  Lines 553-555: a missing entry is created first. *)
Fixpoint groupAdd (grouped : list (string * Group)) (w : LossSale)
  : list (string * Group) :=
  match grouped with
  | [] => [(ls_ticker w, addToGroup (mkGroup [] 0 None) w)]
  | (k, g) :: rest =>
      if String.eqb k (ls_ticker w) then (k, addToGroup g w) :: rest
      else (k, g) :: groupAdd rest w
  end.

Definition groupByTicker (windows : list LossSale) : list (string * Group) :=
  fold_left groupAdd windows [].

(** The value of a string of decimal digits. *)
Fixpoint digitsValue (acc : option Z) (s : string) : option Z :=
  match s with
  | EmptyString => acc
  | String c s' =>
      let n := Z.of_nat (nat_of_ascii c) in
      if (48 <=? n) && (n <=? 57)
      then digitsValue (Some (10 * default 0 acc + (n - 48))) s'
      else None
  end.

(** The array index that a property name stands for, if any: a decimal
    numeral without leading zeros below [2^32 - 1]. *)
Definition arrayIndex (k : string) : option Z :=
  match k, digitsValue None k with
  | String c (String _ _), Some n =>
      if Ascii.eqb c (ascii_of_nat 48) then None
      else if n <? 2 ^ 32 - 1 then Some n else None
  | _, r => r
  end.

Definition isArrayIndex {V : Type} (e : string * V) : bool :=
  match arrayIndex (fst e) with Some _ => true | None => false end.

(** [Object.entries]: the fields named by array indices first, by index,
    then the other fields in the order they were created. *)
Definition Object_entries {V : Type} (fields : list (string * V)) : list (string * V) :=
  Array_sort (fun a b => default 0 (arrayIndex (fst a)) - default 0 (arrayIndex (fst b)))
             (List.filter isArrayIndex fields)
  ++ List.filter (fun e => negb (isArrayIndex e)) fields.

(** [sort] looks at the sign of what the comparator returns. *)
Definition Qsign (q : Q) : Z := Z.sgn (Qnum q).

(** Line 566: [(a, b) => b[1].total - a[1].total]. *)
Definition compareGroups (a b : string * Group) : Z :=
  Qsign (g_total (snd b) - g_total (snd a)).

(** A row of the table: ticker, total loss, safe date, days left, number
    of sales.  The text of the cells ([formatCurrency], [formatDate]) is left
    out.  [daysUntil] would read a [null] safe date as 0. *)
Record TableRow := mkTableRow {
  row_ticker : string;
  row_total : Q;
  row_safeDate : option Z;
  row_days : Z;
  row_sales : nat
}.

Definition tableRow (asOfDate : Z) (e : string * Group) : TableRow :=
  mkTableRow (fst e) (g_total (snd e)) (g_safeDate (snd e))
             (daysUntil (default 0 (g_safeDate (snd e))) asOfDate)
             (length (g_losses (snd e))).

(** [ActiveWindowsTable]: [None] stands for the "No Active Restrictions"
    panel, otherwise the rows and the grand total of the footer. *)
Definition activeWindowsTable (windows : list LossSale) (asOfDate : Z)
  : option (list TableRow * Q) :=
  if (length windows =? 0)%nat then None
  else
    let sortedTickers :=
      Array_sort compareGroups (Object_entries (groupByTicker windows)) in
    let grandTotal :=
      fold_left (fun sum e => (sum + g_total (snd e))%Q) sortedTickers 0%Q in
    Some (List.map (tableRow asOfDate) sortedTickers, grandTotal).

(** The entry of a ticker in [grouped]. *)
Fixpoint groupOf (k : string) (grouped : list (string * Group)) : option Group :=
  match grouped with
  | [] => None
  | (k', g) :: rest => if String.eqb k' k then Some g else groupOf k rest
  end.

(** The windows of one ticker, and the sum of their losses. *)
Definition windowsOf (k : string) (windows : list LossSale) : list LossSale :=
  List.filter (fun w => String.eqb (ls_ticker w) k) windows.

Definition totalLoss (windows : list LossSale) : Q :=
  sumQ (List.map lossAmount windows).

(** [d] is the latest safe date of [windows]. *)
Definition latestSafeDate (windows : list LossSale) (d : Z) : Prop :=
  (forall w, In w windows -> getSafeDate (saleDate w) <= d) /\
  exists w, In w windows /\ d = getSafeDate (saleDate w).

(** Three active windows on two tickers. *)
Definition windows_sample : list LossSale :=
  [mkLossSale "A" (day 10) 1 1 1 2 1; mkLossSale "B" (day 12) 1 1 1 6 5;
   mkLossSale "A" (day 20) 1 1 1 3 2].

(** ** Reading the CSV text *)

Definition NEWLINE : ascii := ascii_of_nat 10.
Definition QUOTE : ascii := ascii_of_nat 34.
Definition COMMA : ascii := ascii_of_nat 44.

(** [s.split(sep)] for a one-character separator; never the empty array. *)
Fixpoint splitOn (sep : ascii) (s : string) : list string :=
  match s with
  | EmptyString => [EmptyString]
  | String c s' =>
      if Ascii.eqb c sep then EmptyString :: splitOn sep s'
      else match splitOn sep s' with
           | h :: t => String c h :: t
           | [] => [String c EmptyString]
           end
  end.

(** The number of occurrences of a character: line 66 counts the quotes of
    a line with a global match. *)
Fixpoint countChar (c : ascii) (s : string) : nat :=
  match s with
  | EmptyString => 0
  | String c' s' => ((if Ascii.eqb c' c then 1 else 0) + countChar c s')%nat
  end.

(** The replace of lines 51, 57, 85 and 91: a quote at the start and a quote
    at the end are dropped. *)
Definition stripLeadingQuote (s : string) : string :=
  match s with
  | String c s' => if Ascii.eqb c QUOTE then s' else s
  | EmptyString => EmptyString
  end.

Fixpoint stripTrailingQuote (s : string) : string :=
  match s with
  | EmptyString => EmptyString
  | String c EmptyString => if Ascii.eqb c QUOTE then EmptyString else s
  | String c s' => String c (stripTrailingQuote s')
  end.

Definition stripQuotes (s : string) : string :=
  stripTrailingQuote (stripLeadingQuote s).

(** [current.trim()] followed by that replace. *)
Definition cleanField (current : string) : string := stripQuotes (trim current).

(** The loop [for (let char of line)] with its two variables, followed by the
    last [push]: lines 45-58 for the header and 78-92 for a row. *)
Fixpoint fieldsLoop (line : string) (current : string) (inQuotes : bool) : list string :=
  match line with
  | EmptyString => [cleanField current]
  | String char rest =>
      if Ascii.eqb char QUOTE then fieldsLoop rest current (negb inQuotes)
      else if Ascii.eqb char COMMA && negb inQuotes then
        cleanField current :: fieldsLoop rest EmptyString inQuotes
      else fieldsLoop rest (current +:+ String char EmptyString) inQuotes
  end.

Definition splitFields (line : string) : list string :=
  fieldsLoop line EmptyString false.

(** Lines 64-76: the lines of one record are joined back while the number
    of quotes read so far is odd and a line is left.  [pending] is the record
    begun on earlier lines. *)
Fixpoint joinLines (pending : option string) (lines : list string) : list string :=
  match lines with
  | [] => []
  | l :: rest =>
      let line :=
        match pending with
        | None => l
        | Some p => p +:+ String NEWLINE EmptyString +:+ l
        end in
      if Nat.odd (countChar QUOTE line) && negb (length rest =? 0)%nat
      then joinLines (Some line) rest
      else line :: joinLines None rest
  end.

(** The one property name that an assignment to a plain object does not
    create: a string assigned to it goes to the setter of
    [Object.prototype], which drops it. *)
Definition PROTO : string := "__proto__".

(** Lines 94-97: [row[h]] is [values[idx]], or the empty string where that
    is missing, for every header; a later header of the same name overwrites
    an earlier one.  The map holds the own properties of the object. *)
Definition mkRow (headers values : list string) : gmap string string :=
  fold_left (fun row ih =>
               if String.eqb (snd ih) PROTO then row
               else <[snd ih := nth (fst ih) values EmptyString]> row)
            (combine (seq 0 (length headers)) headers) ∅.

Definition isBlankLine (line : string) : bool := String.eqb (trim line) EmptyString.

Definition parseCSV (text : string) : list (gmap string string) :=
  let lines := splitOn NEWLINE text in
  if (length lines <? 2)%nat then []
  else
    let headers := splitFields (hd EmptyString lines) in
    List.map (fun line => mkRow headers (splitFields line))
             (List.filter (fun line => negb (isBlankLine line))
                          (joinLines None (tl lines))).

(** The header fields of a text. *)
Definition headersOf (text : string) : list string :=
  splitFields (hd EmptyString (splitOn NEWLINE text)).

(** ** Writing a table as CSV text, to state what reading gives back *)

Fixpoint hasChar (c : ascii) (s : string) : bool :=
  match s with
  | EmptyString => false
  | String c' s' => Ascii.eqb c' c || hasChar c s'
  end.

Fixpoint joinWith (sep : ascii) (l : list string) : string :=
  match l with
  | [] => EmptyString
  | [x] => x
  | x :: rest => x +:+ String sep (joinWith sep rest)
  end.

(** A cell: whether it is written between quotes, and its content. *)
Definition renderCell (cell : bool * string) : string :=
  if fst cell then String QUOTE (snd cell +:+ String QUOTE EmptyString) else snd cell.

(** A cell that can be written: no quote and no line break inside, no blank
    at either end, and a comma only between quotes. *)
Definition okCell (cell : bool * string) : Prop :=
  hasChar QUOTE (snd cell) = false /\
  hasChar NEWLINE (snd cell) = false /\
  trim (snd cell) = snd cell /\
  (fst cell = false -> hasChar COMMA (snd cell) = false).

Definition renderLine (cells : list (bool * string)) : string :=
  joinWith COMMA (List.map renderCell cells).

Definition renderCSV (header : list (bool * string)) (rows : list (list (bool * string)))
  : string :=
  joinWith NEWLINE (renderLine header :: List.map renderLine rows).

(** A table of two columns and two rows, one cell with a comma. *)
Definition csv_sample : string :=
  renderCSV [(false, "Instrument"); (false, "Amount")]%string
            [[(false, "T"); (true, "1,000.00")]; [(false, "U"); (false, "5")]]%string.

(** Whether a string begins with a blank. *)
Definition startsBlank (s : string) : bool :=
  match s with
  | String c _ => isBlank c
  | EmptyString => false
  end.

(** ** From the rows of the CSV text to transactions *)

(** [str.replace(/[...]/g, '')] for a class of characters. *)
Fixpoint removeChars (drop : ascii -> bool) (s : string) : string :=
  match s with
  | EmptyString => EmptyString
  | String c s' => if drop c then removeChars drop s' else String c (removeChars drop s')
  end.

Definition LPAREN : ascii := ascii_of_nat 40.
Definition RPAREN : ascii := ascii_of_nat 41.
Definition DOLLAR : ascii := ascii_of_nat 36.

(** The class of [parseAmount], line 23: parentheses, dollar sign, comma. *)
Definition amountNoise (c : ascii) : bool :=
  Ascii.eqb c LPAREN || Ascii.eqb c RPAREN || Ascii.eqb c DOLLAR || Ascii.eqb c COMMA.

(** The class of [parsePrice], line 30: dollar sign, comma. *)
Definition priceNoise (c : ascii) : bool :=
  Ascii.eqb c DOLLAR || Ascii.eqb c COMMA.

Definition startsWith (c : ascii) (s : string) : bool :=
  match s with
  | String c' _ => Ascii.eqb c' c
  | EmptyString => false
  end.

Fixpoint endsWith (c : ascii) (s : string) : bool :=
  match s with
  | EmptyString => false
  | String c' EmptyString => Ascii.eqb c' c
  | String _ s' => endsWith c s'
  end.

(** The property names that every object inherits from [Object.prototype].
    Under such a name the [lots] object of the engine holds a function, or
    the prototype itself, where the engine expects an array of lots. *)
Definition objectPrototypeNames : list string :=
  ["__proto__"; "constructor"; "hasOwnProperty"; "isPrototypeOf";
   "propertyIsEnumerable"; "toLocaleString"; "toString"; "valueOf";
   "__defineGetter__"; "__defineSetter__"; "__lookupGetter__";
   "__lookupSetter__"]%string.

Definition SLASH : ascii := ascii_of_nat 47.

Definition isDigit (c : ascii) : bool :=
  let n := nat_of_ascii c in ((48 <=? n) && (n <=? 57))%nat.

Fixpoint allDigits (s : string) : bool :=
  match s with
  | EmptyString => true
  | String c s' => isDigit c && allDigits s'
  end.

(** A number written in one to [maxLength] decimal digits. *)
Definition isNumeral (maxLength : nat) (s : string) : bool :=
  negb (String.eqb s EmptyString) && allDigits s &&
  (String.length s <=? maxLength)%nat.

(** A date string that line 16 reads as a date of the calendar: month, day
    and year in digits between slashes.  [parseInt] reads each part as a
    number, and the [Date] built from numbers of that size is a valid
    one. *)
Definition readableDate (s : string) : bool :=
  match splitOn SLASH (trim s) with
  | m :: d :: y :: _ => isNumeral 2 m && isNumeral 2 d && isNumeral 4 y
  | _ => false
  end.

Section Ingestion.

(** The built-in [parseFloat]; [None] is NaN. *)
Variable parseFloat : string -> option Q.

(** The time value of the [Date] that line 16 builds from a trimmed date
    string: its three parts between slashes, read by [parseInt]. *)
Variable dateOf : string -> Z.

(** [parseFloat(s) || 0]: NaN and zero both give zero. *)
Definition orZero (v : option Q) : Q := default 0%Q v.

(** A field of a row is [None] where the property is undefined. *)
Definition parseDate (dateStr : option string) : option Z :=
  match dateStr with
  | None => None
  | Some s => if String.eqb s EmptyString then None else Some (dateOf (trim s))
  end.

Definition parseAmount (amountStr : option string) : Q :=
  match amountStr with
  | None => 0%Q
  | Some s =>
      if String.eqb s EmptyString || String.eqb (trim s) EmptyString then 0%Q
      else
        let str := trim s in
        let isNegative := startsWith LPAREN str && endsWith RPAREN str in
        let cleaned := removeChars amountNoise str in
        let value := orZero (parseFloat cleaned) in
        if isNegative then (- value)%Q else value
  end.

Definition parsePrice (priceStr : option string) : Q :=
  match priceStr with
  | None => 0%Q
  | Some s =>
      if String.eqb s EmptyString || String.eqb (trim s) EmptyString then 0%Q
      else orZero (parseFloat (removeChars priceNoise (trim s)))
  end.

Definition parseQuantity (qtyStr : option string) : Q :=
  match qtyStr with
  | None => 0%Q
  | Some s =>
      if String.eqb s EmptyString || String.eqb (trim s) EmptyString then 0%Q
      else orZero (parseFloat (trim s))
  end.

(** The body of the loop of lines 109-130: [None] where the row is passed
    over by a [continue]. *)
Definition ingestRow (row : gmap string string) : option Transaction :=
  match option_map trim (row !! "Trans Code"%string) with
  | None => None
  | Some transCode =>
      if negb (String.eqb transCode "Buy") && negb (String.eqb transCode "Sell")
      then None
      else
        match parseDate (row !! "Activity Date"%string) with
        | None => None
        | Some date =>
            match option_map trim (row !! "Instrument"%string) with
            | None => None
            | Some ticker =>
                if String.eqb ticker EmptyString then None
                else
                  let quantity := parseQuantity (row !! "Quantity"%string) in
                  if Qle_bool quantity 0 then None
                  else Some (mkTransaction date ticker
                               (if String.eqb transCode "Buy" then Buy else Sell)
                               quantity
                               (parsePrice (row !! "Price"%string))
                               (parseAmount (row !! "Amount"%string)))
            end
        end
  end.

Fixpoint ingest (rows : list (gmap string string)) : list Transaction :=
  match rows with
  | [] => []
  | row :: rest =>
      match ingestRow row with
      | Some t => t :: ingest rest
      | None => ingest rest
      end
  end.

(** The rows on which the embedding follows the source to the end: every
    row that makes a transaction has a readable date and a ticker that is no
    property name of [Object.prototype].  On other rows the source keeps a
    transaction with an Invalid Date, which [formatDate] cannot render in a
    warning, or fails on the [lots] object. *)
Definition plainRows (rows : list (gmap string string)) : Prop :=
  Forall (fun row =>
            forall t, ingestRow row = Some t ->
              (exists s, row !! "Activity Date"%string = Some s /\
                         readableDate s = true) /\
              ~ In (ticker t) objectPrototypeNames)
         rows.

(** The same, as a test that can be run. *)
Definition plainRowsb (rows : list (gmap string string)) : bool :=
  forallb (fun row =>
             match ingestRow row with
             | None => true
             | Some t =>
                 match row !! "Activity Date"%string with
                 | Some s => readableDate s
                 | None => false
                 end &&
                 negb (existsb (String.eqb (ticker t)) objectPrototypeNames)
             end)
          rows.

(** [processTransactions] from its first line: the text is read, its rows
    are turned into transactions, and the engine runs on them. *)
Definition processTransactionsOfText (csvText : string) (asOfDate : Z) : Report :=
  processTransactions (ingest (parseCSV csvText)) asOfDate.

End Ingestion.

(** ** A reading of the two built-ins, for the examples *)

(** [parseFloat] on unsigned whole numbers. *)
Definition sample_parseFloat (s : string) : option Q :=
  option_map inject_Z (digitsValue None s).

(** Days from 1970-01-01 to a date of the Gregorian calendar. *)
Definition daysFromCivil (y m d : Z) : Z :=
  let y' := if m <=? 2 then y - 1 else y in
  let era := y' / 400 in
  let yoe := y' - era * 400 in
  let doy := (153 * (if 2 <? m then m - 3 else m + 9) + 2) / 5 + d - 1 in
  let doe := yoe * 365 + yoe / 4 - yoe / 100 + doy in
  era * 146097 + doe - 719468.

(** [new Date(y, m - 1, d)]: local midnight of a day of the calendar. *)
Definition localMidnight (y m d : Z) : Z := utc (daysFromCivil y m d * MS_PER_DAY).

(** Local midnight of month/day/year; zero for a string of another form. *)
Definition sample_dateOf (s : string) : Z :=
  match List.map (digitsValue None) (splitOn (ascii_of_nat 47) s) with
  | [Some m; Some d; Some y] => localMidnight y m d
  | _ => 0
  end.

(** A statement of three trades and a line of another kind: bought 10 for
    1000, sold them for 800 fifty days later, bought 5 five days after that. *)
Definition csv_trades : string :=
  renderCSV
    [(false, "Activity Date"); (false, "Instrument"); (false, "Trans Code");
     (false, "Quantity"); (false, "Price"); (false, "Amount")]%string
    [[(false, "12/01/2023"); (false, "T"); (false, "Buy");
      (false, "10"); (false, "$100"); (true, "($1,000)")];
     [(false, "01/20/2024"); (false, "T"); (false, "Sell");
      (false, "10"); (false, "$80"); (false, "$800")];
     [(false, "01/21/2024"); (false, "T"); (false, "CDIV");
      (false, ""); (false, ""); (false, "$1")];
     [(false, "01/25/2024"); (false, "T"); (false, "Buy");
      (false, "5"); (false, "$90"); (false, "($450)")]]%string.

End Zoned.

(** ** Two zones *)

(** A zone on Greenwich time all year: every day has 24 hours. *)
Definition fixedZone : Zone.
Proof.
  refine {| localTime := fun t => t; utc := fun l => l |};
    unfold MS_PER_DAY; intros; lia.
Defined.

Definition HOUR : Z := 1000 * 60 * 60.

(** 2024-11-03 06:00 at Greenwich, when New York left daylight-saving time. *)
Definition AUTUMN_CHANGE : Z := daysFromCivil 2024 11 3 * MS_PER_DAY + 6 * HOUR.

(** A zone four hours behind Greenwich until that time and five hours
    behind from then on.  A wall-clock reading of the hour that occurs
    twice is taken as the earlier time, as [UTC] takes it. *)
Definition autumnZone : Zone.
Proof.
  refine {| localTime := fun t => if t <? AUTUMN_CHANGE then t - 4 * HOUR
                                  else t - 5 * HOUR;
            utc := fun l => if l + 4 * HOUR <? AUTUMN_CHANGE then l + 4 * HOUR
                            else l + 5 * HOUR |};
    intros; generalize AUTUMN_CHANGE; intros c; unfold MS_PER_DAY, HOUR;
    repeat match goal with
           | |- context [?a <? ?b] => destruct (Z.ltb_spec a b)
           end; lia.
Defined.

(** * Properties *)

Section Properties.

Context {tz : Zone}.

(** ** Dates and the wash window *)

Lemma MS_PER_DAY_pos : 0 < MS_PER_DAY.
Proof. reflexivity. Qed.

Lemma addDays_step d n : addDays d n < addDays d (n + 1).
Proof.
  unfold addDays.
  replace (localTime d + (n + 1) * MS_PER_DAY)
    with (localTime d + n * MS_PER_DAY + MS_PER_DAY) by lia.
  apply utc_next_day.
Qed.

Lemma addDays_mono d n m : n < m -> addDays d n < addDays d m.
Proof.
  intros H.
  assert (Hk : forall k : nat, addDays d n < addDays d (n + 1 + Z.of_nat k)).
  { induction k as [| k IH]; [rewrite Z.add_0_r; apply addDays_step |].
    etransitivity; [exact IH |].
    replace (n + 1 + Z.of_nat (S k)) with (n + 1 + Z.of_nat k + 1) by lia.
    apply addDays_step. }
  specialize (Hk (Z.to_nat (m - n - 1))).
  now replace (n + 1 + Z.of_nat (Z.to_nat (m - n - 1))) with m in Hk by lia.
Qed.

Lemma addDays_lt d n m : addDays d n < addDays d m <-> n < m.
Proof.
  split; [| apply addDays_mono]. intros H.
  destruct (Z.lt_trichotomy n m) as [Hlt | [-> | Hgt]]; [exact Hlt | lia |].
  pose proof (addDays_mono d m n Hgt). lia.
Qed.

Lemma addDays_le d n m : addDays d n <= addDays d m <-> n <= m.
Proof.
  pose proof (addDays_lt d m n). split; intros H1.
  - destruct (Z.le_gt_cases n m) as [Hle | Hgt]; [exact Hle | lia].
  - destruct (Z.le_gt_cases (addDays d n) (addDays d m)) as [Hle | Hgt];
      [exact Hle | lia].
Qed.

Lemma addDays_after d n : 0 < n -> d < addDays d n.
Proof.
  intros H. pose proof (local_next_day d) as H1.
  assert (addDays d 1 <= addDays d n) by (apply addDays_le; lia).
  unfold addDays in *. rewrite Z.mul_1_l in *. lia.
Qed.

Lemma addDays_before d n : n < 0 -> addDays d n < d.
Proof.
  intros H. pose proof (local_prev_day d) as H1.
  assert (addDays d n <= addDays d (-1)) by (apply addDays_le; lia).
  unfold addDays in *.
  replace (localTime d + -1 * MS_PER_DAY) with (localTime d - MS_PER_DAY) in * by lia.
  lia.
Qed.

Lemma isInWashWindow_spec s c :
  isInWashWindow s c = true <-> addDays s (-30) <= c <= addDays s 30.
Proof. unfold isInWashWindow. rewrite andb_true_iff, !Z.leb_le. tauto. Qed.


Lemma daysUntil_ceil target from n :
  (n - 1) * MS_PER_DAY < target - from <= n * MS_PER_DAY ->
  daysUntil target from = n.
Proof.
  intros H. unfold daysUntil. cbv zeta.
  assert (E : (- (target - from)) / MS_PER_DAY = - n); [| lia].
  symmetry. apply Z.div_unique with (r := n * MS_PER_DAY - (target - from)).
  - left. lia.
  - lia.
Qed.

Lemma activeWindows_In lss asOf ls :
  In ls (activeWindows lss asOf) <-> In ls lss /\ asOf < getSafeDate (saleDate ls).
Proof. unfold activeWindows. rewrite filter_In, Z.ltb_lt. tauto. Qed.

(** ** The sort *)

Lemma compareTxn_pos a b : 0 < compareTxn a b <-> txn_key b < txn_key a.
Proof.
  unfold compareTxn, txn_key, isSell. cbv zeta.
  destruct (Z.eqb_spec (date a - date b) 0) as [E | E]; simpl;
    destruct (transType a), (transType b); lia.
Qed.

Lemma compareTxn_le a b : compareTxn a b <= 0 <-> txn_le a b.
Proof. unfold txn_le. pose proof (compareTxn_pos a b). lia. Qed.

Lemma sortInsert_perm {A} (cmp : A -> A -> Z) x l :
  Permutation (sortInsert cmp x l) (x :: l).
Proof.
  induction l as [| y l IH]; simpl.
  - reflexivity.
  - destruct (0 <? cmp x y).
    + rewrite IH. apply perm_swap.
    + reflexivity.
Qed.

Lemma Array_sort_perm {A} (cmp : A -> A -> Z) l :
  Permutation (Array_sort cmp l) l.
Proof.
  induction l as [| x l IH]; simpl.
  - reflexivity.
  - rewrite sortInsert_perm. now constructor.
Qed.

Lemma Array_sort_In {A} (cmp : A -> A -> Z) l x :
  In x (Array_sort cmp l) <-> In x l.
Proof.
  split; apply Permutation_in; [| symmetry]; apply Array_sort_perm.
Qed.

Lemma sortInsert_sorted x l :
  StronglySorted txn_le l -> StronglySorted txn_le (sortInsert compareTxn x l).
Proof.
  induction 1 as [| y l Hs IH Hy]; simpl.
  - repeat constructor.
  - destruct (Z.ltb_spec 0 (compareTxn x y)) as [Hlt | Hge].
    + constructor; [exact IH |].
      apply compareTxn_pos in Hlt.
      rewrite List.Forall_forall. intros z Hz.
      apply (Permutation_in _ (sortInsert_perm compareTxn x l)) in Hz.
      destruct Hz as [<- | Hz].
      * unfold txn_le. lia.
      * rewrite List.Forall_forall in Hy. now apply Hy.
    + apply compareTxn_le in Hge.
      constructor; [now constructor |].
      constructor; [exact Hge |].
      rewrite List.Forall_forall in Hy |- *. intros z Hz.
      specialize (Hy z Hz). unfold txn_le in *. lia.
Qed.

Lemma Array_sort_sorted l : StronglySorted txn_le (Array_sort compareTxn l).
Proof.
  induction l as [| x l IH]; simpl.
  - constructor.
  - now apply sortInsert_sorted.
Qed.

(** An array already in order is left as it is. *)
Lemma Array_sort_sorted_id l :
  StronglySorted txn_le l -> Array_sort compareTxn l = l.
Proof.
  induction 1 as [| x l Hs IH Hx]; simpl; [reflexivity |].
  rewrite IH. destruct l as [| y l']; [reflexivity |]. simpl.
  apply Forall_inv in Hx. apply compareTxn_le in Hx.
  destruct (Z.ltb_spec 0 (compareTxn x y)); [lia | reflexivity].
Qed.

(** In a sorted array, whatever precedes an element is not above it. *)
Lemma sorted_before pre x post y :
  StronglySorted txn_le (pre ++ x :: post) -> In y pre -> txn_le y x.
Proof.
  induction pre as [| z pre IH]; simpl; intros Hs Hy.
  - contradiction.
  - inversion Hs as [| ? ? Hs' Hz]; subst.
    destruct Hy as [-> | Hy].
    + rewrite List.Forall_forall in Hz. apply Hz, in_elt.
    + now apply IH.
Qed.

(** A sell processed before a buy is dated strictly earlier. *)
Lemma sell_before_buy s b :
  txn_le s b -> transType s = Sell -> transType b = Buy -> date s < date b.
Proof. unfold txn_le, txn_key, isSell. intros H Hs Hb. rewrite Hs, Hb in H. lia. Qed.

(** A transaction processed before another is not dated later. *)
Lemma txn_le_date a b : txn_le a b -> date a <= date b.
Proof.
  unfold txn_le, txn_key, isSell.
  destruct (transType a), (transType b); lia.
Qed.

(** ** The correlation passes *)

Lemma countKey_app T D d vs ws :
  countKey T D d (vs ++ ws) = (countKey T D d vs + countKey T D d ws)%nat.
Proof. unfold countKey. now rewrite List.filter_app, List.length_app. Qed.

Lemma hasKey_true T D d v :
  hasKey T D d v = true <->
  saleDate (lossSale v) = D /\ buyDate v = d /\ v_ticker v = T.
Proof.
  unfold hasKey. rewrite !andb_true_iff, !Z.eqb_eq, String.eqb_eq. tauto.
Qed.

Lemma alreadyRecorded_false vs txn prior :
  alreadyRecorded vs txn prior = false ->
  countKey (ticker txn) (date txn) (date prior) vs = 0%nat.
Proof.
  unfold alreadyRecorded, countKey.
  change (fun v : Violation => _) with (hasKey (ticker txn) (date txn) (date prior)).
  induction vs as [| v vs IH]; simpl; [reflexivity |].
  destruct (hasKey _ _ _ v); simpl; [discriminate | exact IH].
Qed.

Lemma alreadyRecorded_true vs txn prior :
  alreadyRecorded vs txn prior = true ->
  exists v, In v vs /\ v_ticker v = ticker txn /\
            saleDate (lossSale v) = date txn /\ buyDate v = date prior.
Proof.
  unfold alreadyRecorded. intros H. apply existsb_exists in H.
  destruct H as (v & Hv & Hk).
  change (hasKey (ticker txn) (date txn) (date prior) v = true) in Hk.
  apply hasKey_true in Hk. exists v. tauto.
Qed.

Lemma forwardPass_In txn lss vs v :
  In v (forwardPass txn lss vs) <->
  In v vs \/
  exists ls, In ls lss /\ ls_ticker ls = ticker txn /\
             isInWashWindow (saleDate ls) (date txn) = true /\
             v = mkViolation (ticker txn) ls (date txn) (quantity txn)
                   (Qmin (quantity txn) (ls_quantity ls) / ls_quantity ls * lossAmount ls)%Q.
Proof.
  unfold forwardPass. revert vs.
  induction lss as [| ls lss IH]; intros vs; simpl.
  - split; [auto | intros [H | (ls & [] & _)]; exact H].
  - rewrite IH. clear IH.
    destruct (String.eqb_spec (ls_ticker ls) (ticker txn)) as [Et | Et]; simpl.
    + destruct (isInWashWindow (saleDate ls) (date txn)) eqn:Ew.
      * rewrite in_app_iff. simpl. split.
        -- intros [[H | [H | []]] | (l & Hl & H)]; eauto 8.
        -- intros [H | (l & [<- | Hl] & H1 & H2 & ->)]; eauto 8.
      * split.
        -- intros [H | (l & Hl & H)]; eauto 8.
        -- intros [H | (l & [<- | Hl] & H1 & H2 & H3)]; eauto 8. congruence.
    + split.
      * intros [H | (l & Hl & H)]; eauto 8.
      * intros [H | (l & [<- | Hl] & H1 & H2 & H3)]; eauto 8. congruence.
Qed.

Lemma forwardPass_countKey txn lss vs T D d :
  (forall ls, In ls lss -> saleDate ls < date txn) -> d < D ->
  countKey T D d (forwardPass txn lss vs) = countKey T D d vs.
Proof.
  unfold forwardPass. intros Hlss HdD. revert vs.
  induction lss as [| ls lss IH]; intros vs; simpl; [reflexivity |].
  rewrite IH by (intros; apply Hlss; now right).
  destruct (_ && _); [| reflexivity].
  rewrite countKey_app. unfold countKey at 2. simpl.
  destruct (hasKey T D d _) eqn:Hk; simpl; [| lia].
  apply hasKey_true in Hk. simpl in Hk.
  pose proof (Hlss ls (or_introl eq_refl)). lia.
Qed.

Lemma backwardPass_incl txs txn ls q gl vs v :
  In v vs -> In v (backwardPass txs txn ls q gl vs).
Proof.
  unfold backwardPass. revert vs.
  induction txs as [| p txs IH]; intros vs Hv; simpl; [exact Hv |].
  apply IH. destruct (_ && _); [| exact Hv].
  destruct (alreadyRecorded vs txn p); [exact Hv |].
  apply in_or_app. now left.
Qed.

Lemma backwardPass_new txs txn ls q gl vs v :
  In v (backwardPass txs txn ls q gl vs) ->
  In v vs \/
  exists b, In b txs /\ transType b = Buy /\ ticker b = ticker txn /\
            date b < date txn /\ isInWashWindow (date txn) (date b) = true /\
            v = mkViolation (ticker txn) ls (date b) (quantity b)
                  (Qmin (quantity b) q / q * Qabs gl)%Q.
Proof.
  unfold backwardPass. revert vs.
  induction txs as [| p txs IH]; intros vs Hv; simpl in Hv; [now left |].
  apply IH in Hv. clear IH.
  destruct Hv as [Hv | (b & Hb & H)]; [| right; exists b; simpl; tauto].
  destruct (isBuy p && String.eqb (ticker p) (ticker txn) && (date p <? date txn) &&
            isInWashWindow (date txn) (date p)) eqn:Hc; [| now left].
  destruct (alreadyRecorded vs txn p); [now left |].
  apply in_app_or in Hv. destruct Hv as [Hv | [<- | []]]; [now left |].
  right. exists p.
  rewrite !andb_true_iff, Z.ltb_lt, String.eqb_eq in Hc.
  unfold isBuy in Hc. destruct (transType p); [| intuition discriminate].
  simpl. tauto.
Qed.

Lemma backwardPass_complete txs txn ls q gl vs b :
  saleDate ls = date txn ->
  In b txs -> transType b = Buy -> ticker b = ticker txn ->
  date b < date txn -> isInWashWindow (date txn) (date b) = true ->
  exists v, In v (backwardPass txs txn ls q gl vs) /\
            v_ticker v = ticker txn /\ saleDate (lossSale v) = date txn /\
            buyDate v = date b.
Proof.
  intros Hls Hb Hbuy Ht Hd Hw. unfold backwardPass. revert vs.
  induction txs as [| p txs IH]; intros vs; simpl; [contradiction |].
  destruct Hb as [-> | Hb]; [| now apply IH].
  assert (Hc : isBuy b && String.eqb (ticker b) (ticker txn) && (date b <? date txn) &&
               isInWashWindow (date txn) (date b) = true).
  { unfold isBuy. rewrite Hbuy, Hw, Ht, String.eqb_refl.
    apply Z.ltb_lt in Hd. now rewrite Hd. }
  rewrite Hc.
  destruct (alreadyRecorded vs txn b) eqn:Ha.
  - apply alreadyRecorded_true in Ha. destruct Ha as (v & Hv & Hk).
    exists v. split; [| exact Hk].
    now apply (backwardPass_incl txs txn ls q gl).
  - eexists. split.
    + apply (backwardPass_incl txs txn ls q gl), in_or_app. right. now left.
    + simpl. auto.
Qed.


Lemma backwardPass_countKey txs txn ls q gl vs :
  saleDate ls = date txn ->
  (forall T D d, d < D -> (countKey T D d vs <= 1)%nat) ->
  forall T D d, d < D -> (countKey T D d (backwardPass txs txn ls q gl vs) <= 1)%nat.
Proof.
  intros Hls. unfold backwardPass. revert vs.
  induction txs as [| p txs IH]; intros vs Hvs; simpl; [exact Hvs |].
  apply IH. clear IH.
  destruct (_ && _); [| exact Hvs].
  destruct (alreadyRecorded vs txn p) eqn:Ha; [exact Hvs |].
  intros T D d HdD. rewrite countKey_app. unfold countKey at 2. simpl.
  destruct (hasKey T D d _) eqn:Hk; simpl.
  - apply hasKey_true in Hk. simpl in Hk. destruct Hk as (<- & <- & <-).
    apply alreadyRecorded_false in Ha. rewrite Hls, Ha. lia.
  - specialize (Hvs T D d HdD). lia.
Qed.

(** ** One iteration of the main loop *)

Lemma run_snoc all st l x : run all st (l ++ [x]) = step all (run all st l) x.
Proof. unfold run. now rewrite fold_left_app. Qed.

(** Induction over the prefixes of the array being traversed. *)
Lemma run_prefix_ind all (P : list Transaction -> State -> Prop) :
  P [] initState ->
  (forall pre x post, all = pre ++ x :: post ->
     P pre (run all initState pre) ->
     P (pre ++ [x]) (step all (run all initState pre) x)) ->
  forall pre post, all = pre ++ post -> P pre (run all initState pre).
Proof.
  intros H0 Hstep pre.
  induction pre as [| x pre IH] using rev_ind; intros post E.
  - exact H0.
  - rewrite run_snoc. rewrite <- app_assoc in E. simpl in E.
    apply (Hstep _ _ _ E), (IH _ E).
Qed.

(** What a sell does to the loss sales and the violations: nothing, or one
    new loss sale followed by its backward pass. *)
Lemma step_sell_cases all st txn :
  (lossSales (step_sell all st txn) = lossSales st /\
   violations (step_sell all st txn) = violations st) \/
  (exists ls gl,
     lossSales (step_sell all st txn) = lossSales st ++ [ls] /\
     ls_ticker ls = ticker txn /\ saleDate ls = date txn /\
     lossAmount ls = Qabs gl /\
     violations (step_sell all st txn) =
       backwardPass all txn ls (ls_quantity ls) gl (violations st)).
Proof.
  unfold step_sell.
  destruct (length _ =? 0)%nat; [left; now split |].
  destruct (fifoLoop _ _ _ _) as [lots' [[rts cost] sold]].
  destruct (Qeq_bool sold 0); [left; now split |].
  destruct (Qlt_bool _ 0); [| left; now split].
  right. eexists _, _. simpl. repeat split; reflexivity.
Qed.

Lemma step_lossSales_incl all st txn ls :
  In ls (lossSales st) -> In ls (lossSales (step all st txn)).
Proof.
  intros H. unfold step. destruct (transType txn); [exact H |].
  destruct (step_sell_cases all st txn) as [[-> _] | (l & gl & -> & _)];
    [exact H | apply in_or_app; now left].
Qed.

Lemma step_violations_incl all st txn v :
  In v (violations st) -> In v (violations (step all st txn)).
Proof.
  intros H. unfold step. destruct (transType txn).
  - simpl. apply forwardPass_In. now left.
  - destruct (step_sell_cases all st txn) as [[_ ->] | (l & gl & _ & _ & _ & _ & ->)];
      [exact H | now apply backwardPass_incl].
Qed.

(** ** Invariants of the traversal *)

Section Traversal.

(** The array being traversed, sorted as [processTransactions] sorts it. *)
Variable all : list Transaction.
Hypothesis all_sorted : StronglySorted txn_le all.

(** Every loss sale stems from a sell already processed. *)
Lemma run_lossSales_origin pre ls :
  In ls (lossSales (run all initState pre)) ->
  exists s, In s pre /\ transType s = Sell /\
            date s = saleDate ls /\ ticker s = ls_ticker ls.
Proof.
  revert ls. induction pre as [| x pre IH] using rev_ind; intros ls H.
  - contradiction.
  - rewrite run_snoc in H. unfold step in H.
    assert (Hold : In ls (lossSales (run all initState pre)) ->
                   exists s, In s (pre ++ [x]) /\ transType s = Sell /\
                             date s = saleDate ls /\ ticker s = ls_ticker ls).
    { intros Hin. destruct (IH _ Hin) as (s & Hs & Hrest).
      exists s. split; [apply in_or_app; now left | exact Hrest]. }
    destruct (transType x) eqn:Hx; [now apply Hold |].
    destruct (step_sell_cases all (run all initState pre) x)
      as [[E _] | (l & gl & E & Ht & Hd & _)]; rewrite E in H.
    + now apply Hold.
    + apply in_app_or in H. destruct H as [H | [<- | []]]; [now apply Hold |].
      exists x. split; [apply in_or_app; right; now left |]. auto.
Qed.

(** While a buy is being processed, every recorded loss sale is dated
    strictly before it. *)
Lemma lossSales_before_buy pre x post ls :
  all = pre ++ x :: post ->
  transType x = Buy ->
  In ls (lossSales (run all initState pre)) -> saleDate ls < date x.
Proof.
  intros E Hx Hls.
  destruct (run_lossSales_origin _ _ Hls) as (s & Hin & Hsell & <- & _).
  pose proof all_sorted as Hs. rewrite E in Hs.
  apply (sell_before_buy s x); auto. now apply (sorted_before pre x post).
Qed.

Lemma violation_sound_mono lss lss' v :
  (forall ls, In ls lss -> In ls lss') ->
  violation_sound all lss v -> violation_sound all lss' v.
Proof. unfold violation_sound. intros Hinc (H1 & H2). split; auto. Qed.

Lemma run_violations_sound :
  forall pre post, all = pre ++ post ->
  forall v, In v (violations (run all initState pre)) ->
            violation_sound all (lossSales (run all initState pre)) v.
Proof.
  apply (run_prefix_ind all
           (fun _ st => forall v, In v (violations st) ->
                                  violation_sound all (lossSales st) v)).
  - intros v [].
  - intros pre x post E IH v Hv.
    set (st := run all initState pre) in *.
    unfold step in *. destruct (transType x) eqn:Hx.
    + simpl in Hv |- *. apply forwardPass_In in Hv.
      destruct Hv as [Hv | (ls & Hls & Ht & Hw & ->)]; [now apply IH |].
      pose proof (lossSales_before_buy pre x post ls E Hx Hls) as Hlt.
      unfold violation_sound. simpl. repeat split; auto; try lia.
      exists x. rewrite E. repeat split; auto. apply in_elt.
    + destruct (step_sell_cases all st x)
        as [[El Ev] | (ls & gl & El & Ht & Hd & Ha & Ev)];
        rewrite El; rewrite Ev in Hv.
      * now apply IH.
      * apply backwardPass_new in Hv.
        destruct Hv as [Hv | (b & Hb & Hbuy & Hbt & Hlt & Hw & ->)].
        -- apply (violation_sound_mono (lossSales st)); [| now apply IH].
           intros l Hl. apply in_or_app. now left.
        -- unfold violation_sound. simpl. rewrite Hd, Ha.
           repeat split; auto; try lia.
           ++ apply in_or_app. right. now left.
           ++ exists b. repeat split; auto.
Qed.

Lemma run_backward_complete :
  forall pre post, all = pre ++ post ->
  forall ls b, In ls (lossSales (run all initState pre)) ->
    In b all -> transType b = Buy -> ticker b = ls_ticker ls ->
    date b < saleDate ls -> isInWashWindow (saleDate ls) (date b) = true ->
    exists v, In v (violations (run all initState pre)) /\
              v_ticker v = ls_ticker ls /\
              saleDate (lossSale v) = saleDate ls /\ buyDate v = date b.
Proof.
  apply (run_prefix_ind all
           (fun _ st => forall ls b, In ls (lossSales st) ->
              In b all -> transType b = Buy -> ticker b = ls_ticker ls ->
              date b < saleDate ls -> isInWashWindow (saleDate ls) (date b) = true ->
              exists v, In v (violations st) /\
                        v_ticker v = ls_ticker ls /\
                        saleDate (lossSale v) = saleDate ls /\ buyDate v = date b)).
  - intros ls b [].
  - intros pre x post E IH ls b Hls Hb Hbuy Ht Hlt Hw.
    set (st := run all initState pre) in *.
    assert (Hold : In ls (lossSales st) ->
                   exists v, In v (violations (step all st x)) /\
                             v_ticker v = ls_ticker ls /\
                             saleDate (lossSale v) = saleDate ls /\ buyDate v = date b).
    { intros Hin. destruct (IH ls b Hin Hb Hbuy Ht Hlt Hw) as (v & Hv & Hk).
      exists v. split; [now apply step_violations_incl | exact Hk]. }
    unfold step in *. destruct (transType x) eqn:Hx; [now apply Hold |].
    destruct (step_sell_cases all st x)
      as [[El Ev] | (l & gl & El & Hlt' & Hd & Ha & Ev)]; rewrite El in Hls.
    + now apply Hold.
    + apply in_app_or in Hls. destruct Hls as [Hls | [<- | []]]; [now apply Hold |].
      rewrite Ev, Hlt', Hd. rewrite Hlt' in Ht. rewrite Hd in Hlt, Hw.
      now apply backwardPass_complete.
Qed.



Lemma run_forward_complete :
  forall pre post, all = pre ++ post ->
  forall ls b, In ls (lossSales (run all initState pre)) ->
    In b pre -> transType b = Buy -> ticker b = ls_ticker ls ->
    saleDate ls < date b -> isInWashWindow (saleDate ls) (date b) = true ->
    exists v, In v (violations (run all initState pre)) /\
              lossSale v = ls /\ buyDate v = date b /\
              v_ticker v = ticker b /\ buyQuantity v = quantity b.
Proof.
  apply (run_prefix_ind all
           (fun pre st => forall ls b, In ls (lossSales st) ->
              In b pre -> transType b = Buy -> ticker b = ls_ticker ls ->
              saleDate ls < date b -> isInWashWindow (saleDate ls) (date b) = true ->
              exists v, In v (violations st) /\
                        lossSale v = ls /\ buyDate v = date b /\
                        v_ticker v = ticker b /\ buyQuantity v = quantity b)).
  - intros ls b [].
  - intros pre x post E IH ls b Hls Hb Hbuy Ht Hlt Hw.
    set (st := run all initState pre) in *.
    assert (Hold : In ls (lossSales st) -> In b pre ->
                   exists v, In v (violations (step all st x)) /\
                             lossSale v = ls /\ buyDate v = date b /\
                             v_ticker v = ticker b /\ buyQuantity v = quantity b).
    { intros Hin Hpre. destruct (IH ls b Hin Hpre Hbuy Ht Hlt Hw) as (v & Hv & Hk).
      exists v. split; [now apply step_violations_incl | exact Hk]. }
    apply in_app_or in Hb.
    unfold step in *. destruct (transType x) eqn:Hx.
    + simpl in Hls. destruct Hb as [Hb | [<- | []]]; [now apply Hold |].
      eexists. split.
      * simpl. apply forwardPass_In. right. exists ls. repeat split; eauto.
      * simpl. auto.
    + destruct Hb as [Hb | [<- | []]]; [| congruence].
      destruct (step_sell_cases all st x)
        as [[El Ev] | (l & gl & El & Hlt' & Hd & Ha & Ev)]; rewrite El in Hls.
      * now apply Hold.
      * apply in_app_or in Hls. destruct Hls as [Hls | [<- | []]]; [now apply Hold |].
        pose proof all_sorted as Hs. rewrite E in Hs.
        pose proof (txn_le_date _ _ (sorted_before pre x post b Hs Hb)). lia.
Qed.

Lemma run_key_unique :
  forall pre post, all = pre ++ post ->
  forall T D d, d < D ->
    (countKey T D d (violations (run all initState pre)) <= 1)%nat.
Proof.
  apply (run_prefix_ind all
           (fun _ st => forall T D d, d < D ->
                          (countKey T D d (violations st) <= 1)%nat)).
  - intros T D d _. unfold countKey. simpl. lia.
  - intros pre x post E IH.
    set (st := run all initState pre) in *.
    unfold step. destruct (transType x) eqn:Hx.
    + intros T D d HdD. simpl. rewrite forwardPass_countKey; auto.
      intros ls Hls. now apply (lossSales_before_buy pre x post).
    + destruct (step_sell_cases all st x)
        as [[El Ev] | (l & gl & El & Hlt' & Hd & Ha & Ev)]; rewrite Ev.
      * exact IH.
      * now apply backwardPass_countKey.
Qed.

End Traversal.

(** ** The report *)

Lemma report_sorted rows : StronglySorted txn_le (Array_sort compareTxn rows).
Proof. apply Array_sort_sorted. Qed.

Lemma report_violations_sound rows asOf v :
  In v (r_violations (processTransactions rows asOf)) ->
  violation_sound (Array_sort compareTxn rows)
                  (r_lossSales (processTransactions rows asOf)) v.
Proof.
  unfold processTransactions. simpl.
  apply (run_violations_sound _ (report_sorted rows) _ []).
  now rewrite app_nil_r.
Qed.

Lemma countKey_pos T D d vs v :
  In v vs -> v_ticker v = T -> saleDate (lossSale v) = D -> buyDate v = d ->
  (1 <= countKey T D d vs)%nat.
Proof.
  intros Hv Ht HD Hd. unfold countKey.
  assert (Hin : In v (List.filter (hasKey T D d) vs)).
  { apply filter_In. split; [exact Hv |]. apply hasKey_true. auto. }
  destruct (List.filter _ vs); [contradiction | simpl; lia].
Qed.

(** A buy of the loss sale's ticker dated in the window but not on the sale
    date is answered by a violation under the key of the pair. *)
Lemma report_window_complete rows asOf ls b :
  In ls (r_lossSales (processTransactions rows asOf)) ->
  In b rows -> transType b = Buy -> ticker b = ls_ticker ls ->
  isInWashWindow (saleDate ls) (date b) = true -> date b <> saleDate ls ->
  exists v, In v (r_violations (processTransactions rows asOf)) /\
            v_ticker v = ls_ticker ls /\
            saleDate (lossSale v) = saleDate ls /\ buyDate v = date b /\
            (saleDate ls < date b -> lossSale v = ls).
Proof.
  unfold processTransactions. simpl.
  set (all := Array_sort compareTxn rows).
  intros Hls Hb Hbuy Ht Hw Hne.
  apply (Array_sort_In compareTxn) in Hb. fold all in Hb.
  assert (E : all = all ++ []) by now rewrite app_nil_r.
  destruct (Z.lt_total (date b) (saleDate ls)) as [Hlt | [Heq | Hgt]];
    [| contradiction |].
  - destruct (run_backward_complete all all [] E ls b Hls Hb Hbuy Ht Hlt Hw)
      as (v & Hv & H1 & H2 & H3).
    exists v. repeat split; auto. lia.
  - destruct (run_forward_complete all (report_sorted rows) all [] E
                ls b Hls Hb Hbuy Ht Hgt Hw) as (v & Hv & H1 & H2 & H3 & H4).
    exists v. subst ls. repeat split; auto. congruence.
Qed.



(** ** Window boundaries *)


(** ** Same-day buys *)

(** C10. A buy dated on the sale date of a loss sale of its ticker lies in
    that sale's wash window, yet the report holds no violation pairing the
    two: no violation has a buy date equal to the sale date of its loss
    sale. *)
Theorem same_day_buy_no_violation (rows : list Transaction) (asOf : Z)
    (ls : LossSale) (b : Transaction) :
  In ls (r_lossSales (processTransactions rows asOf)) ->
  In b rows -> transType b = Buy -> ticker b = ls_ticker ls ->
  date b = saleDate ls ->
  isInWashWindow (saleDate ls) (date b) = true /\
  (forall v, In v (r_violations (processTransactions rows asOf)) ->
             buyDate v <> saleDate (lossSale v)) /\
  ~ exists v, In v (r_violations (processTransactions rows asOf)) /\
              v_ticker v = ticker b /\
              saleDate (lossSale v) = saleDate ls /\ buyDate v = date b.
Proof.
  intros Hls Hb Hbuy Ht Hd.
  assert (Hall : forall v, In v (r_violations (processTransactions rows asOf)) ->
                           buyDate v <> saleDate (lossSale v)).
  { intros v Hv.
    now destruct (report_violations_sound rows asOf v Hv) as (_ & _ & _ & Hne & _). }
  split; [| split; [exact Hall |]].
  - rewrite Hd. apply isInWashWindow_spec.
    pose proof (addDays_before (saleDate ls) (-30) ltac:(lia)).
    pose proof (addDays_after (saleDate ls) 30 ltac:(lia)). lia.
  - intros (v & Hv & _ & HD & Hbd). apply (Hall v Hv). congruence.
Qed.

(** ** Deduplication *)

(** C8. For a buy of the loss sale's ticker dated strictly before the sale
    and inside its window, the report holds exactly one violation under the
    key (ticker, saleDate, buyDate) of the pair, whatever else the input
    contains; and the backward pass leaves the violations untouched at a
    buy whose key is already present. *)
Theorem dedup_exactly_one (rows : list Transaction) (asOf : Z)
    (ls : LossSale) (b : Transaction) :
  In ls (r_lossSales (processTransactions rows asOf)) ->
  In b rows -> transType b = Buy -> ticker b = ls_ticker ls ->
  date b < saleDate ls -> isInWashWindow (saleDate ls) (date b) = true ->
  countKey (ls_ticker ls) (saleDate ls) (date b)
           (r_violations (processTransactions rows asOf)) = 1%nat /\
  (forall txn p l q gl vs,
     alreadyRecorded vs txn p = true -> backwardPass [p] txn l q gl vs = vs).
Proof.
  intros Hls Hb Hbuy Ht Hlt Hw. split.
  - assert (Hne : date b <> saleDate ls) by lia.
    destruct (report_window_complete rows asOf ls b Hls Hb Hbuy Ht Hw Hne)
      as (v & Hv & H1 & H2 & H3 & _).
    pose proof (countKey_pos _ _ _ _ v Hv H1 H2 H3) as Hge.
    assert (Hle : (countKey (ls_ticker ls) (saleDate ls) (date b)
                     (r_violations (processTransactions rows asOf)) <= 1)%nat).
    { unfold processTransactions. simpl.
      apply (run_key_unique _ (report_sorted rows) _ []); [| exact Hlt].
      now rewrite app_nil_r. }
    lia.
  - intros txn p l q gl vs Ha. unfold backwardPass. simpl. rewrite Ha.
    now destruct (_ && _).
Qed.

(** ** Disallowed loss *)

(** C7. Every violation of the report, from either pass, stems from a buy of
    the input and carries
    [min(buy.quantity, lossSale.quantity) / lossSale.quantity * lossSale.lossAmount],
    a function of the pair alone; the amounts charged to one loss sale are not
    capped by its loss: two repurchases of a 400 loss are charged 800 (the
    sample is read on Greenwich time). *)
Theorem disallowed_loss_formula (rows : list Transaction) (asOf : Z) :
  (forall v, In v (r_violations (processTransactions rows asOf)) ->
     exists b, In b rows /\ transType b = Buy /\
               ticker b = v_ticker v /\ date b = buyDate v /\
               In (lossSale v) (r_lossSales (processTransactions rows asOf)) /\
               disallowedLoss v =
                 (Qmin (quantity b) (ls_quantity (lossSale v))
                  / ls_quantity (lossSale v) * lossAmount (lossSale v))%Q) /\
  (exists ls,
     r_lossSales (processTransactions (tz := fixedZone) rows_uncapped asOf) = [ls] /\
     Forall (fun v => lossSale v = ls)
            (r_violations (processTransactions (tz := fixedZone) rows_uncapped asOf)) /\
     (lossAmount ls == 400)%Q /\
     (totalDisallowed
        (r_violations (processTransactions (tz := fixedZone) rows_uncapped asOf))
      == 800)%Q).
Proof.
  split.
  - intros v Hv.
    destruct (report_violations_sound rows asOf v Hv)
      as (Hls & _ & _ & _ & Hf & b & Hb & Hbuy & Ht & Hd & Hq).
    exists b. apply (proj1 (Array_sort_In compareTxn rows b)) in Hb.
    rewrite Hq. repeat split; auto.
  - eexists. split; [reflexivity |].
    split; [| split; reflexivity].
    repeat constructor.
Qed.

(** ** Active windows *)

(** C4, as far as it holds in every zone.  A recorded loss sale is an active
    window at [asOf] exactly when its sale date plus 31 days is later than
    [asOf]: it is active at every [asOf] up to day [D + 30] (the whole of
    that day included) and inactive from midnight of day [D + 31] on.  The
    days remaining at an [asOf] of day [D + 30] are 1 when no more than 24
    hours are left until that midnight.  The report's own [activeWindows] is
    this filter. *)
Theorem active_window_expiry (lss : list LossSale) (ls : LossSale) (asOf : Z) :
  In ls lss ->
  (In ls (activeWindows lss asOf) <-> addDays (saleDate ls) 31 > asOf) /\
  (asOf <= addDays (saleDate ls) 30 -> In ls (activeWindows lss asOf)) /\
  (addDays (saleDate ls) 31 <= asOf -> ~ In ls (activeWindows lss asOf)) /\
  (addDays (saleDate ls) 30 <= asOf < addDays (saleDate ls) 31 ->
   In ls (activeWindows lss asOf) /\
   (addDays (saleDate ls) 31 - asOf <= MS_PER_DAY ->
    daysUntil (getSafeDate (saleDate ls)) asOf = 1)) /\
  (forall rows,
     r_activeWindows (processTransactions rows asOf) =
     activeWindows (r_lossSales (processTransactions rows asOf)) asOf).
Proof.
  intros Hin. pose proof MS_PER_DAY_pos as Hpos.
  pose proof (addDays_mono (saleDate ls) 30 31 ltac:(lia)) as Hday.
  assert (Hact : In ls (activeWindows lss asOf) <-> addDays (saleDate ls) 31 > asOf).
  { rewrite activeWindows_In. unfold getSafeDate. intuition lia. }
  split; [exact Hact |].
  split; [intros H; apply Hact; lia |].
  split; [intros H Hc; apply Hact in Hc; lia |].
  split; [| reflexivity].
  intros H. split; [apply Hact; lia |].
  intros Hlen. apply daysUntil_ceil. unfold getSafeDate. lia.
Qed.

(** ** Ticker check *)

Lemma toUpperCase_nonempty s : s <> EmptyString -> toUpperCase s <> EmptyString.
Proof. destruct s; simpl; [congruence | discriminate]. Qed.

Lemma eqb_empty_false s : s <> EmptyString -> String.eqb s EmptyString = false.
Proof. intros H. now apply String.eqb_neq. Qed.

(** The [reduce] of [checkTicker], started at [new Date(0)]. *)
Lemma latestSafe_fold (m : list LossSale) (init : Z) :
  let r := fold_left (fun latest w =>
                        let safe := getSafeDate (saleDate w) in
                        if latest <? safe then safe else latest) m init in
  init <= r /\
  (forall w, In w m -> getSafeDate (saleDate w) <= r) /\
  (r = init \/ exists w, In w m /\ r = getSafeDate (saleDate w)).
Proof.
  revert init. induction m as [| w m IH]; intros init; simpl.
  - split; [lia |]. split; [intros w [] | now left].
  - specialize (IH (if init <? getSafeDate (saleDate w)
                    then getSafeDate (saleDate w) else init)).
    simpl in IH. destruct IH as (H1 & H2 & H3).
    destruct (Z.ltb_spec init (getSafeDate (saleDate w))) as [Hlt | Hge].
    + split; [lia |]. split.
      * intros w' [<- | Hw']; [lia | now apply H2].
      * right. destruct H3 as [-> | (w' & Hw' & ->)]; eauto.
    + split; [lia |]. split.
      * intros w' [<- | Hw']; [lia | now apply H2].
      * destruct H3 as [-> | (w' & Hw' & ->)]; eauto.
Qed.

(** C3, as the code has it.  The query is trimmed and upper-cased, then
    compared exactly with the ticker stored in each active window (which is
    kept as the input gave it).  The check reports safe exactly when no active
    window has that ticker; otherwise it returns all of them with a safe date
    that bounds every [saleDate + 31 days] and, for [asOf] not before the
    epoch, is attained by one of them.  Queries that agree after trimming
    and upper-casing get the same answer. *)
Theorem checkTicker_exact_upper (lss : list LossSale) (asOf : Z) (t : string) :
  trim t <> EmptyString ->
  let u := toUpperCase (trim t) in
  let m := List.filter (fun w => String.eqb (ls_ticker w) u) (activeWindows lss asOf) in
  (forall w, In w m <->
             In w lss /\ addDays (saleDate w) 31 > asOf /\ ls_ticker w = u) /\
  (m = [] <-> checkTicker (activeWindows lss asOf) asOf t = Some (SafeResult u)) /\
  (m <> [] ->
   exists safe,
     checkTicker (activeWindows lss asOf) asOf t
       = Some (WarningResult u m safe (daysUntil safe asOf)) /\
     (forall w, In w m -> addDays (saleDate w) 31 <= safe) /\
     (0 <= asOf -> exists w, In w m /\ safe = addDays (saleDate w) 31)) /\
  (forall t', toUpperCase (trim t') = u ->
     checkTicker (activeWindows lss asOf) asOf t'
     = checkTicker (activeWindows lss asOf) asOf t).
Proof.
  intros Hne u m.
  assert (Hm : forall w, In w m <->
               In w lss /\ addDays (saleDate w) 31 > asOf /\ ls_ticker w = u).
  { intros w. unfold m. rewrite filter_In, activeWindows_In, String.eqb_eq.
    unfold getSafeDate. intuition lia. }
  assert (Hcheck : checkTicker (activeWindows lss asOf) asOf t =
            if (length m =? 0)%nat then Some (SafeResult u)
            else Some (WarningResult u m
                   (fold_left (fun latest w =>
                                 let safe := getSafeDate (saleDate w) in
                                 if latest <? safe then safe else latest) m 0)
                   (daysUntil
                      (fold_left (fun latest w =>
                                    let safe := getSafeDate (saleDate w) in
                                    if latest <? safe then safe else latest) m 0)
                      asOf))).
  { unfold checkTicker. now rewrite (eqb_empty_false _ Hne). }
  split; [exact Hm |]. split; [| split].
  - rewrite Hcheck. destruct m; simpl; split; congruence.
  - intros Hm0. rewrite Hcheck.
    destruct m as [| w0 m'] eqn:Em; [congruence |].
    eexists. split; [reflexivity |].
    destruct (latestSafe_fold (w0 :: m') 0) as (H0 & Hub & Hatt).
    split; [exact Hub |].
    intros HasOf. destruct Hatt as [E0 | Hw]; [| exact Hw].
    exfalso. pose proof (Hub w0 (or_introl eq_refl)) as Hle.
    destruct (proj1 (Hm w0) (or_introl eq_refl)) as (_ & Hact & _).
    unfold getSafeDate in *. lia.
  - intros t' Ht'.
    assert (Hne' : trim t' <> EmptyString).
    { intros E. rewrite E in Ht'. simpl in Ht'.
      symmetry in Ht'. now apply (toUpperCase_nonempty _ Hne). }
    unfold checkTicker.
    rewrite (eqb_empty_false _ Hne), (eqb_empty_false _ Hne'), Ht'. reflexivity.
Qed.

(** ** Rational helpers *)

Lemma Qlt_bool_iff a b : Qlt_bool a b = true <-> (a < b)%Q.
Proof.
  unfold Qlt_bool. rewrite negb_true_iff. split.
  - intros H. apply Qnot_le_lt. intros Hle. apply Qle_bool_iff in Hle. congruence.
  - intros H. destruct (Qle_bool b a) eqn:E; [| reflexivity].
    apply Qle_bool_iff in E. exfalso. exact (Qlt_not_le _ _ H E).
Qed.

Lemma Qlt_bool_false a b : Qlt_bool a b = false <-> ~ (a < b)%Q.
Proof. rewrite <- Qlt_bool_iff. destruct (Qlt_bool a b); split; congruence. Qed.

Lemma Qabs_neg_opp x : (x < 0)%Q -> Qabs x = (- x)%Q.
Proof.
  destruct x as [n d]. unfold Qlt, Qabs, Qopp. simpl. intros H.
  f_equal. lia.
Qed.

Lemma Qeq_bool_pos_false x : (0 < x)%Q -> Qeq_bool x 0 = false.
Proof.
  intros H. destruct (Qeq_bool x 0) eqn:E; [| reflexivity].
  apply Qeq_bool_iff in E. rewrite E in H. exfalso. exact (Qlt_irrefl _ H).
Qed.

Lemma length_eqb_zero {A} (l : list A) : (length l =? 0)%nat = true <-> l = [].
Proof. destruct l; simpl; split; congruence. Qed.

(** ** Loss sales *)

(** A loss sale recorded by a sell: its loss is positive and equals cost
    basis minus proceeds, and its proceeds are the sell's amount scaled by the
    matched share of the order. *)
Lemma step_sell_lossSale_shape all st txn ls :
  In ls (lossSales (step_sell all st txn)) ->
  In ls (lossSales st) \/
  ((0 < lossAmount ls)%Q /\ (lossAmount ls == costBasis ls - proceeds ls)%Q /\
   ~ (ls_quantity ls == 0)%Q /\
   proceeds ls = (amount txn * (ls_quantity ls / quantity txn))%Q /\
   ls_ticker ls = ticker txn /\ saleDate ls = date txn).
Proof.
  unfold step_sell.
  destruct (length _ =? 0)%nat; [now left |].
  destruct (fifoLoop _ _ _ _) as [lots' [[rts cost] sold]].
  destruct (Qeq_bool sold 0) eqn:Es; [now left |].
  destruct (Qlt_bool _ 0) eqn:Eg; [| now left].
  cbn [lossSales]. intros H. apply in_app_or in H.
  destruct H as [H | [<- | []]]; [now left |].
  right. cbn [lossAmount costBasis proceeds ls_quantity ls_ticker saleDate].
  apply Qlt_bool_iff in Eg.
  rewrite (Qabs_neg_opp _ Eg).
  split; [| split; [| split]].
  - apply (Qopp_lt_compat _ 0) in Eg. exact Eg.
  - ring.
  - intros E. apply Qeq_bool_iff in E. congruence.
  - auto.
Qed.

Lemma run_lossSales_shape all pre ls :
  In ls (lossSales (run all initState pre)) ->
  (0 < lossAmount ls)%Q /\ (lossAmount ls == costBasis ls - proceeds ls)%Q /\
  ~ (ls_quantity ls == 0)%Q /\
  exists s, In s pre /\ transType s = Sell /\
            ticker s = ls_ticker ls /\ date s = saleDate ls /\
            proceeds ls = (amount s * (ls_quantity ls / quantity s))%Q.
Proof.
  revert ls. induction pre as [| x pre IH] using rev_ind; intros ls H.
  - contradiction.
  - rewrite run_snoc in H.
    assert (Hold : In ls (lossSales (run all initState pre)) ->
              (0 < lossAmount ls)%Q /\ (lossAmount ls == costBasis ls - proceeds ls)%Q /\
              ~ (ls_quantity ls == 0)%Q /\
              exists s, In s (pre ++ [x]) /\ transType s = Sell /\
                        ticker s = ls_ticker ls /\ date s = saleDate ls /\
                        proceeds ls = (amount s * (ls_quantity ls / quantity s))%Q).
    { intros Hin. destruct (IH _ Hin) as (H1 & H2 & H3 & s & Hs & Hrest).
      repeat split; auto. exists s. split; [apply in_or_app; now left | exact Hrest]. }
    unfold step in H. destruct (transType x) eqn:Hx; [now apply Hold |].
    apply step_sell_lossSale_shape in H.
    destruct H as [H | (H1 & H2 & H3 & H4 & H5 & H6)]; [now apply Hold |].
    repeat split; auto. exists x.
    split; [apply in_or_app; right; now left |]. auto.
Qed.

(** ** The lot queues *)

Lemma step_buy_lots st txn :
  lots (step_buy st txn) =
  <[ticker txn := default [] (lots st !! ticker txn)
                  ++ [mkLot (date txn) (quantity txn) (price txn) (quantity txn)]]> (lots st).
Proof. reflexivity. Qed.

(** A sell leaves the map alone or rewrites the entry of its own ticker,
    which then was not empty. *)
Lemma step_sell_lots all st txn :
  (default [] (lots st !! ticker txn) = [] /\
   step_sell all st txn =
     mkState (lots st) (lossSales st) (violations st)
             (warnings st ++ [mkWarning (ticker txn) (date txn)])) \/
  (default [] (lots st !! ticker txn) <> [] /\
   warnings (step_sell all st txn) = warnings st /\
   exists l', lots (step_sell all st txn) = <[ticker txn := l']> (lots st)).
Proof.
  unfold step_sell.
  destruct (length _ =? 0)%nat eqn:El.
  - left. apply length_eqb_zero in El. now split.
  - right. split; [intros E; apply length_eqb_zero in E; congruence |].
    destruct (fifoLoop _ _ _ _) as [lots' [[rts cost] sold]].
    destruct (Qeq_bool sold 0); [simpl; eauto |].
    destruct (Qlt_bool _ 0); simpl; eauto.
Qed.

(** A queue exists only for a ticker that was bought. *)
Lemma run_lots_origin all pre T l :
  lots (run all initState pre) !! T = Some l ->
  exists b, In b pre /\ transType b = Buy /\ ticker b = T.
Proof.
  revert l. induction pre as [| x pre IH] using rev_ind; intros l H.
  - discriminate.
  - rewrite run_snoc in H.
    assert (Hold : forall l0, lots (run all initState pre) !! T = Some l0 ->
                   exists b, In b (pre ++ [x]) /\ transType b = Buy /\ ticker b = T).
    { intros l0 Hl0. destruct (IH _ Hl0) as (b & Hb & Hrest).
      exists b. split; [apply in_or_app; now left | exact Hrest]. }
    unfold step in H. destruct (transType x) eqn:Hx.
    + rewrite step_buy_lots in H.
      destruct (decide (ticker x = T)) as [E | E].
      * exists x. split; [apply in_or_app; right; now left | auto].
      * rewrite lookup_insert_ne in H by exact E. now apply (Hold l).
    + destruct (step_sell_lots all (run all initState pre) x)
        as [[_ E] | (Hne & _ & l' & E)]; rewrite E in H.
      * now apply (Hold l).
      * destruct (decide (ticker x = T)) as [Et | Et].
        -- subst T. destruct (lots (run all initState pre) !! ticker x) as [l0 |] eqn:E0.
           ++ now apply (Hold l0).
           ++ now contradiction Hne.
        -- rewrite lookup_insert_ne in H by exact Et. now apply (Hold l).
Qed.





(** Every loss sale is of a ticker bought before. *)
Lemma run_lossSales_bought all pre ls :
  In ls (lossSales (run all initState pre)) ->
  exists b, In b pre /\ transType b = Buy /\ ticker b = ls_ticker ls.
Proof.
  revert ls. induction pre as [| x pre IH] using rev_ind; intros ls H.
  - contradiction.
  - rewrite run_snoc in H.
    assert (Hinc : forall T, (exists b, In b pre /\ transType b = Buy /\ ticker b = T) ->
                   exists b, In b (pre ++ [x]) /\ transType b = Buy /\ ticker b = T).
    { intros T (b & Hb & Hrest). exists b. split; [apply in_or_app; now left | exact Hrest]. }
    unfold step in H. destruct (transType x) eqn:Hx; [now apply Hinc, IH |].
    destruct (step_sell_lots all (run all initState pre) x)
      as [[_ E] | (Hne & _ & _)].
    + rewrite E in H. now apply Hinc, IH.
    + apply step_sell_lossSale_shape in H.
      destruct H as [H | (_ & _ & _ & _ & Ht & _)]; [now apply Hinc, IH |].
      rewrite Ht. apply Hinc.
      destruct (lots (run all initState pre) !! ticker x) as [l0 |] eqn:E0;
        [| now contradiction Hne].
      now apply (run_lots_origin all pre (ticker x) l0).
Qed.

(** For a ticker never bought, each sell leaves one warning. *)
Lemma run_warnings_never_bought all pre T :
  (forall b, In b pre -> transType b = Buy -> ticker b <> T) ->
  List.filter (warnsOf T) (warnings (run all initState pre)) =
  List.map (fun s => mkWarning T (date s)) (List.filter (isSellOf T) pre).
Proof.
  induction pre as [| x pre IH] using rev_ind; intros Hnb.
  - reflexivity.
  - assert (Hnb' : forall b, In b pre -> transType b = Buy -> ticker b <> T).
    { intros b Hb. apply Hnb, in_or_app. now left. }
    specialize (IH Hnb').
    rewrite run_snoc, List.filter_app, List.map_app, <- IH.
    unfold step, isSellOf, isBuy. simpl. destruct (transType x) eqn:Hx.
    + simpl. now rewrite app_nil_r.
    + simpl.
      destruct (step_sell_lots all (run all initState pre) x)
        as [[_ E] | (Hne & Ew & _)].
      * rewrite E. simpl. rewrite List.filter_app. simpl. unfold warnsOf at 2. simpl.
        destruct (String.eqb_spec (ticker x) T) as [<- | Hneq]; reflexivity.
      * rewrite Ew.
        destruct (String.eqb_spec (ticker x) T) as [<- | Hneq];
          [| simpl; now rewrite app_nil_r].
        exfalso.
        destruct (lots (run all initState pre) !! ticker x) as [l0 |] eqn:E0;
          [| now contradiction Hne].
        destruct (run_lots_origin all pre _ _ E0) as (b & Hb & Hbuy & Ht).
        exact (Hnb' b Hb Hbuy Ht).
Qed.

(** ** Sells without lots *)

(** C9. A sell whose ticker has no open lot (no queue, or an empty one)
    leaves the state as it was but for one added warning naming its ticker
    and date, and the traversal goes on.  A sell that finds lots adds no
    warning; a loss sale it records has the matched quantity and proceeds
    [amount * (matchedQuantity / quantity)], whether or not the lots covered
    the order.  In a report, a ticker that was never bought has no loss sale
    and no violation, and one warning for each of its sells. *)
Theorem sell_warning_iff_no_lots (all : list Transaction) (st : State)
    (txn : Transaction) :
  transType txn = Sell ->
  let tickerLots := default [] (lots st !! ticker txn) in
  let matchedQuantity := snd (snd (fifoLoop tickerLots (quantity txn) 0 0)) in
  (tickerLots = [] ->
   step all st txn =
     mkState (lots st) (lossSales st) (violations st)
             (warnings st ++ [mkWarning (ticker txn) (date txn)])) /\
  (tickerLots <> [] ->
   warnings (step all st txn) = warnings st /\
   forall ls, In ls (lossSales (step all st txn)) ->
     In ls (lossSales st) \/
     (ls_quantity ls = matchedQuantity /\
      proceeds ls = (amount txn * (matchedQuantity / quantity txn))%Q)) /\
  (tickerLots = [] <->
   length (warnings (step all st txn)) = S (length (warnings st))) /\
  (forall rest, run all st (txn :: rest) = run all (step all st txn) rest) /\
  (forall rows asOf T,
     (forall b, In b rows -> transType b = Buy -> ticker b <> T) ->
     (forall ls, In ls (r_lossSales (processTransactions rows asOf)) ->
                 ls_ticker ls <> T) /\
     (forall v, In v (r_violations (processTransactions rows asOf)) ->
                v_ticker v <> T) /\
     List.filter (warnsOf T) (r_warnings (processTransactions rows asOf)) =
     List.map (fun s => mkWarning T (date s))
              (List.filter (isSellOf T) (r_transactions (processTransactions rows asOf)))).
Proof.
  intros Hsell tickerLots matchedQuantity.
  assert (Hempty : tickerLots = [] ->
            step all st txn =
            mkState (lots st) (lossSales st) (violations st)
                    (warnings st ++ [mkWarning (ticker txn) (date txn)])).
  { intros Hnil. unfold step. rewrite Hsell.
    destruct (step_sell_lots all st txn) as [[_ E] | (Hne & _)];
      [exact E | contradiction]. }
  assert (Hfull : tickerLots <> [] -> warnings (step all st txn) = warnings st).
  { intros Hne. unfold step. rewrite Hsell.
    destruct (step_sell_lots all st txn) as [[Hnil _] | (_ & E & _)];
      [contradiction | exact E]. }
  split; [exact Hempty |]. split; [| split; [| split]].
  - intros Hne. split; [now apply Hfull |].
    intros ls. unfold step. rewrite Hsell. unfold step_sell. fold tickerLots.
    subst matchedQuantity.
    destruct (length tickerLots =? 0)%nat; [now left |].
    destruct (fifoLoop tickerLots (quantity txn) 0 0) as [lots' [[rts cost] sold]].
    simpl snd.
    destruct (Qeq_bool sold 0); [now left |].
    destruct (Qlt_bool _ 0); [| now left].
    cbn [lossSales]. intros H. apply in_app_or in H.
    destruct H as [H | [<- | []]]; [now left | right; now split].
  - split.
    + intros Hnil. rewrite (Hempty Hnil). simpl. rewrite List.length_app. simpl. lia.
    + intros Hlen. destruct tickerLots as [| l0 tl] eqn:Etl; [reflexivity |].
      exfalso. rewrite Hfull in Hlen by discriminate. lia.
  - reflexivity.
  - intros rows asOf T Hnb.
    assert (Hnb' : forall b, In b (Array_sort compareTxn rows) ->
                             transType b = Buy -> ticker b <> T).
    { intros b Hb. apply Hnb. now apply (Array_sort_In compareTxn). }
    split; [| split].
    + unfold processTransactions. simpl. intros ls Hls Et.
      destruct (run_lossSales_bought _ _ _ Hls) as (b & Hb & Hbuy & Hbt).
      apply (Hnb' b Hb Hbuy). congruence.
    + intros v Hv Et.
      destruct (report_violations_sound rows asOf v Hv)
        as (_ & _ & _ & _ & _ & b & Hb & Hbuy & Hbt & _).
      apply (Hnb' b Hb Hbuy). congruence.
    + unfold processTransactions. simpl.
      now apply run_warnings_never_bought.
Qed.

(** ** Chronological order *)

Lemma txn_le_chronological a b : txn_le a b <-> chronological a b.
Proof.
  unfold txn_le, txn_key, isSell, chronological.
  destruct (transType a), (transType b); split; intros H.
  all: try (destruct H as [H | [H H']]; try lia; specialize (H' eq_refl); discriminate).
  all: destruct (Z.lt_total (date a) (date b)) as [Hl | [He | Hg]];
    [left; exact Hl | right; split; [exact He |] | lia].
  all: intros Hx; try discriminate Hx; try reflexivity; exfalso; lia.
Qed.



Lemma Permutation_filter_length {A} (f : A -> bool) l l' :
  Permutation l l' -> length (List.filter f l) = length (List.filter f l').
Proof.
  induction 1 as [| x l l' _ IH | x y l | l l' l'' _ IH1 _ IH2]; simpl.
  - reflexivity.
  - destruct (f x); simpl; congruence.
  - destruct (f x), (f y); reflexivity.
  - congruence.
Qed.





(** ** FIFO matching *)

Lemma sumQ_cons x l : sumQ (x :: l) = (x + sumQ l)%Q.
Proof. reflexivity. Qed.

Lemma spec_costBasis_cons lot rest c cs :
  spec_costBasis (lot :: rest) (c :: cs) = (c * lot_price lot + spec_costBasis rest cs)%Q.
Proof. reflexivity. Qed.

(** With nothing needed, nothing is consumed. *)
Lemma spec_consume_zero queue need :
  Forall (fun l => (0 < remaining l)%Q) queue -> (need == 0)%Q ->
  (spec_costBasis queue (spec_consume queue need) == 0)%Q /\
  (sumQ (spec_consume queue need) == 0)%Q /\
  Forall2 lot_consumed queue (combine queue (spec_consume queue need)).
Proof.
  intros Hq. revert need. induction Hq as [| lot rest Hlot _ IH]; intros need Hn.
  - simpl. repeat split; try reflexivity; try constructor.
  - assert (Hmin : (Qmin (remaining lot) need == 0)%Q).
    { destruct (Q.min_spec (remaining lot) need) as [[H1 H2] | [H1 H2]]; lra. }
    assert (Hn' : (need - Qmin (remaining lot) need == 0)%Q) by lra.
    destruct (IH _ Hn') as (H1 & H2 & H3).
    cbn [spec_consume]. rewrite spec_costBasis_cons, sumQ_cons.
    split; [| split].
    + rewrite H1, Hmin. ring.
    + rewrite H2, Hmin. ring.
    + cbn [combine]. constructor; [| exact H3].
      unfold lot_consumed. cbn [fst snd]. repeat split; auto. rewrite Hmin. ring.
Qed.

(** The loop of the source computes what the specification describes. *)
Lemma fifoLoop_spec queue need c0 s0 :
  Forall (fun l => (0 < remaining l)%Q) queue -> (0 <= need)%Q ->
  let r := fifoLoop queue need c0 s0 in
  let consumed := spec_consume queue need in
  (snd (fst (snd r)) == c0 + spec_costBasis queue consumed)%Q /\
  (snd (snd r) == s0 + sumQ consumed)%Q /\
  (fst (fst (snd r)) == need - sumQ consumed)%Q /\
  Forall2 lot_consumed (fst r) (combine queue consumed).
Proof.
  intros Hq. revert need c0 s0.
  induction Hq as [| lot rest Hlot Hrest IH]; intros need c0 s0 Hn.
  - cbn. repeat split; try ring. constructor.
  - cbv zeta. simpl fifoLoop.
    destruct (Qle_bool need 0) eqn:En.
    + apply Qle_bool_iff in En. assert (Hz : (need == 0)%Q) by lra.
      destruct (spec_consume_zero (lot :: rest) need) as (H1 & H2 & H3);
        [now constructor | exact Hz |].
      simpl fst; simpl snd. rewrite H1, H2. repeat split; try ring. exact H3.
    + destruct (Qle_bool (remaining lot) 0) eqn:El.
      { apply Qle_bool_iff in El. lra. }
      set (take := Qmin (remaining lot) need).
      assert (Hn' : (0 <= need - take)%Q).
      { unfold take. destruct (Q.min_spec (remaining lot) need) as [[H1 H2] | [H1 H2]]; lra. }
      specialize (IH (need - take)%Q (c0 + take * lot_price lot)%Q (s0 + take)%Q Hn').
      cbv zeta in IH.
      destruct (fifoLoop rest (need - take) (c0 + take * lot_price lot) (s0 + take))
        as [rest' [[rts cost] sold]].
      simpl fst in *; simpl snd in *.
      destruct IH as (H1 & H2 & H3 & H4).
      cbn [spec_consume]. fold take. rewrite spec_costBasis_cons, sumQ_cons.
      split; [rewrite H1; ring |]. split; [rewrite H2; ring |].
      split; [rewrite H3; ring |].
      cbn [combine]. constructor; [| exact H4].
      unfold lot_consumed. cbn [fst snd lot_date lot_quantity lot_price remaining].
      repeat split; auto; reflexivity.
Qed.



Lemma spec_consume_nonneg queue need :
  Forall (fun l => (0 < remaining l)%Q) queue -> (0 <= need)%Q ->
  (0 <= sumQ (spec_consume queue need))%Q.
Proof.
  intros Hq. revert need. induction Hq as [| lot rest Hlot _ IH]; intros need Hn.
  - simpl. lra.
  - cbn [spec_consume]. rewrite sumQ_cons.
    destruct (Q.min_spec (remaining lot) need) as [[H1 H2] | [H1 H2]].
    + assert (Hn' : (0 <= need - Qmin (remaining lot) need)%Q) by lra.
      specialize (IH _ Hn'). lra.
    + assert (Hn' : (0 <= need - Qmin (remaining lot) need)%Q) by lra.
      specialize (IH _ Hn'). lra.
Qed.

(** An order of positive quantity against open lots matches something. *)
Lemma fifoLoop_matched_pos queue q :
  queue <> [] -> Forall (fun l => (0 < remaining l)%Q) queue -> (0 < q)%Q ->
  (0 < snd (snd (fifoLoop queue q 0 0)))%Q.
Proof.
  intros Hne Hq Hpos.
  destruct (fifoLoop_spec queue q 0 0 Hq) as (_ & H2 & _); [lra |].
  rewrite H2. clear H2.
  destruct Hq as [| lot rest Hlot Hrest]; [congruence |].
  cbn [spec_consume]. rewrite sumQ_cons.
  destruct (Q.min_spec (remaining lot) q) as [[H1 H2] | [H1 H2]].
  - assert (Hn' : (0 <= q - Qmin (remaining lot) q)%Q) by lra.
    pose proof (spec_consume_nonneg rest _ Hrest Hn'). lra.
  - assert (Hn' : (0 <= q - Qmin (remaining lot) q)%Q) by lra.
    pose proof (spec_consume_nonneg rest _ Hrest Hn'). lra.
Qed.

(** The queues of the traversal hold open lots only, when every quantity of
    the input is positive (line 120 of the source drops the other rows). *)
Lemma run_lots_open all pre :
  Forall (fun t => (0 < quantity t)%Q) pre ->
  forall T l, lots (run all initState pre) !! T = Some l ->
              Forall (fun lot => (0 < remaining lot)%Q) l.
Proof.
  induction pre as [| x pre IH] using rev_ind; intros Hpos T l H.
  - discriminate.
  - apply Forall_app in Hpos. destruct Hpos as [Hpre Hx].
    apply Forall_inv in Hx. specialize (IH Hpre).
    rewrite run_snoc in H. set (st := run all initState pre) in *.
    assert (Hdef : Forall (fun lot => (0 < remaining lot)%Q)
                          (default [] (lots st !! ticker x))).
    { destruct (lots st !! ticker x) as [l0 |] eqn:E0; simpl;
        [now apply (IH (ticker x) l0) | constructor]. }
    unfold step in H. destruct (transType x).
    + rewrite step_buy_lots in H.
      destruct (decide (ticker x = T)) as [E | E].
      * rewrite <- E, lookup_insert_eq in H. injection H as <-.
        apply Forall_app. split; [exact Hdef | now repeat constructor].
      * rewrite lookup_insert_ne in H by exact E. now apply (IH T).
    + revert H. unfold step_sell.
      destruct (length _ =? 0)%nat eqn:El; [now apply (IH T) |].
      assert (Hne : default [] (lots st !! ticker x) <> []).
      { intros E. apply length_eqb_zero in E. congruence. }
      pose proof (fifoLoop_matched_pos _ _ Hne Hdef Hx) as Hsold.
      destruct (fifoLoop _ _ _ _) as [lots' [[rts cost] sold]].
      simpl in Hsold. rewrite (Qeq_bool_pos_false _ Hsold).
      assert (Hclean : Forall (fun lot => (0 < remaining lot)%Q)
                (List.filter (fun l0 => Qlt_bool (1 # 10000) (remaining l0)) lots')).
      { rewrite List.Forall_forall. intros lot Hlot. apply filter_In in Hlot.
        destruct Hlot as [_ Hlt]. apply Qlt_bool_iff in Hlt.
        assert ((0 < 1 # 10000)%Q) by reflexivity. lra. }
      destruct (Qlt_bool _ 0); cbn [lots]; intros H;
        (destruct (decide (ticker x = T)) as [E | E];
         [rewrite <- E, lookup_insert_eq in H; injection H as <-; exact Hclean
         | rewrite lookup_insert_ne in H by exact E; now apply (IH T)]).
Qed.


(** ** Loss-sale detection *)

(** C6. For a sell whose queue is not empty and whose matched quantity is
    positive, the step records a loss sale exactly when
    [gainLoss = proceeds - matchedCostBasis] is negative; the record then has
    [lossAmount = - gainLoss] and [quantity = matchedQuantity].  With zero or
    positive gain, with an empty queue, or with nothing matched, the loss
    sales and the violations are left as they were.  Against open lots an
    order of positive quantity always matches something.  Every loss sale of
    a report stems from a sell of the input and has a positive loss equal to
    cost basis minus proceeds. *)
Theorem loss_sale_iff_negative_gain (all : list Transaction) (st : State)
    (txn : Transaction) :
  transType txn = Sell ->
  let tickerLots := default [] (lots st !! ticker txn) in
  let matchedCostBasis := snd (fst (snd (fifoLoop tickerLots (quantity txn) 0 0))) in
  let matchedQuantity := snd (snd (fifoLoop tickerLots (quantity txn) 0 0)) in
  let matchedProceeds := (amount txn * (matchedQuantity / quantity txn))%Q in
  let gainLoss := (matchedProceeds - matchedCostBasis)%Q in
  (tickerLots <> [] -> (0 < matchedQuantity)%Q -> (gainLoss < 0)%Q ->
   lossSales (step all st txn) =
     lossSales st ++ [mkLossSale (ticker txn) (date txn) matchedQuantity (price txn)
                                 matchedProceeds matchedCostBasis (- gainLoss)%Q]) /\
  (tickerLots <> [] -> (0 < matchedQuantity)%Q -> ~ (gainLoss < 0)%Q ->
   lossSales (step all st txn) = lossSales st /\
   violations (step all st txn) = violations st) /\
  (tickerLots = [] \/ (matchedQuantity == 0)%Q ->
   lossSales (step all st txn) = lossSales st /\
   violations (step all st txn) = violations st) /\
  (tickerLots <> [] -> Forall (fun lot => (0 < remaining lot)%Q) tickerLots ->
   (0 < quantity txn)%Q -> (0 < matchedQuantity)%Q) /\
  (forall rows asOf ls,
     In ls (r_lossSales (processTransactions rows asOf)) ->
     (0 < costBasis ls - proceeds ls)%Q /\
     (lossAmount ls == costBasis ls - proceeds ls)%Q /\
     ~ (ls_quantity ls == 0)%Q /\
     exists s, In s rows /\ transType s = Sell /\
               ticker s = ls_ticker ls /\ date s = saleDate ls).
Proof.
  intros Hsell tickerLots matchedCostBasis matchedQuantity matchedProceeds gainLoss.
  assert (Hreport : forall rows asOf ls,
            In ls (r_lossSales (processTransactions rows asOf)) ->
            (0 < costBasis ls - proceeds ls)%Q /\
            (lossAmount ls == costBasis ls - proceeds ls)%Q /\
            ~ (ls_quantity ls == 0)%Q /\
            exists s, In s rows /\ transType s = Sell /\
                      ticker s = ls_ticker ls /\ date s = saleDate ls).
  { intros rows asOf ls Hls. unfold processTransactions in Hls. simpl in Hls.
    destruct (run_lossSales_shape _ _ _ Hls)
      as (H1 & H2 & H3 & s & Hs & Hsell' & Ht & Hd & _).
    split; [rewrite <- H2; exact H1 |]. repeat split; auto.
    exists s. apply (proj1 (Array_sort_In compareTxn rows s)) in Hs. auto. }
  assert (Hmatched : tickerLots <> [] ->
            Forall (fun lot => (0 < remaining lot)%Q) tickerLots ->
            (0 < quantity txn)%Q -> (0 < matchedQuantity)%Q).
  { intros Hne Hopen Hq. now apply fifoLoop_matched_pos. }
  revert Hreport Hmatched.
  unfold step. rewrite Hsell. unfold step_sell. fold tickerLots.
  subst gainLoss matchedProceeds matchedCostBasis matchedQuantity.
  destruct (fifoLoop tickerLots (quantity txn) 0 0) as [lots' [[rts cost] sold]].
  simpl fst; simpl snd. intros Hreport Hmatched.
  split; [| split; [| split; [| split; [exact Hmatched | exact Hreport]]]].
  - intros Hne Hpos Hneg.
    destruct (length tickerLots =? 0)%nat eqn:El;
      [apply length_eqb_zero in El; contradiction |].
    rewrite (Qeq_bool_pos_false _ Hpos).
    rewrite (proj2 (Qlt_bool_iff _ _) Hneg). cbn [lossSales].
    now rewrite (Qabs_neg_opp _ Hneg).
  - intros Hne Hpos Hnneg.
    destruct (length tickerLots =? 0)%nat eqn:El;
      [apply length_eqb_zero in El; contradiction |].
    rewrite (Qeq_bool_pos_false _ Hpos).
    rewrite (proj2 (Qlt_bool_false _ _) Hnneg). now split.
  - intros [Hnil | Hzero].
    + rewrite (proj2 (length_eqb_zero tickerLots) Hnil). now split.
    + destruct (length tickerLots =? 0)%nat; [now split |].
      rewrite (proj2 (Qeq_bool_iff _ _) Hzero). now split.
Qed.

(** * Further properties of the engine *)

(** ** Ties of the sort *)

Lemma inSlot_key D buy t :
  inSlot D buy t = true <-> txn_key t = 2 * D + (if buy then 0 else 1).
Proof.
  unfold inSlot, txn_key, isSell, isBuy.
  rewrite andb_true_iff, Z.eqb_eq.
  destruct (transType t), buy; simpl; intuition (try discriminate; lia).
Qed.

Lemma sortInsert_inSlot D buy x l :
  List.filter (inSlot D buy) (sortInsert compareTxn x l) =
  List.filter (inSlot D buy) (x :: l).
Proof.
  induction l as [| y l IH]; [reflexivity |].
  cbn [sortInsert]. destruct (Z.ltb_spec 0 (compareTxn x y)) as [Hlt | Hge];
    [| reflexivity].
  apply compareTxn_pos in Hlt.
  cbn [List.filter]. rewrite IH. cbn [List.filter].
  destruct (inSlot D buy y) eqn:Ey, (inSlot D buy x) eqn:Ex; try reflexivity.
  apply inSlot_key in Ey, Ex. lia.
Qed.

(** X1. The sort is stable and idempotent as the engine uses it: the
    transactions of one date and kind keep the order the input gave them, and
    an input already in processing order is processed as it stands, so that
    a report rebuilt from its own transaction list is the same report. *)
Theorem sort_keeps_ties (rows : list Transaction) (asOf : Z) :
  (forall D buy,
     List.filter (inSlot D buy) (r_transactions (processTransactions rows asOf)) =
     List.filter (inSlot D buy) rows) /\
  processTransactions (r_transactions (processTransactions rows asOf)) asOf =
  processTransactions rows asOf.
Proof.
  split.
  - intros D buy. unfold processTransactions. cbn [r_transactions].
    induction rows as [| x rows IH]; [reflexivity |].
    cbn [Array_sort fold_right]. fold (Array_sort compareTxn rows).
    rewrite sortInsert_inSlot. cbn [List.filter]. now rewrite IH.
  - unfold processTransactions at 2. cbn [r_transactions].
    unfold processTransactions.
    now rewrite (Array_sort_sorted_id _ (Array_sort_sorted rows)).
Qed.

(** ** The summary *)

Lemma filter_split_length {A} (f : A -> bool) l :
  (length (List.filter f l) + length (List.filter (fun x => negb (f x)) l))%nat = length l.
Proof.
  induction l as [| x l IH]; [reflexivity |].
  simpl. destruct (f x); simpl; lia.
Qed.

Lemma size_list_to_set_le (l : list string) :
  (size (list_to_set l : gset string) <= length l)%nat.
Proof.
  induction l as [| x l IH].
  - rewrite list_to_set_nil, size_empty. simpl. lia.
  - rewrite list_to_set_cons, size_union_alt, size_singleton. simpl.
    assert (Hsub : (list_to_set l ∖ {[x]} : gset string) ⊆ list_to_set l)
      by now apply subseteq_difference_l.
    apply subseteq_size in Hsub. lia.
Qed.

Lemma sorted_head_min t0 l t :
  StronglySorted txn_le (t0 :: l) -> In t (t0 :: l) -> date t0 <= date t.
Proof.
  intros Hs [<- | Ht]; [lia |].
  inversion Hs as [| ? ? _ Hall]; subst.
  rewrite List.Forall_forall in Hall. now apply txn_le_date, Hall.
Qed.

Lemma sorted_last_max l d t :
  StronglySorted txn_le l -> In t l -> date t <= date (List.last l d).
Proof.
  intros Hs. revert t.
  induction Hs as [| x l Hs IH Hx]; intros t Ht; [contradiction |].
  destruct l as [| y l'].
  - destruct Ht as [<- | []]. simpl. lia.
  - change (List.last (x :: y :: l') d) with (List.last (y :: l') d).
    destruct Ht as [<- | Ht]; [| now apply IH].
    rewrite List.Forall_forall in Hx.
    pose proof (txn_le_date _ _ (Hx y (or_introl eq_refl))).
    pose proof (IH y (or_introl eq_refl)). lia.
Qed.

Lemma last_In {A} (l : list A) (d : A) : l <> [] -> In (List.last l d) l.
Proof.
  induction l as [| x l IH]; [congruence |]. intros _.
  destruct l as [| y l']; [now left |].
  right. apply IH. discriminate.
Qed.

Lemma tickerCount_distinct (transactions : list Transaction) :
  exists tickers,
    List.NoDup tickers /\
    length tickers =
      size (list_to_set (List.map ticker transactions) : gset string) /\
    forall k, In k tickers <-> exists t, In t transactions /\ ticker t = k.
Proof.
  exists (elements (list_to_set (List.map ticker transactions) : gset string)).
  split; [apply NoDup_ListNoDup, NoDup_elements |].
  split; [reflexivity |].
  intros k. rewrite <- list_elem_of_In, elem_of_elements, elem_of_list_to_set.
  rewrite list_elem_of_In, in_map_iff. split; intros (t & H1 & H2); exists t; auto.
Qed.

(** X2. The summary of a report counts the rows it was given: the total is
    the number of input transactions, the buys and the sells are the numbers
    of input transactions of each kind, and the tickers are the number of
    distinct tickers of the input, at least one for a non-empty input and at
    most the total.  The date range is absent exactly for an empty input;
    otherwise its two ends are the earliest and the latest date of the
    input. *)
Theorem summary_counts (rows : list Transaction) (asOf : Z) :
  let s := r_summary (processTransactions rows asOf) in
  total s = length rows /\
  buys s = length (List.filter (fun t => match transType t with
                                         | Buy => true
                                         | Sell => false
                                         end) rows) /\
  sells s = length (List.filter (fun t => match transType t with
                                          | Buy => false
                                          | Sell => true
                                          end) rows) /\
  (exists tickers,
     List.NoDup tickers /\ length tickers = tickerCount s /\
     forall k, In k tickers <-> exists t, In t rows /\ ticker t = k) /\
  (buys s + sells s)%nat = total s /\
  (tickerCount s <= total s)%nat /\
  (rows <> [] -> (1 <= tickerCount s)%nat) /\
  (dateRange s = None <-> rows = []) /\
  (forall a b, dateRange s = Some (a, b) ->
     (forall t, In t rows -> a <= date t <= b) /\
     (exists t, In t rows /\ date t = a) /\
     (exists t, In t rows /\ date t = b)).
Proof.
  unfold processTransactions. cbn [r_summary]. unfold summarize.
  set (all := Array_sort compareTxn rows).
  pose proof (Array_sort_sorted rows) as Hs. fold all in Hs.
  pose proof (Array_sort_perm compareTxn rows) as Hp. fold all in Hp.
  cbn [total buys sells tickerCount dateRange].
  assert (Hlen : length all = length rows) by now apply Permutation_length.
  split; [exact Hlen |].
  split.
  { rewrite (Permutation_filter_length isBuy all rows Hp). reflexivity. }
  split.
  { rewrite (Permutation_filter_length (fun t => negb (isBuy t)) all rows Hp).
    f_equal. apply List.filter_ext. intros t. unfold isBuy.
    now destruct (transType t). }
  split.
  { destruct (tickerCount_distinct all) as (tickers & Hnd & Hl & Hk).
    exists tickers. split; [exact Hnd |]. split; [exact Hl |].
    intros k. rewrite Hk. split; intros (t & Ht & E); exists t; split; auto;
      now apply (Array_sort_In compareTxn rows t). }
  split; [apply filter_split_length |].
  split; [rewrite <- (List.length_map ticker all); apply size_list_to_set_le |].
  split.
  { intros Hne. destruct all as [| t0 all'] eqn:Eall.
    - destruct rows; [congruence | discriminate].
    - cbn [List.map]. rewrite list_to_set_cons, size_union_alt, size_singleton. lia. }
  split.
  { destruct all as [| t0 all'] eqn:Eall.
    - split; [intros _ | reflexivity]. destruct rows; [reflexivity | discriminate].
    - split; [discriminate |]. intros ->. discriminate. }
  intros a b Hr. destruct all as [| t0 all'] eqn:Eall; [discriminate |].
  injection Hr as <- <-.
  assert (Hin : forall t, In t rows <-> In t (t0 :: all')).
  { intros t. rewrite <- Eall. symmetry. apply Array_sort_In. }
  split; [| split].
  - intros t Ht. apply Hin in Ht. split.
    + now apply (sorted_head_min t0 all').
    + exact (sorted_last_max (t0 :: all') t0 t Hs Ht).
  - exists t0. split; [apply Hin; now left | reflexivity].
  - exists (List.last (t0 :: all') t0). split; [| reflexivity].
    apply Hin, last_In. discriminate.
Qed.

(** ** What the FIFO loop conserves *)

Lemma sumRemaining_cons lot rest :
  sumRemaining (lot :: rest) = (remaining lot + sumRemaining rest)%Q.
Proof. reflexivity. Qed.

Lemma lotShrunk_refl l : lotShrunk l l.
Proof. unfold lotShrunk. repeat split; auto. apply Qle_refl. Qed.

Lemma Forall2_lotShrunk_refl queue : Forall2 lotShrunk queue queue.
Proof. induction queue; constructor; auto using lotShrunk_refl. Qed.

(** Shares leave the queue only into the matched quantity, and the order is
    split into what was matched and what is still to sell. *)
Lemma fifoLoop_conserve queue need c0 s0 :
  let r := fifoLoop queue need c0 s0 in
  (sumRemaining (fst r) + snd (snd r) == sumRemaining queue + s0)%Q /\
  (fst (fst (snd r)) + snd (snd r) == need + s0)%Q /\
  (s0 <= snd (snd r))%Q /\
  Forall2 lotShrunk queue (fst r).
Proof.
  revert need c0 s0. induction queue as [| lot rest IH]; intros need c0 s0; cbv zeta.
  - cbn. repeat split; try ring; try apply Qle_refl. constructor.
  - simpl fifoLoop.
    destruct (Qle_bool need 0) eqn:En.
    { cbn [fst snd]. repeat split; try ring; try apply Qle_refl.
      apply Forall2_lotShrunk_refl. }
    destruct (Qle_bool (remaining lot) 0) eqn:El.
    { specialize (IH need c0 s0). cbv zeta in IH.
      destruct (fifoLoop rest need c0 s0) as [rest' [[rts cost] sold]].
      cbn [fst snd] in *. destruct IH as (H1 & H2 & H3 & H4).
      rewrite !sumRemaining_cons.
      split; [rewrite <- Qplus_assoc, H1; ring |]. split; [exact H2 |].
      split; [exact H3 |]. constructor; [apply lotShrunk_refl | exact H4]. }
    assert (Hneed : (0 < need)%Q).
    { apply Qnot_le_lt. intros H. apply Qle_bool_iff in H. congruence. }
    assert (Hrem : (0 < remaining lot)%Q).
    { apply Qnot_le_lt. intros H. apply Qle_bool_iff in H. congruence. }
    set (take := Qmin (remaining lot) need).
    assert (Htake : (0 < take)%Q).
    { unfold take. destruct (Q.min_spec (remaining lot) need) as [[_ E] | [_ E]];
        rewrite E; assumption. }
    specialize (IH (need - take)%Q (c0 + take * lot_price lot)%Q (s0 + take)%Q).
    cbv zeta in IH.
    destruct (fifoLoop rest (need - take) (c0 + take * lot_price lot) (s0 + take))
      as [rest' [[rts cost] sold]].
    cbn [fst snd] in *. destruct IH as (H1 & H2 & H3 & H4).
    rewrite !sumRemaining_cons. cbn [remaining].
    split; [lra |]. split; [lra |]. split; [lra |].
    constructor; [| exact H4].
    unfold lotShrunk. cbn [lot_date lot_quantity lot_price remaining].
    repeat split; auto. lra.
Qed.

(** What is consumed is the order or all that is open, whichever is less. *)
Lemma spec_consume_sum queue need :
  Forall (fun l => (0 < remaining l)%Q) queue -> (0 <= need)%Q ->
  (sumQ (spec_consume queue need) == Qmin need (sumRemaining queue))%Q /\
  (0 <= sumRemaining queue)%Q.
Proof.
  intros Hq. revert need. induction Hq as [| lot rest Hlot _ IH]; intros need Hn.
  - cbn. split; [| lra].
    destruct (Q.min_spec need 0) as [[H1 H2] | [H1 H2]]; lra.
  - cbn [spec_consume]. rewrite sumQ_cons, sumRemaining_cons.
    assert (Hn' : (0 <= need - Qmin (remaining lot) need)%Q).
    { destruct (Q.min_spec (remaining lot) need) as [[H1 H2] | [H1 H2]]; lra. }
    destruct (IH _ Hn') as [IH1 IH2]. split; [| lra].
    rewrite IH1.
    destruct (Q.min_spec (remaining lot) need) as [[H1 H2] | [H1 H2]];
      destruct (Q.min_spec (need - Qmin (remaining lot) need) (sumRemaining rest))
        as [[H3 H4] | [H3 H4]];
      destruct (Q.min_spec need (remaining lot + sumRemaining rest))
        as [[H5 H6] | [H5 H6]]; lra.
Qed.

(** X3. Whatever the queue and the order, the FIFO loop conserves shares:
    what the lots lose is what was matched, matched plus still-to-sell is the
    order, and a lot keeps its date, quantity and price with no more shares
    open than before.  On open lots and an order that is not negative the
    matched quantity is the smaller of the order and the shares open. *)
Theorem fifo_conservation (queue : list Lot) (q : Q) :
  let lots' := fst (fifoLoop queue q 0 0) in
  let remainingToSell := fst (fst (snd (fifoLoop queue q 0 0))) in
  let matchedQuantity := snd (snd (fifoLoop queue q 0 0)) in
  (sumRemaining lots' + matchedQuantity == sumRemaining queue)%Q /\
  (remainingToSell + matchedQuantity == q)%Q /\
  Forall2 lotShrunk queue lots' /\
  (Forall (fun l => (0 < remaining l)%Q) queue -> (0 <= q)%Q ->
   (matchedQuantity == Qmin q (sumRemaining queue))%Q).
Proof.
  cbv zeta.
  destruct (fifoLoop_conserve queue q 0 0) as (H1 & H2 & _ & H4).
  split; [rewrite H1; ring |]. split; [rewrite H2; ring |].
  split; [exact H4 |].
  intros Hq Hn.
  destruct (fifoLoop_spec queue q 0 0 Hq Hn) as (_ & Hs & _).
  rewrite Hs, (proj1 (spec_consume_sum queue q Hq Hn)). ring.
Qed.

(** ** The lots of the traversal *)

Lemma Forall2_In_r {A B} (R : A -> B -> Prop) l l' b :
  Forall2 R l l' -> In b l' -> exists a, In a l /\ R a b.
Proof.
  induction 1 as [| x y l l' Hxy _ IH]; intros Hb; [contradiction |].
  destruct Hb as [<- | Hb].
  - exists x. split; [now left | exact Hxy].
  - destruct (IH Hb) as (a & Ha & HR). exists a. split; [now right | exact HR].
Qed.

(** The queue a sell writes back holds lots of the queue it found, each
    with no more shares open than before. *)
Lemma step_sell_lots_shrunk all st txn :
  lots (step_sell all st txn) = lots st \/
  exists l', lots (step_sell all st txn) = <[ticker txn := l']> (lots st) /\
             forall lot', In lot' l' ->
               exists lot, In lot (default [] (lots st !! ticker txn)) /\
                           lotShrunk lot lot'.
Proof.
  unfold step_sell.
  destruct (length _ =? 0)%nat; [now left |].
  pose proof (fifoLoop_conserve (default [] (lots st !! ticker txn)) (quantity txn) 0 0)
    as (_ & _ & _ & Hrel). cbv zeta in Hrel.
  destruct (fifoLoop _ _ _ _) as [lots' [[rts cost] sold]]. cbn [fst] in Hrel.
  assert (Hall : forall lot', In lot' lots' ->
            exists lot, In lot (default [] (lots st !! ticker txn)) /\ lotShrunk lot lot').
  { intros lot' Hin. exact (Forall2_In_r _ _ _ _ Hrel Hin). }
  assert (Hclean : forall lot',
            In lot' (List.filter (fun l => Qlt_bool (1 # 10000) (remaining l)) lots') ->
            exists lot, In lot (default [] (lots st !! ticker txn)) /\ lotShrunk lot lot').
  { intros lot' Hin. apply filter_In in Hin. now apply Hall. }
  right. destruct (Qeq_bool sold 0); [eexists; split; [reflexivity | exact Hall] |].
  destruct (Qlt_bool _ 0); eexists; (split; [reflexivity | exact Hclean]).
Qed.

(** Every lot of every queue stems from a buy of the queue's ticker and has
    no more shares open than were bought. *)
Lemma run_lots_provenance all pre T queue lot :
  lots (run all initState pre) !! T = Some queue -> In lot queue ->
  (remaining lot <= lot_quantity lot)%Q /\
  exists b, In b pre /\ transType b = Buy /\ ticker b = T /\
            date b = lot_date lot /\ price b = lot_price lot /\
            quantity b = lot_quantity lot.
Proof.
  revert T queue lot. induction pre as [| x pre IH] using rev_ind; intros T queue lot H Hin.
  - discriminate.
  - rewrite run_snoc in H. set (st := run all initState pre) in *.
    assert (Hold : forall T0 q0 l0, lots st !! T0 = Some q0 -> In l0 q0 ->
              (remaining l0 <= lot_quantity l0)%Q /\
              exists b, In b (pre ++ [x]) /\ transType b = Buy /\ ticker b = T0 /\
                        date b = lot_date l0 /\ price b = lot_price l0 /\
                        quantity b = lot_quantity l0).
    { intros T0 q0 l0 Hq Hl. destruct (IH T0 q0 l0 Hq Hl) as (H1 & b & Hb & Hrest).
      split; [exact H1 |]. exists b. split; [apply in_or_app; now left | exact Hrest]. }
    unfold step in H. destruct (transType x) eqn:Hx.
    + rewrite step_buy_lots in H.
      destruct (decide (ticker x = T)) as [E | E].
      * rewrite <- E, lookup_insert_eq in H. injection H as <-.
        apply in_app_or in Hin. destruct Hin as [Hin | [<- | []]].
        -- destruct (lots st !! ticker x) as [q0 |] eqn:E0; [| contradiction].
           rewrite <- E. now apply (Hold (ticker x) q0).
        -- cbn. split; [apply Qle_refl |].
           exists x. split; [apply in_or_app; right; now left | auto].
      * rewrite lookup_insert_ne in H by exact E. now apply (Hold T queue).
    + destruct (step_sell_lots_shrunk all st x) as [E | (l' & E & Hl')]; rewrite E in H.
      * now apply (Hold T queue).
      * destruct (decide (ticker x = T)) as [Et | Et].
        -- rewrite <- Et, lookup_insert_eq in H. injection H as <-.
           destruct (Hl' lot Hin) as (lot0 & Hin0 & Hd & Hq & Hp & Hr).
           destruct (lots st !! ticker x) as [q0 |] eqn:E0; [| contradiction].
           destruct (Hold (ticker x) q0 lot0 E0 Hin0) as (H1 & b & Hb & Hrest).
           rewrite Hd, Hq, Hp, <- Et. split; [lra |]. now exists b.
        -- rewrite lookup_insert_ne in H by exact Et. now apply (Hold T queue).
Qed.

(** X4. At every point of the traversal, every lot of every queue stems from
    a buy of the queue's ticker processed before, with that buy's date, price
    and quantity, and has no more shares open than were bought; when the
    input quantities are positive every lot in a queue has shares open. *)
Theorem lots_invariant (rows : list Transaction) (pre post : list Transaction)
    (T : string) (queue : list Lot) (lot : Lot) :
  Array_sort compareTxn rows = pre ++ post ->
  lots (run (Array_sort compareTxn rows) initState pre) !! T = Some queue ->
  In lot queue ->
  (remaining lot <= lot_quantity lot)%Q /\
  (exists b, In b rows /\ In b pre /\ transType b = Buy /\ ticker b = T /\
             date b = lot_date lot /\ price b = lot_price lot /\
             quantity b = lot_quantity lot) /\
  (Forall (fun t => (0 < quantity t)%Q) rows -> (0 < remaining lot)%Q).
Proof.
  intros E Hq Hin.
  destruct (run_lots_provenance _ _ _ _ _ Hq Hin) as (H1 & b & Hb & Hrest).
  assert (Hsub : forall t, In t pre -> In t rows).
  { intros t Ht. apply (Array_sort_In compareTxn). rewrite E.
    apply in_or_app. now left. }
  split; [exact H1 |]. split; [exists b; auto |].
  intros Hpos.
  assert (Hpre : Forall (fun t => (0 < quantity t)%Q) pre).
  { rewrite List.Forall_forall in Hpos |- *. auto. }
  pose proof (run_lots_open _ _ Hpre T queue Hq) as Hopen.
  rewrite List.Forall_forall in Hopen. now apply Hopen.
Qed.

(** ** Counting what sells leave behind *)

Lemma step_count all st x :
  (length (lossSales (step all st x)) + length (warnings (step all st x)) <=
   length (lossSales st) + length (warnings st) + (if isBuy x then 0 else 1))%nat.
Proof.
  unfold step, isBuy. destruct (transType x); [simpl; lia |].
  destruct (step_sell_lots all st x) as [[_ E] | (_ & Ew & _)].
  - rewrite E. cbn [lossSales warnings]. rewrite List.length_app. simpl. lia.
  - rewrite Ew.
    destruct (step_sell_cases all st x) as [[El _] | (ls & gl & El & _)]; rewrite El;
      [| rewrite List.length_app; simpl]; lia.
Qed.

Lemma run_count all pre :
  (length (lossSales (run all initState pre)) + length (warnings (run all initState pre)) <=
   length (List.filter (fun t => negb (isBuy t)) pre))%nat.
Proof.
  induction pre as [| x pre IH] using rev_ind; [simpl; lia |].
  rewrite run_snoc, List.filter_app, List.length_app.
  pose proof (step_count all (run all initState pre) x). simpl.
  destruct (isBuy x); simpl; lia.
Qed.

(** X5. Every sell leaves at most one trace: the loss sales and the warnings
    of a report together are no more than its sells, so a report of an input
    without sells has neither, and no violation either. *)
Theorem sells_bound_loss_sales_and_warnings (rows : list Transaction) (asOf : Z) :
  let r := processTransactions rows asOf in
  (length (r_lossSales r) + length (r_warnings r) <= sells (r_summary r))%nat /\
  (sells (r_summary r) = 0%nat ->
   r_lossSales r = [] /\ r_warnings r = [] /\ r_violations r = []).
Proof.
  cbv zeta.
  assert (Hle : (length (r_lossSales (processTransactions rows asOf)) +
                 length (r_warnings (processTransactions rows asOf)) <=
                 sells (r_summary (processTransactions rows asOf)))%nat).
  { unfold processTransactions. cbn [r_lossSales r_warnings r_summary summarize sells].
    apply run_count. }
  split; [exact Hle |].
  intros H0. rewrite H0 in Hle.
  assert (Hl : r_lossSales (processTransactions rows asOf) = []).
  { destruct (r_lossSales _); [reflexivity | simpl in Hle; lia]. }
  assert (Hw : r_warnings (processTransactions rows asOf) = []).
  { destruct (r_warnings _); [reflexivity |].
    rewrite List.length_cons in Hle. lia. }
  split; [exact Hl |]. split; [exact Hw |].
  destruct (r_violations (processTransactions rows asOf)) as [| v vs] eqn:Ev;
    [reflexivity |].
  destruct (report_violations_sound rows asOf v) as (Hin & _).
  - rewrite Ev. now left.
  - rewrite Hl in Hin. contradiction.
Qed.

(** ** Fill of a loss sale, bound of a violation *)

Lemma step_sell_lossSale_matched all st txn ls :
  In ls (lossSales (step_sell all st txn)) ->
  In ls (lossSales st) \/
  (default [] (lots st !! ticker txn) <> [] /\
   ls_quantity ls =
     snd (snd (fifoLoop (default [] (lots st !! ticker txn)) (quantity txn) 0 0)) /\
   ls_ticker ls = ticker txn /\ saleDate ls = date txn /\
   proceeds ls = (amount txn * (ls_quantity ls / quantity txn))%Q).
Proof.
  unfold step_sell.
  destruct (length _ =? 0)%nat eqn:El; [now left |].
  assert (Hne : default [] (lots st !! ticker txn) <> []).
  { intros E. apply length_eqb_zero in E. congruence. }
  destruct (fifoLoop _ _ _ _) as [lots' [[rts cost] sold]].
  destruct (Qeq_bool sold 0); [now left |].
  destruct (Qlt_bool _ 0); [| now left].
  cbn [lossSales]. intros H. apply in_app_or in H.
  destruct H as [H | [<- | []]]; [now left |].
  right. cbn. auto.
Qed.

(** With positive input quantities a loss sale has a positive quantity, no
    larger than its sell ordered. *)
Lemma run_lossSales_fill all pre ls :
  Forall (fun t => (0 < quantity t)%Q) pre ->
  In ls (lossSales (run all initState pre)) ->
  (0 < ls_quantity ls)%Q /\
  exists s, In s pre /\ transType s = Sell /\ ticker s = ls_ticker ls /\
            date s = saleDate ls /\ (ls_quantity ls <= quantity s)%Q /\
            proceeds ls = (amount s * (ls_quantity ls / quantity s))%Q.
Proof.
  revert ls. induction pre as [| x pre IH] using rev_ind; intros ls Hpos H.
  - contradiction.
  - apply Forall_app in Hpos. destruct Hpos as [Hpre Hx]. apply Forall_inv in Hx.
    rewrite run_snoc in H. set (st := run all initState pre) in *.
    assert (Hold : In ls (lossSales st) ->
              (0 < ls_quantity ls)%Q /\
              exists s, In s (pre ++ [x]) /\ transType s = Sell /\
                        ticker s = ls_ticker ls /\ date s = saleDate ls /\
                        (ls_quantity ls <= quantity s)%Q /\
                        proceeds ls = (amount s * (ls_quantity ls / quantity s))%Q).
    { intros Hin. destruct (IH ls Hpre Hin) as (H1 & s & Hs & Hrest).
      split; [exact H1 |]. exists s. split; [apply in_or_app; now left | exact Hrest]. }
    unfold step in H. destruct (transType x) eqn:Ex; [now apply Hold |].
    apply step_sell_lossSale_matched in H.
    destruct H as [H | (Hne & Hq & Ht & Hd & Hp)]; [now apply Hold |].
    assert (Hopen : Forall (fun lot => (0 < remaining lot)%Q)
                           (default [] (lots st !! ticker x))).
    { destruct (lots st !! ticker x) as [q0 |] eqn:E0; simpl; [| constructor].
      exact (run_lots_open all pre Hpre (ticker x) q0 E0). }
    pose proof (fifoLoop_matched_pos _ _ Hne Hopen Hx) as Hsold.
    assert (Hx0 : (0 <= quantity x)%Q) by lra.
    destruct (fifoLoop_spec _ _ 0 0 Hopen Hx0) as (_ & Hs & _).
    destruct (spec_consume_sum _ _ Hopen Hx0) as [Hsum _].
    rewrite <- Hq in Hsold, Hs.
    split; [exact Hsold |].
    exists x. split; [apply in_or_app; right; now left |].
    repeat split; auto.
    rewrite Hs, Hsum.
    destruct (Q.min_spec (quantity x) (sumRemaining (default [] (lots st !! ticker x))))
      as [[H1 H2] | [H1 H2]]; lra.
Qed.

Lemma disallowed_bounds bq q L :
  (0 < bq)%Q -> (0 < q)%Q -> (0 < L)%Q ->
  (0 < Qmin bq q / q * L)%Q /\ (Qmin bq q / q * L <= L)%Q /\
  (q <= bq -> Qmin bq q / q * L == L)%Q /\
  (bq <= q -> Qmin bq q / q * L == bq / q * L)%Q.
Proof.
  intros Hbq Hq HL.
  assert (Hm : (0 < Qmin bq q)%Q /\ (Qmin bq q <= q)%Q).
  { destruct (Q.min_spec bq q) as [[H1 H2] | [H1 H2]]; rewrite H2; split; lra. }
  destruct Hm as [Hm1 Hm2].
  assert (Hd1 : (0 < Qmin bq q / q)%Q).
  { apply Qlt_shift_div_l; [exact Hq | lra]. }
  assert (Hd2 : (Qmin bq q / q <= 1)%Q).
  { apply Qle_shift_div_r; [exact Hq | lra]. }
  split; [now apply Qmult_lt_0_compat |].
  split.
  { apply Qle_trans with (1 * L)%Q; [| lra].
    apply Qmult_le_compat_r; [exact Hd2 | lra]. }
  split.
  - intros Hle. rewrite (Q.min_r bq q Hle). field. lra.
  - intros Hle. now rewrite (Q.min_l bq q Hle).
Qed.

(** X6. In a report of an input with positive quantities every loss sale has
    a positive quantity that is at most the quantity its sell ordered, and
    proceeds equal to the sell's amount scaled by that share; a sell matched
    in full brings its whole amount. *)
Theorem loss_sale_fill (rows : list Transaction) (asOf : Z) (ls : LossSale) :
  Forall (fun t => (0 < quantity t)%Q) rows ->
  In ls (r_lossSales (processTransactions rows asOf)) ->
  exists s, In s rows /\ transType s = Sell /\
            ticker s = ls_ticker ls /\ date s = saleDate ls /\
            (0 < ls_quantity ls)%Q /\ (ls_quantity ls <= quantity s)%Q /\
            proceeds ls = (amount s * (ls_quantity ls / quantity s))%Q /\
            ((ls_quantity ls == quantity s)%Q -> (proceeds ls == amount s)%Q).
Proof.
  intros Hpos Hls. unfold processTransactions in Hls. cbn [r_lossSales] in Hls.
  assert (Hall : Forall (fun t => (0 < quantity t)%Q) (Array_sort compareTxn rows)).
  { rewrite List.Forall_forall in Hpos |- *. intros t Ht.
    now apply Hpos, (Array_sort_In compareTxn). }
  destruct (run_lossSales_fill _ _ ls Hall Hls) as (H0 & s & Hs & Hsell & Ht & Hd & Hle & Hp).
  exists s. apply (proj1 (Array_sort_In compareTxn rows s)) in Hs as Hs'.
  repeat split; auto.
  intros Heq. rewrite Hp, Heq. field.
  rewrite List.Forall_forall in Hall. specialize (Hall s Hs). lra.
Qed.

(** X7. In a report of an input with positive quantities the disallowed loss
    of every violation is positive and at most the loss of its sale; it is the
    whole loss when the buy covers the quantity sold, and otherwise the loss
    in the proportion of the bought to the sold quantity. *)
Theorem disallowed_loss_bounds (rows : list Transaction) (asOf : Z) (v : Violation) :
  Forall (fun t => (0 < quantity t)%Q) rows ->
  In v (r_violations (processTransactions rows asOf)) ->
  (0 < disallowedLoss v)%Q /\
  (disallowedLoss v <= lossAmount (lossSale v))%Q /\
  ((ls_quantity (lossSale v) <= buyQuantity v)%Q ->
   (disallowedLoss v == lossAmount (lossSale v))%Q) /\
  ((buyQuantity v <= ls_quantity (lossSale v))%Q ->
   (disallowedLoss v ==
    buyQuantity v / ls_quantity (lossSale v) * lossAmount (lossSale v))%Q).
Proof.
  intros Hpos Hv.
  assert (Hall : Forall (fun t => (0 < quantity t)%Q) (Array_sort compareTxn rows)).
  { rewrite List.Forall_forall in Hpos |- *. intros t Ht.
    now apply Hpos, (Array_sort_In compareTxn). }
  destruct (report_violations_sound rows asOf v Hv)
    as (Hls & _ & _ & _ & Hf & b & Hb & _ & _ & _ & Hq).
  unfold processTransactions in Hls. cbn [r_lossSales] in Hls.
  destruct (run_lossSales_fill _ _ _ Hall Hls) as (Hlq & _).
  destruct (run_lossSales_shape _ _ _ Hls) as (HL & _).
  assert (Hbq : (0 < buyQuantity v)%Q).
  { rewrite <- Hq. rewrite List.Forall_forall in Hall. now apply Hall. }
  rewrite Hf. now apply disallowed_bounds.
Qed.

(** ** A transaction added at the end *)

Lemma sortInsert_app_last {A} (cmp : A -> A -> Z) x acc t :
  cmp x t <= 0 -> sortInsert cmp x (acc ++ [t]) = sortInsert cmp x acc ++ [t].
Proof.
  intros Hle. induction acc as [| y acc IH]; simpl.
  - destruct (Z.ltb_spec 0 (cmp x t)); [lia | reflexivity].
  - destruct (0 <? cmp x y); [now rewrite IH | reflexivity].
Qed.

Lemma Array_sort_app_last {A} (cmp : A -> A -> Z) l t :
  (forall x, In x l -> cmp x t <= 0) ->
  Array_sort cmp (l ++ [t]) = Array_sort cmp l ++ [t].
Proof.
  induction l as [| x l IH]; intros Hle; [reflexivity |].
  cbn [app Array_sort fold_right]. fold (Array_sort cmp (l ++ [t])) (Array_sort cmp l).
  rewrite IH by (intros y Hy; apply Hle; now right).
  apply sortInsert_app_last, Hle. now left.
Qed.

Lemma backwardPass_later all t x ls q gl vs :
  date x <= date t ->
  backwardPass (all ++ [t]) x ls q gl vs = backwardPass all x ls q gl vs.
Proof.
  intros Hle. unfold backwardPass. rewrite fold_left_app. cbn [fold_left].
  destruct (Z.ltb_spec (date t) (date x)) as [Hlt | _]; [lia |].
  now rewrite andb_false_r.
Qed.

Lemma step_later all t st x :
  date x <= date t -> step (all ++ [t]) st x = step all st x.
Proof.
  intros Hle. unfold step. destruct (transType x); [reflexivity |].
  unfold step_sell.
  destruct (length _ =? 0)%nat; [reflexivity |].
  destruct (fifoLoop _ _ _ _) as [lots' [[rts cost] sold]].
  destruct (Qeq_bool sold 0); [reflexivity |].
  destruct (Qlt_bool _ 0); [| reflexivity].
  now rewrite backwardPass_later.
Qed.

Lemma run_later all t st l :
  (forall x, In x l -> date x <= date t) ->
  run (all ++ [t]) st l = run all st l.
Proof.
  revert st. induction l as [| x l IH]; intros st Hle; [reflexivity |].
  cbn [run fold_left]. rewrite step_later by (apply Hle; now left).
  apply IH. intros y Hy. apply Hle. now right.
Qed.

Lemma forwardPass_extends txn lss vs :
  exists k, forwardPass txn lss vs = vs ++ k.
Proof.
  unfold forwardPass. revert vs. induction lss as [| ls lss IH]; intros vs.
  - exists []. now rewrite app_nil_r.
  - cbn [fold_left]. destruct (_ && _).
    + destruct (IH (vs ++ [mkViolation (ticker txn) ls (date txn) (quantity txn)
                  (Qmin (quantity txn) (ls_quantity ls) / ls_quantity ls * lossAmount ls)%Q]))
        as (k & Hk).
      eexists. rewrite Hk, <- app_assoc. reflexivity.
    + apply IH.
Qed.

Lemma backwardPass_extends txs txn ls q gl vs :
  exists k, backwardPass txs txn ls q gl vs = vs ++ k.
Proof.
  unfold backwardPass. revert vs. induction txs as [| p txs IH]; intros vs.
  - exists []. now rewrite app_nil_r.
  - cbn [fold_left]. destruct (_ && _); [| apply IH].
    destruct (alreadyRecorded vs txn p); [apply IH |].
    destruct (IH (vs ++ [mkViolation (ticker txn) ls (date p) (quantity p)
                (Qmin (quantity p) q / q * Qabs gl)%Q])) as (k & Hk).
    eexists. rewrite Hk, <- app_assoc. reflexivity.
Qed.

(** One iteration only appends: at most one loss sale, at most one warning,
    and violations after the ones recorded. *)
Lemma step_extends all st x :
  (exists k, lossSales (step all st x) = lossSales st ++ k /\ (length k <= 1)%nat) /\
  (exists k, violations (step all st x) = violations st ++ k) /\
  (exists k, warnings (step all st x) = warnings st ++ k /\ (length k <= 1)%nat).
Proof.
  unfold step. destruct (transType x).
  - cbn. split; [exists []; rewrite app_nil_r; split; [reflexivity | simpl; lia] |].
    split; [apply forwardPass_extends |].
    exists []. rewrite app_nil_r. split; [reflexivity | simpl; lia].
  - split; [| split].
    + destruct (step_sell_cases all st x) as [[El _] | (ls & gl & El & _)]; rewrite El.
      * exists []. rewrite app_nil_r. split; [reflexivity | simpl; lia].
      * exists [ls]. split; [reflexivity | simpl; lia].
    + destruct (step_sell_cases all st x) as [[_ Ev] | (ls & gl & _ & _ & _ & _ & Ev)];
        rewrite Ev.
      * exists []. now rewrite app_nil_r.
      * apply backwardPass_extends.
    + destruct (step_sell_lots all st x) as [[_ E] | (_ & Ew & _)].
      * rewrite E. cbn. exists [mkWarning (ticker x) (date x)]. split; [reflexivity | simpl; lia].
      * rewrite Ew. exists []. rewrite app_nil_r. split; [reflexivity | simpl; lia].
Qed.

(** X8. Adding a transaction that sorts after all the others (a later date,
    or the latest date without putting a buy behind a sell) leaves what the
    report held in place: the processed array gains it at the end, and the
    loss sales, the violations and the warnings of the old report are an
    initial part of the new ones, with at most one loss sale and at most one
    warning more. *)
Theorem later_transaction_only_appends (rows : list Transaction) (t : Transaction)
    (asOf : Z) :
  (forall r, In r rows -> chronological r t) ->
  let r0 := processTransactions rows asOf in
  let r1 := processTransactions (rows ++ [t]) asOf in
  r_transactions r1 = r_transactions r0 ++ [t] /\
  (exists k, r_lossSales r1 = r_lossSales r0 ++ k /\ (length k <= 1)%nat) /\
  (exists k, r_violations r1 = r_violations r0 ++ k) /\
  (exists k, r_warnings r1 = r_warnings r0 ++ k /\ (length k <= 1)%nat).
Proof.
  intros Hlast. cbv zeta. unfold processTransactions.
  cbn [r_transactions r_lossSales r_violations r_warnings].
  assert (Hle : forall x, In x rows -> compareTxn x t <= 0).
  { intros x Hx. apply compareTxn_le, txn_le_chronological, Hlast, Hx. }
  rewrite (Array_sort_app_last compareTxn rows t Hle).
  set (all := Array_sort compareTxn rows).
  split; [reflexivity |].
  assert (Hrun : run (all ++ [t]) initState (all ++ [t]) =
                 step (all ++ [t]) (run all initState all) t).
  { rewrite run_snoc. f_equal. apply run_later.
    intros x Hx. apply txn_le_date, compareTxn_le, Hle.
    now apply (Array_sort_In compareTxn). }
  rewrite Hrun. apply step_extends.
Qed.

(** * Further properties of the queries *)

(** ** Days until a date *)

Lemma daysUntil_bounds target from :
  (daysUntil target from - 1) * MS_PER_DAY < target - from <=
  daysUntil target from * MS_PER_DAY.
Proof.
  unfold daysUntil. cbv zeta. pose proof MS_PER_DAY_pos as Hpos.
  pose proof (Z.div_mod (- (target - from)) MS_PER_DAY ltac:(lia)) as Hdm.
  pose proof (Z.mod_pos_bound (- (target - from)) MS_PER_DAY Hpos) as Hmod.
  nia.
Qed.

Lemma daysUntil_pos target from : 1 <= daysUntil target from <-> from < target.
Proof.
  pose proof MS_PER_DAY_pos. pose proof (daysUntil_bounds target from).
  split; intros; nia.
Qed.

(** X9. [daysUntil] is the number of whole days, rounded up, from the
    reference date to the target: it is the one [n] with
    [(n - 1) days < target - from <= n days]; it is positive exactly when the
    target is later than the reference date, and moving the target by [k]
    days of 24 hours moves it by [k]. *)
Theorem daysUntil_is_ceiling (target from : Z) :
  (forall n, daysUntil target from = n <->
             (n - 1) * MS_PER_DAY < target - from <= n * MS_PER_DAY) /\
  (1 <= daysUntil target from <-> from < target) /\
  (forall k, daysUntil (target + k * MS_PER_DAY) from = daysUntil target from + k).
Proof.
  pose proof MS_PER_DAY_pos as Hpos.
  pose proof (daysUntil_bounds target from) as Hb.
  split; [| split].
  - intros n. split; [intros <-; exact Hb |]. apply daysUntil_ceil.
  - apply daysUntil_pos.
  - intros k. apply daysUntil_ceil. nia.
Qed.

(** ** Active windows over time *)

(** X10. Windows only expire as the reference date advances: the windows
    active at a later date are the windows active at the earlier date that
    are still active, in the same order; and a window is active at every
    reference date before its sale. *)
Theorem active_windows_expire (lss : list LossSale) (asOf asOf' : Z) :
  asOf <= asOf' ->
  activeWindows (activeWindows lss asOf) asOf' = activeWindows lss asOf' /\
  (forall ls, In ls (activeWindows lss asOf') -> In ls (activeWindows lss asOf)) /\
  (forall ls, In ls lss -> asOf <= saleDate ls -> In ls (activeWindows lss asOf)).
Proof.
  intros Hle. pose proof MS_PER_DAY_pos as Hpos. split; [| split].
  - unfold activeWindows. induction lss as [| ls lss IH]; [reflexivity |].
    cbn [List.filter].
    destruct (Z.ltb_spec asOf' (getSafeDate (saleDate ls))) as [H1 | H1];
      destruct (Z.ltb_spec asOf (getSafeDate (saleDate ls))) as [H2 | H2];
      cbn [List.filter]; try lia.
    + destruct (Z.ltb_spec asOf' (getSafeDate (saleDate ls))); [| lia]. now rewrite IH.
    + destruct (Z.ltb_spec asOf' (getSafeDate (saleDate ls))); [lia |]. exact IH.
    + exact IH.
  - intros ls. rewrite !activeWindows_In. intuition lia.
  - intros ls Hin Hs. apply activeWindows_In. split; [exact Hin |].
    pose proof (addDays_after (saleDate ls) 31 ltac:(lia)).
    unfold getSafeDate. lia.
Qed.

(** ** What the ticker check promises *)

Lemma checkTicker_unfold aw asOf t :
  trim t <> EmptyString ->
  checkTicker aw asOf t =
  let u := toUpperCase (trim t) in
  let m := List.filter (fun w => String.eqb (ls_ticker w) u) aw in
  if (length m =? 0)%nat then Some (SafeResult u)
  else
    let latestSafe :=
      fold_left (fun latest w =>
                   let safe := getSafeDate (saleDate w) in
                   if latest <? safe then safe else latest) m 0 in
    Some (WarningResult u m latestSafe (daysUntil latestSafe asOf)).
Proof. intros Hne. unfold checkTicker. now rewrite (eqb_empty_false _ Hne). Qed.

Lemma checkTicker_blank aw asOf t :
  trim t = EmptyString -> checkTicker aw asOf t = None.
Proof. intros E. unfold checkTicker. now rewrite E. Qed.

(** X11. An answer of the ticker check can be relied on against the
    detector.  If it reports a ticker safe at [asOf], then for every loss
    sale recorded under that ticker the safe date has come and [asOf] lies
    outside the sale's wash window.  If it warns, the safe date it names is
    later than [asOf], the days it names are at least 1, and every window it
    lists is a recorded loss sale of that ticker that is still active.  It
    gives no answer exactly for a blank query. *)
Theorem checkTicker_answers (lss : list LossSale) (asOf : Z) (t : string) :
  (forall u, checkTicker (activeWindows lss asOf) asOf t = Some (SafeResult u) ->
     u = toUpperCase (trim t) /\
     forall ls, In ls lss -> ls_ticker ls = u ->
       getSafeDate (saleDate ls) <= asOf /\
       isInWashWindow (saleDate ls) asOf = false) /\
  (forall u ws safe days,
     checkTicker (activeWindows lss asOf) asOf t = Some (WarningResult u ws safe days) ->
     asOf < safe /\ 1 <= days /\ ws <> [] /\
     forall w, In w ws ->
       In w lss /\ ls_ticker w = u /\ asOf < getSafeDate (saleDate w) <= safe) /\
  (checkTicker (activeWindows lss asOf) asOf t = None <-> trim t = EmptyString).
Proof.
  pose proof MS_PER_DAY_pos as Hpos.
  destruct (string_dec (trim t) EmptyString) as [Eb | Hne].
  { rewrite (checkTicker_blank _ _ _ Eb). repeat split; try discriminate; auto. }
  rewrite (checkTicker_unfold _ _ _ Hne). cbv zeta.
  set (u0 := toUpperCase (trim t)).
  set (m := List.filter (fun w => String.eqb (ls_ticker w) u0) (activeWindows lss asOf)).
  assert (Hm : forall w, In w m <->
               In w lss /\ asOf < getSafeDate (saleDate w) /\ ls_ticker w = u0).
  { intros w. unfold m. rewrite filter_In, activeWindows_In, String.eqb_eq. tauto. }
  destruct (length m =? 0)%nat eqn:El.
  - apply length_eqb_zero in El. split; [| split].
    + intros u Hu. injection Hu as <-. split; [reflexivity |].
      intros ls Hin Ht.
      assert (Hsafe : getSafeDate (saleDate ls) <= asOf).
      { destruct (Z.le_gt_cases (getSafeDate (saleDate ls)) asOf) as [H | H]; [exact H |].
        exfalso. assert (Hin' : In ls m) by (apply Hm; auto).
        rewrite El in Hin'. contradiction. }
      split; [exact Hsafe |].
      destruct (isInWashWindow (saleDate ls) asOf) eqn:Ew; [| reflexivity].
      apply isInWashWindow_spec in Ew.
      pose proof (addDays_mono (saleDate ls) 30 31 ltac:(lia)).
      unfold getSafeDate in *. lia.
    + intros u ws safe days Hu. discriminate.
    + split; [discriminate | contradiction].
  - split; [| split].
    + intros u Hu. discriminate.
    + intros u ws safe days Hu. injection Hu as <- <- <- <-.
      destruct (latestSafe_fold m 0) as (_ & Hub & _). cbv zeta in Hub.
      assert (Hne' : m <> []).
      { intros E. rewrite E in El. discriminate. }
      assert (Hlt : asOf < fold_left (fun latest w =>
                             if latest <? getSafeDate (saleDate w)
                             then getSafeDate (saleDate w) else latest) m 0).
      { destruct m as [| w0 m'] eqn:Em; [congruence |].
        pose proof (Hub w0 (or_introl eq_refl)).
        destruct (proj1 (Hm w0) (or_introl eq_refl)) as (_ & Hact & _). lia. }
      split; [exact Hlt |].
      split; [apply daysUntil_pos; exact Hlt |].
      split; [exact Hne' |].
      intros w Hw. destruct (proj1 (Hm w) Hw) as (H1 & H2 & H3).
      repeat split; auto.
    + split; [discriminate | contradiction].
Qed.

(** * The table of active windows *)

(** ** Sorting with any comparator *)

Section SortBy.

Context {A : Type} (cmp : A -> A -> Z) (le : A -> A -> Prop).
Hypothesis cmp_pos : forall x y, 0 < cmp x y -> le y x.
Hypothesis cmp_nonpos : forall x y, cmp x y <= 0 -> le x y.
Hypothesis le_trans : forall x y z, le x y -> le y z -> le x z.

Lemma sortInsert_sorted_by x l :
  StronglySorted le l -> StronglySorted le (sortInsert cmp x l).
Proof.
  induction 1 as [| y l Hs IH Hy]; simpl.
  - repeat constructor.
  - destruct (Z.ltb_spec 0 (cmp x y)) as [Hlt | Hge].
    + constructor; [exact IH |].
      rewrite List.Forall_forall. intros z Hz.
      apply (Permutation_in _ (sortInsert_perm cmp x l)) in Hz.
      destruct Hz as [<- | Hz]; [now apply cmp_pos |].
      rewrite List.Forall_forall in Hy. now apply Hy.
    + constructor; [now constructor |].
      constructor; [now apply cmp_nonpos |].
      rewrite List.Forall_forall in Hy |- *. intros z Hz.
      apply (le_trans x y z); [now apply cmp_nonpos | now apply Hy].
Qed.

Lemma Array_sort_sorted_by l : StronglySorted le (Array_sort cmp l).
Proof.
  induction l as [| x l IH]; simpl; [constructor |].
  now apply sortInsert_sorted_by.
Qed.

End SortBy.

Lemma Qsign_pos q : 0 < Qsign q <-> (0 < q)%Q.
Proof. unfold Qsign, Qlt. destruct q as [n d]. simpl. lia. Qed.

Lemma compareGroups_sorted gr :
  StronglySorted (fun a b => (g_total (snd b) <= g_total (snd a))%Q)
                 (Array_sort compareGroups gr).
Proof.
  apply Array_sort_sorted_by.
  - intros x y H. apply Qsign_pos in H. lra.
  - intros x y H.
    assert (Hn : ~ (0 < g_total (snd y) - g_total (snd x))%Q).
    { intros Hp. apply Qsign_pos in Hp. unfold compareGroups in H. lia. }
    lra.
  - intros x y z H1 H2. lra.
Qed.

(** ** Sums of rationals *)

Lemma sumQ_app l l' : (sumQ (l ++ l') == sumQ l + sumQ l')%Q.
Proof.
  induction l as [| x l IH]; simpl.
  - ring.
  - fold (sumQ (l ++ l')) (sumQ l). rewrite IH. ring.
Qed.

Lemma sumQ_perm l l' : Permutation l l' -> (sumQ l == sumQ l')%Q.
Proof.
  induction 1 as [| x l l' _ IH | x y l | l l' l'' _ IH1 _ IH2].
  - reflexivity.
  - rewrite !sumQ_cons, IH. reflexivity.
  - rewrite !sumQ_cons. ring.
  - now rewrite IH1.
Qed.

Lemma fold_left_sum {A} (f : A -> Q) l a :
  (fold_left (fun sum e => sum + f e) l a == a + sumQ (List.map f l))%Q.
Proof.
  revert a. induction l as [| x l IH]; intros a; simpl.
  - ring.
  - fold (sumQ (List.map f l)). rewrite IH. ring.
Qed.

Lemma totalLoss_app l l' : (totalLoss (l ++ l') == totalLoss l + totalLoss l')%Q.
Proof. unfold totalLoss. rewrite List.map_app. apply sumQ_app. Qed.

(** ** Grouping by ticker *)

Lemma groupOf_groupAdd k gr w :
  groupOf k (groupAdd gr w) =
  if String.eqb (ls_ticker w) k
  then Some (addToGroup (default (mkGroup [] 0 None) (groupOf k gr)) w)
  else groupOf k gr.
Proof.
  induction gr as [| [k' g] gr IH]; simpl.
  - reflexivity.
  - destruct (String.eqb_spec k' (ls_ticker w)) as [E1 | E1]; simpl.
    + subst k'. destruct (String.eqb_spec (ls_ticker w) k); reflexivity.
    + rewrite IH. destruct (String.eqb_spec k' k) as [E2 | E2]; [| reflexivity].
      subst k'. destruct (String.eqb_spec (ls_ticker w) k); [congruence | reflexivity].
Qed.

Lemma groupOf_None k gr : groupOf k gr = None <-> ~ In k (List.map fst gr).
Proof.
  induction gr as [| [k' g] gr IH]; simpl; [tauto |].
  destruct (String.eqb_spec k' k); [split; [discriminate | tauto] |].
  rewrite IH. tauto.
Qed.

Lemma groupOf_In k g gr : groupOf k gr = Some g -> In (k, g) gr.
Proof.
  induction gr as [| [k' g'] gr IH]; simpl; [discriminate |].
  destruct (String.eqb_spec k' k) as [-> | _]; [| auto].
  intros H. injection H as ->. now left.
Qed.

Lemma In_groupOf k g gr :
  List.NoDup (List.map fst gr) -> In (k, g) gr -> groupOf k gr = Some g.
Proof.
  induction gr as [| [k' g'] gr IH]; simpl; intros Hnd Hin; [contradiction |].
  apply List.NoDup_cons_iff in Hnd. destruct Hnd as [Hk' Hnd].
  destruct Hin as [E | Hin].
  - injection E as -> ->. now rewrite String.eqb_refl.
  - destruct (String.eqb_spec k' k) as [-> | _]; [| auto].
    exfalso. apply Hk'. apply in_map_iff. now exists (k, g).
Qed.

Lemma groupAdd_keys gr w :
  List.map fst (groupAdd gr w) =
  List.map fst gr ++
  match groupOf (ls_ticker w) gr with Some _ => [] | None => [ls_ticker w] end.
Proof.
  induction gr as [| [k g] gr IH]; simpl; [reflexivity |].
  destruct (String.eqb_spec k (ls_ticker w)); simpl.
  - now rewrite app_nil_r.
  - now rewrite IH.
Qed.

Lemma groupAdd_total gr w :
  (sumQ (List.map (fun e => g_total (snd e)) (groupAdd gr w)) ==
   sumQ (List.map (fun e => g_total (snd e)) gr) + lossAmount w)%Q.
Proof.
  induction gr as [| [k g] gr IH]; simpl.
  - ring.
  - destruct (String.eqb k (ls_ticker w)); simpl.
    + ring.
    + fold (sumQ (List.map (fun e => g_total (snd e)) (groupAdd gr w))).
      fold (sumQ (List.map (fun e => g_total (snd e)) gr)).
      rewrite IH. ring.
Qed.

Lemma groupByTicker_snoc ws w :
  groupByTicker (ws ++ [w]) = groupAdd (groupByTicker ws) w.
Proof. unfold groupByTicker. now rewrite fold_left_app. Qed.

Lemma windowsOf_snoc k ws w :
  windowsOf k (ws ++ [w]) =
  windowsOf k ws ++ (if String.eqb (ls_ticker w) k then [w] else []).
Proof. unfold windowsOf. now rewrite List.filter_app. Qed.

Lemma latestSafeDate_snoc l w d :
  latestSafeDate l d ->
  latestSafeDate (l ++ [w])
    (if d <? getSafeDate (saleDate w) then getSafeDate (saleDate w) else d).
Proof.
  intros (Hub & w0 & Hw0 & Hd).
  destruct (Z.ltb_spec d (getSafeDate (saleDate w))) as [Hlt | Hge]; split.
  - intros x Hx. apply in_app_or in Hx. destruct Hx as [Hx | [<- | []]]; [| lia].
    specialize (Hub x Hx). lia.
  - exists w. split; [apply in_or_app; right; now left | reflexivity].
  - intros x Hx. apply in_app_or in Hx. destruct Hx as [Hx | [<- | []]]; [| lia].
    now apply Hub.
  - exists w0. split; [apply in_or_app; now left | exact Hd].
Qed.

Lemma latestSafeDate_unique l d d' :
  latestSafeDate l d -> latestSafeDate l d' -> d = d'.
Proof.
  intros (H1 & w1 & Hw1 & E1) (H2 & w2 & Hw2 & E2).
  specialize (H1 w2 Hw2). specialize (H2 w1 Hw1). lia.
Qed.

(** What [grouped] holds once [forEach] is through: one entry for each
    ticker that occurs, with that ticker's windows in order, the sum of their
    losses and the latest of their safe dates. *)
Lemma groupByTicker_inv ws :
  List.NoDup (List.map fst (groupByTicker ws)) /\
  (sumQ (List.map (fun e => g_total (snd e)) (groupByTicker ws)) == totalLoss ws)%Q /\
  forall k,
    match groupOf k (groupByTicker ws) with
    | None => windowsOf k ws = []
    | Some g =>
        g_losses g = windowsOf k ws /\ windowsOf k ws <> [] /\
        (g_total g == totalLoss (windowsOf k ws))%Q /\
        exists d, g_safeDate g = Some d /\ latestSafeDate (windowsOf k ws) d
    end.
Proof.
  induction ws as [| w ws IH] using rev_ind.
  - cbn. split; [constructor |]. split; [reflexivity | reflexivity].
  - destruct IH as (Hnd & Hsum & Hk).
    rewrite groupByTicker_snoc. split; [| split].
    + rewrite groupAdd_keys.
      destruct (groupOf (ls_ticker w) (groupByTicker ws)) eqn:E.
      * now rewrite app_nil_r.
      * apply groupOf_None in E.
        apply List.NoDup_app; [exact Hnd | repeat constructor; intros [] |].
        intros x Hx [<- | []]. now apply E.
    + rewrite groupAdd_total, Hsum, totalLoss_app. unfold totalLoss. cbn. ring.
    + intros k. rewrite groupOf_groupAdd, windowsOf_snoc. specialize (Hk k).
      destruct (String.eqb_spec (ls_ticker w) k) as [E | E].
      * destruct (groupOf k (groupByTicker ws)) as [g0 |];
          cbn [default from_option id addToGroup g_losses g_total g_safeDate].
        -- destruct Hk as (H1 & H2 & H3 & d & H4 & H5).
           rewrite H1, H4. split; [reflexivity |].
           split; [intros Habs; now apply app_eq_nil in Habs as [? _] |].
           split; [rewrite H3, totalLoss_app; unfold totalLoss; cbn; ring |].
           eexists. split; [| apply latestSafeDate_snoc; exact H5].
           destruct (d <? getSafeDate (saleDate w)); reflexivity.
        -- rewrite Hk. cbn [app]. split; [reflexivity |].
           split; [discriminate |].
           split; [unfold totalLoss; cbn; ring |].
           exists (getSafeDate (saleDate w)). split; [reflexivity |].
           split; [intros x [<- | []]; lia |].
           exists w. split; [now left | reflexivity].
      * rewrite app_nil_r. exact Hk.
Qed.

(** ** The rows of the table *)

Lemma StronglySorted_map {A B} (f : A -> B) (R : B -> B -> Prop) l :
  StronglySorted (fun a b => R (f a) (f b)) l -> StronglySorted R (List.map f l).
Proof.
  induction 1 as [| x l Hs IH Hx]; simpl; constructor; [exact IH |].
  rewrite List.Forall_forall in Hx |- *. intros y Hy.
  apply in_map_iff in Hy. destruct Hy as (a & <- & Ha). now apply Hx.
Qed.

Lemma filter_partition_perm {A} (f : A -> bool) l :
  Permutation (List.filter f l ++ List.filter (fun x => negb (f x)) l) l.
Proof.
  induction l as [| x l IH]; [reflexivity |]. cbn [List.filter].
  destruct (f x); cbn [negb app].
  - now constructor.
  - rewrite <- Permutation_middle. now constructor.
Qed.

Lemma Object_entries_perm {V} (fields : list (string * V)) :
  Permutation (Object_entries fields) fields.
Proof.
  unfold Object_entries. rewrite Array_sort_perm. apply filter_partition_perm.
Qed.

Lemma sortedTickers_perm windows :
  Permutation (Array_sort compareGroups (Object_entries (groupByTicker windows)))
              (groupByTicker windows).
Proof. rewrite Array_sort_perm. apply Object_entries_perm. Qed.

Lemma activeWindowsTable_rows windows asOf :
  windows <> [] ->
  activeWindowsTable windows asOf =
  Some (List.map (tableRow asOf)
                 (Array_sort compareGroups (Object_entries (groupByTicker windows))),
        fold_left (fun sum e => (sum + g_total (snd e))%Q)
                  (Array_sort compareGroups (Object_entries (groupByTicker windows)))
                  0%Q).
Proof.
  intros Hne. unfold activeWindowsTable.
  destruct windows; [congruence | reflexivity].
Qed.

(** A row is the entry of its ticker in [grouped]. *)
Lemma table_row_group windows asOf row :
  In row (List.map (tableRow asOf)
                  (Array_sort compareGroups (Object_entries (groupByTicker windows)))) ->
  exists g, groupOf (row_ticker row) (groupByTicker windows) = Some g /\
            row = tableRow asOf (row_ticker row, g).
Proof.
  intros Hin. apply in_map_iff in Hin. destruct Hin as ([k g] & <- & He).
  apply (Permutation_in _ (sortedTickers_perm windows)) in He.
  destruct (groupByTicker_inv windows) as (Hnd & _).
  exists g. cbn [tableRow row_ticker fst].
  split; [now apply In_groupOf | reflexivity].
Qed.

(** X12. The table of active windows has one row for each ticker that has
    a window and no other row; a row counts that ticker's windows and totals
    their losses, and the footer totals the losses of all windows.  The
    "no active restrictions" panel stands for an empty list of windows, and
    for nothing else. *)
Theorem table_groups_by_ticker (windows : list LossSale) (asOf : Z) :
  match activeWindowsTable windows asOf with
  | None => windows = []
  | Some (rows, grandTotal) =>
      windows <> [] /\
      List.NoDup (List.map row_ticker rows) /\
      (forall k, (exists row, In row rows /\ row_ticker row = k) <->
                 windowsOf k windows <> []) /\
      (forall row, In row rows ->
         row_sales row = length (windowsOf (row_ticker row) windows) /\
         (row_total row == totalLoss (windowsOf (row_ticker row) windows))%Q) /\
      (grandTotal == totalLoss windows)%Q
  end.
Proof.
  destruct windows as [| w0 ws] eqn:Ew; [reflexivity |].
  rewrite <- Ew. assert (Hne : windows <> []) by (rewrite Ew; discriminate).
  clear Ew. rewrite (activeWindowsTable_rows _ asOf Hne).
  set (gr := groupByTicker windows).
  pose proof (sortedTickers_perm windows) as Hperm. fold gr in Hperm.
  destruct (groupByTicker_inv windows) as (Hnd & Hsum & Hinv). fold gr in Hnd, Hsum, Hinv.
  split; [exact Hne |]. split; [| split; [| split]].
  - rewrite List.map_map. cbn [tableRow row_ticker].
    apply (Permutation_NoDup (l := List.map fst gr)); [| exact Hnd].
    symmetry. now apply Permutation_map.
  - intros k. split.
    + intros (row & Hrow & <-).
      destruct (table_row_group _ _ _ Hrow) as (g & Hg & _). fold gr in Hg.
      specialize (Hinv (row_ticker row)). rewrite Hg in Hinv. tauto.
    + intros Hk. specialize (Hinv k).
      destruct (groupOf k gr) as [g |] eqn:Eg; [| contradiction].
      exists (tableRow asOf (k, g)). split; [| reflexivity].
      apply in_map. apply (Permutation_in _ (Permutation_sym Hperm)).
      now apply groupOf_In.
  - intros row Hrow.
    destruct (table_row_group _ _ _ Hrow) as (g & Hg & Er). fold gr in Hg.
    specialize (Hinv (row_ticker row)). rewrite Hg in Hinv.
    destruct Hinv as (H1 & _ & H3 & _).
    rewrite Er at 1 3. cbn [tableRow row_sales row_total fst snd].
    rewrite H1. split; [reflexivity | exact H3].
  - rewrite fold_left_sum, <- Hsum.
    rewrite (sumQ_perm _ _ (Permutation_map (fun e => g_total (snd e)) Hperm)). ring.
Qed.

(** X13. The rows of the table come by total loss, largest first. *)
Theorem table_sorted_by_loss (windows : list LossSale) (asOf : Z) :
  match activeWindowsTable windows asOf with
  | None => True
  | Some (rows, _) =>
      StronglySorted (fun a b => (row_total b <= row_total a)%Q) rows
  end.
Proof.
  destruct windows as [| w0 ws] eqn:Ew; [exact I |].
  rewrite <- Ew. assert (Hne : windows <> []) by (rewrite Ew; discriminate).
  rewrite (activeWindowsTable_rows _ asOf Hne).
  apply StronglySorted_map. cbn [tableRow row_total].
  apply compareGroups_sorted.
Qed.

(** X14. The safe date of a row is the latest [saleDate + 31 days] among the
    windows of its ticker, whatever the dates (no floor at the epoch), and
    its days left are counted to that date; when the windows are active at
    [asOf], the safe date is later than [asOf] and the days left are at
    least 1. *)
Theorem table_safe_dates (windows : list LossSale) (asOf : Z) :
  match activeWindowsTable windows asOf with
  | None => True
  | Some (rows, _) =>
      forall row, In row rows ->
        exists d, row_safeDate row = Some d /\
                  latestSafeDate (windowsOf (row_ticker row) windows) d /\
                  row_days row = daysUntil d asOf /\
                  ((forall w, In w windows -> asOf < getSafeDate (saleDate w)) ->
                   asOf < d /\ 1 <= row_days row)
  end.
Proof.
  destruct windows as [| w0 ws] eqn:Ew; [exact I |].
  rewrite <- Ew. assert (Hne : windows <> []) by (rewrite Ew; discriminate).
  clear Ew. rewrite (activeWindowsTable_rows _ asOf Hne).
  intros row Hrow.
  destruct (table_row_group _ _ _ Hrow) as (g & Hg & Er).
  destruct (groupByTicker_inv windows) as (_ & _ & Hinv).
  specialize (Hinv (row_ticker row)). rewrite Hg in Hinv.
  destruct Hinv as (_ & _ & _ & d & Hd & Hlatest).
  exists d. rewrite Er at 1 3 4. cbn [tableRow row_safeDate row_days fst snd].
  rewrite Hd. cbn [default from_option id].
  split; [reflexivity |]. split; [exact Hlatest |]. split; [reflexivity |].
  intros Hact. destruct Hlatest as (_ & w & Hw & ->).
  apply filter_In in Hw. destruct Hw as [Hw _].
  specialize (Hact w Hw). split; [exact Hact | now apply daysUntil_pos].
Qed.

Lemma latestSafe_fold_latest (m : list LossSale) :
  m <> [] -> (forall w, In w m -> 0 < getSafeDate (saleDate w)) ->
  latestSafeDate m
    (fold_left (fun latest w =>
                  let safe := getSafeDate (saleDate w) in
                  if latest <? safe then safe else latest) m 0).
Proof.
  intros Hne Hpos.
  destruct (latestSafe_fold m 0) as (_ & Hub & Hatt). cbv zeta in Hub, Hatt.
  split; [exact Hub |].
  destruct Hatt as [E0 | Hw]; [| exact Hw].
  exfalso. destruct m as [| w0 m']; [congruence |].
  pose proof (Hub w0 (or_introl eq_refl)).
  pose proof (Hpos w0 (or_introl eq_refl)). cbv zeta in E0. lia.
Qed.

(** X15. The ticker check and the table agree.  For a reference date not
    before the epoch, a warning of the check for a ticker names the safe
    date, the days left and the number of windows that the table shows in the
    row of that ticker, and the windows it lists are those the row counts and
    totals; a ticker the check reports safe has no row. *)
Theorem table_agrees_with_check (lss : list LossSale) (asOf : Z) (t : string) :
  0 <= asOf ->
  match activeWindowsTable (activeWindows lss asOf) asOf with
  | None =>
      forall u ws safe days,
        checkTicker (activeWindows lss asOf) asOf t
        <> Some (WarningResult u ws safe days)
  | Some (rows, _) =>
      (forall u ws safe days,
         checkTicker (activeWindows lss asOf) asOf t
         = Some (WarningResult u ws safe days) ->
         exists row, In row rows /\ row_ticker row = u /\
                     row_safeDate row = Some safe /\ row_days row = days /\
                     row_sales row = length ws /\
                     (row_total row == totalLoss ws)%Q) /\
      (forall u, checkTicker (activeWindows lss asOf) asOf t = Some (SafeResult u) ->
                 forall row, In row rows -> row_ticker row <> u)
  end.
Proof.
  intros HasOf. set (aw := activeWindows lss asOf).
  assert (Hactive : forall w, In w aw -> asOf < getSafeDate (saleDate w)).
  { intros w Hw. now apply activeWindows_In in Hw. }
  destruct (string_dec (trim t) EmptyString) as [Eb | Hne].
  { rewrite (checkTicker_blank _ _ _ Eb).
    destruct (activeWindowsTable aw asOf) as [[rows gt] |]; [split |]; intros; discriminate. }
  rewrite (checkTicker_unfold _ _ _ Hne). cbv zeta.
  set (u0 := toUpperCase (trim t)).
  change (List.filter (fun w => String.eqb (ls_ticker w) u0) aw) with (windowsOf u0 aw).
  destruct aw as [| w0 aw'] eqn:Eaw.
  { cbn. intros u ws safe days. discriminate. }
  rewrite <- Eaw in *. assert (Hne' : aw <> []) by (rewrite Eaw; discriminate).
  rewrite (activeWindowsTable_rows _ asOf Hne').
  destruct (groupByTicker_inv aw) as (Hnd & _ & Hinv).
  specialize (Hinv u0).
  destruct (length (windowsOf u0 aw) =? 0)%nat eqn:El.
  - apply length_eqb_zero in El. split; [intros; discriminate |].
    intros u Hu row Hrow Et. injection Hu as Hu.
    destruct (table_row_group _ _ _ Hrow) as (g & Hg & _).
    rewrite Et, <- Hu in Hg. rewrite Hg in Hinv.
    destruct Hinv as (_ & Hn & _). contradiction.
  - assert (Hm : windowsOf u0 aw <> []).
    { intros E. rewrite E in El. discriminate. }
    split; [| intros; discriminate].
    intros u ws safe days Hu. injection Hu as <- <- <- <-.
    destruct (groupOf u0 (groupByTicker aw)) as [g |] eqn:Eg; [| contradiction].
    destruct Hinv as (H1 & _ & H3 & d & Hd & Hlatest).
    assert (Hfold : latestSafeDate (windowsOf u0 aw)
              (fold_left (fun latest w =>
                            let safe := getSafeDate (saleDate w) in
                            if latest <? safe then safe else latest)
                         (windowsOf u0 aw) 0)).
    { apply latestSafe_fold_latest; [exact Hm |].
      intros w Hw. apply filter_In in Hw. destruct Hw as [Hw _].
      specialize (Hactive w Hw). lia. }
    pose proof (latestSafeDate_unique _ _ _ Hlatest Hfold) as Ed.
    exists (tableRow asOf (u0, g)).
    split; [apply in_map,
              (Permutation_in _ (Permutation_sym (sortedTickers_perm aw)));
            now apply groupOf_In |].
    cbn [tableRow row_ticker row_safeDate row_days row_sales row_total fst snd].
    rewrite Hd, H1. cbn [default from_option id]. subst d.
    repeat split; auto.
Qed.

(** * Reading the CSV text *)

Lemma append_String c (a b : string) : String c a +:+ b = String c (a +:+ b).
Proof. reflexivity. Qed.

Lemma append_Empty (b : string) : EmptyString +:+ b = b.
Proof. reflexivity. Qed.

Lemma string_append_assoc (a b c : string) : (a +:+ b) +:+ c = a +:+ (b +:+ c).
Proof.
  induction a as [|x a IH]; [reflexivity|]. now rewrite !append_String, IH.
Qed.

Lemma string_append_nil_r (a : string) : a +:+ EmptyString = a.
Proof. induction a as [|x a IH]; [reflexivity|]. now rewrite append_String, IH. Qed.

Lemma hasChar_app c a b : hasChar c (a +:+ b) = hasChar c a || hasChar c b.
Proof.
  induction a as [|x a IH]; [reflexivity|]. rewrite append_String. simpl.
  now rewrite IH, orb_assoc.
Qed.

Lemma countChar_app c a b :
  countChar c (a +:+ b) = (countChar c a + countChar c b)%nat.
Proof.
  induction a as [|x a IH]; [reflexivity|]. rewrite append_String. simpl.
  rewrite IH. lia.
Qed.

Lemma countChar_hasChar c s : hasChar c s = false -> countChar c s = 0%nat.
Proof.
  induction s as [|x s IH]; simpl; [reflexivity|]. intros H.
  apply orb_false_elim in H as [H1 H2]. rewrite H1, (IH H2). reflexivity.
Qed.

Lemma splitOn_length sep s : length (splitOn sep s) = S (countChar sep s).
Proof.
  induction s as [|x s IH]; simpl; [reflexivity|].
  destruct (Ascii.eqb x sep); simpl; [now rewrite IH|].
  destruct (splitOn sep s); simpl in *; [discriminate | exact IH].
Qed.

Lemma joinLines_length p ls : (length (joinLines p ls) <= length ls)%nat.
Proof.
  revert p. induction ls as [|l ls IH]; intros p; simpl; [lia|].
  match goal with |- context [if ?b then _ else _] => destruct b end; simpl.
  - etransitivity; [apply IH | lia].
  - specialize (IH None). lia.
Qed.

Lemma trimEnd_cons c s :
  trimEnd (String c s) =
  match trimEnd s with
  | EmptyString => if isBlank c then EmptyString else String c EmptyString
  | r => String c r
  end.
Proof. reflexivity. Qed.

Lemma trimStart_hasChar c s : hasChar c s = false -> hasChar c (trimStart s) = false.
Proof.
  induction s as [|x s IH]; simpl; [reflexivity|]. intros H.
  apply orb_false_elim in H as [H1 H2].
  destruct (isBlank x); simpl; [auto | now rewrite H1, H2].
Qed.

Lemma trimEnd_hasChar c s : hasChar c s = false -> hasChar c (trimEnd s) = false.
Proof.
  induction s as [|x s IH]; [reflexivity|]. intros H. simpl in H.
  apply orb_false_elim in H as [H1 H2]. specialize (IH H2). rewrite trimEnd_cons.
  destruct (trimEnd s) as [|y r].
  - destruct (isBlank x); simpl; [reflexivity | now rewrite H1].
  - change (hasChar c (String x (String y r)))
      with (Ascii.eqb x c || hasChar c (String y r)).
    now rewrite H1, IH.
Qed.

Lemma trimEnd_idem s : trimEnd (trimEnd s) = trimEnd s.
Proof.
  induction s as [|x s IH]; [reflexivity|]. rewrite trimEnd_cons.
  destruct (trimEnd s) as [|y r] eqn:E.
  - destruct (isBlank x) eqn:B; [reflexivity|]. rewrite trimEnd_cons. simpl.
    now rewrite B.
  - rewrite trimEnd_cons, IH. reflexivity.
Qed.

Lemma trimStart_starts s : startsBlank (trimStart s) = false.
Proof.
  induction s as [|x s IH]; simpl; [reflexivity|].
  destruct (isBlank x) eqn:B; [exact IH | exact B].
Qed.

Lemma trimStart_id s : startsBlank s = false -> trimStart s = s.
Proof. destruct s as [|x s]; simpl; [reflexivity|]. now intros ->. Qed.

Lemma trimEnd_starts s : startsBlank s = false -> startsBlank (trimEnd s) = false.
Proof.
  destruct s as [|x s]; [reflexivity|]. intros B. simpl in B. rewrite trimEnd_cons.
  destruct (trimEnd s); [rewrite B|]; exact B.
Qed.

Lemma trim_idem s : trim (trim s) = trim s.
Proof.
  unfold trim.
  rewrite (trimStart_id (trimEnd (trimStart s)))
    by apply trimEnd_starts, trimStart_starts.
  apply trimEnd_idem.
Qed.

Lemma trim_hasChar c s : hasChar c s = false -> hasChar c (trim s) = false.
Proof. intros H. unfold trim. now apply trimEnd_hasChar, trimStart_hasChar. Qed.

Lemma stripTrailingQuote_id s : hasChar QUOTE s = false -> stripTrailingQuote s = s.
Proof.
  induction s as [|x s IH]; [reflexivity|]. intros H. simpl in H.
  apply orb_false_elim in H as [H1 H2]. simpl. rewrite H1, (IH H2).
  now destruct s.
Qed.

Lemma stripQuotes_id s : hasChar QUOTE s = false -> stripQuotes s = s.
Proof.
  intros H. unfold stripQuotes.
  assert (stripLeadingQuote s = s) as ->; [|now apply stripTrailingQuote_id].
  destruct s as [|x s]; [reflexivity|]. simpl in *.
  apply orb_false_elim in H as [H1 _]. now rewrite H1.
Qed.

Lemma cleanField_trim cur : hasChar QUOTE cur = false -> cleanField cur = trim cur.
Proof. intros H. unfold cleanField. now apply stripQuotes_id, trim_hasChar. Qed.

Lemma fieldsLoop_clean line : forall cur q,
  hasChar QUOTE cur = false ->
  Forall (fun v => hasChar QUOTE v = false /\ trim v = v) (fieldsLoop line cur q).
Proof.
  assert (Hc : forall cur, hasChar QUOTE cur = false ->
            hasChar QUOTE (cleanField cur) = false /\
            trim (cleanField cur) = cleanField cur).
  { intros cur H. rewrite (cleanField_trim _ H). split; [now apply trim_hasChar|].
    apply trim_idem. }
  induction line as [|char rest IH]; intros cur q H; simpl.
  - constructor; [now apply Hc | constructor].
  - destruct (Ascii.eqb char QUOTE) eqn:Eq; [now apply IH|].
    destruct (Ascii.eqb char COMMA && negb q).
    + constructor; [now apply Hc | now apply IH].
    + apply IH. rewrite hasChar_app, H. simpl. now rewrite Eq.
Qed.

Lemma fieldsLoop_length line : forall cur q,
  (1 <= length (fieldsLoop line cur q) <= S (countChar COMMA line))%nat.
Proof.
  induction line as [|char rest IH]; intros cur q; simpl; [lia|].
  destruct (Ascii.eqb char QUOTE) eqn:Eq.
  - specialize (IH cur (negb q)). lia.
  - destruct (Ascii.eqb char COMMA) eqn:Ec; simpl.
    + destruct (negb q); simpl.
      * specialize (IH EmptyString q). lia.
      * specialize (IH (cur +:+ String char EmptyString) q). lia.
    + specialize (IH (cur +:+ String char EmptyString) q). lia.
Qed.

Lemma combine_snoc {A B} (a : list A) (b : list B) x y :
  length a = length b -> combine (a ++ [x]) (b ++ [y]) = combine a b ++ [(x, y)].
Proof.
  revert b. induction a as [|a0 a IH]; intros [|b0 b] H; simpl in *;
    try discriminate; [reflexivity|].
  f_equal. apply IH. lia.
Qed.

Lemma mkRow_snoc headers h values :
  mkRow (headers ++ [h]) values =
  if String.eqb h PROTO then mkRow headers values
  else <[h := nth (length headers) values EmptyString]> (mkRow headers values).
Proof.
  unfold mkRow. rewrite length_app. simpl.
  replace (length headers + 1)%nat with (S (length headers)) by lia.
  rewrite seq_S, combine_snoc by now rewrite length_seq.
  rewrite fold_left_app. reflexivity.
Qed.

Lemma mkRow_proto headers values : mkRow headers values !! PROTO = None.
Proof.
  induction headers as [|h headers IH] using rev_ind; [reflexivity |].
  rewrite mkRow_snoc. destruct (String.eqb_spec h PROTO) as [-> | Hne]; [exact IH |].
  now rewrite lookup_insert_ne.
Qed.

Lemma mkRow_lookup headers values k v :
  k <> PROTO ->
  (mkRow headers values !! k = Some v <->
   exists idx, nth_error headers idx = Some k /\
               (forall j, (idx < j)%nat -> nth_error headers j <> Some k) /\
               v = nth idx values EmptyString).
Proof.
  intros Hk. revert v. induction headers as [|h headers IH] using rev_ind; intros v.
  - unfold mkRow. simpl. rewrite lookup_empty. split; [discriminate|].
    intros (idx & H & _). now destruct idx.
  - rewrite mkRow_snoc. destruct (decide (h = k)) as [->|Hne].
    + destruct (String.eqb_spec k PROTO) as [| _]; [contradiction |].
      rewrite lookup_insert_eq. split.
      * intros [= <-]. exists (length headers). split; [|split]; [| |reflexivity].
        -- rewrite nth_error_app2 by lia. now rewrite Nat.sub_diag.
        -- intros j Hj. rewrite (proj2 (nth_error_None _ _)); [discriminate|].
           rewrite length_app. simpl. lia.
      * intros (idx & Hn & Hlast & ->). f_equal.
        destruct (Nat.lt_trichotomy idx (length headers)) as [Hl|[->|Hl]];
          [|reflexivity|].
        -- exfalso. apply (Hlast (length headers) Hl).
           rewrite nth_error_app2 by lia. now rewrite Nat.sub_diag.
        -- assert (nth_error (headers ++ [k]) idx = None) as E; [|congruence].
           apply nth_error_None. rewrite length_app. simpl. lia.
    + assert (E : (if String.eqb h PROTO then mkRow headers values
                   else <[h := nth (length headers) values EmptyString]>
                          (mkRow headers values)) !! k
                  = mkRow headers values !! k).
      { destruct (String.eqb h PROTO); [reflexivity |].
        now rewrite lookup_insert_ne. }
      rewrite E, IH. split.
      * intros (idx & Hn & Hlast & ->). exists idx.
        assert (idx < length headers)%nat as Hl.
        { apply nth_error_Some. congruence. }
        split; [|split]; [| |reflexivity].
        -- rewrite nth_error_app1 by exact Hl. exact Hn.
        -- intros j Hj. destruct (Nat.lt_ge_cases j (length headers)) as [Hjl|Hjl].
           ++ rewrite nth_error_app1 by exact Hjl. now apply Hlast.
           ++ rewrite nth_error_app2 by exact Hjl.
              destruct (j - length headers)%nat as [|[|n]]; simpl; congruence.
      * intros (idx & Hn & Hlast & ->). exists idx.
        assert (idx < length headers)%nat as Hl.
        { destruct (Nat.lt_ge_cases idx (length headers)) as [Hl|Hl]; [exact Hl|].
          rewrite nth_error_app2 in Hn by exact Hl.
          destruct (idx - length headers)%nat as [|[|n]]; simpl in Hn; congruence. }
        rewrite nth_error_app1 in Hn by exact Hl.
        split; [exact Hn|]. split; [|reflexivity].
        intros j Hj Hk'. apply (Hlast j Hj).
        destruct (Nat.lt_ge_cases j (length headers)) as [Hjl|Hjl].
        -- rewrite nth_error_app1 by exact Hjl. exact Hk'.
        -- apply nth_error_None in Hjl. congruence.
Qed.

Lemma mkRow_dom headers values k :
  is_Some (mkRow headers values !! k) <-> In k headers /\ k <> PROTO.
Proof.
  induction headers as [|h headers IH] using rev_ind.
  - unfold mkRow. simpl. rewrite lookup_empty. split; [now intros [? ?] | tauto].
  - rewrite mkRow_snoc, in_app_iff. simpl.
    destruct (String.eqb_spec h PROTO) as [-> | Hne].
    + rewrite IH. intuition congruence.
    + rewrite lookup_insert_is_Some, IH.
      destruct (decide (h = k)) as [-> |]; intuition congruence.
Qed.

Lemma filter_length_le {A} (f : A -> bool) l :
  (length (List.filter f l) <= length l)%nat.
Proof. induction l as [|x l IH]; simpl; [lia|]. destruct (f x); simpl; lia. Qed.

Lemma filter_all {A} (f : A -> bool) l :
  Forall (fun x => f x = true) l -> List.filter f l = l.
Proof. induction 1 as [|x l Hx _ IH]; simpl; [reflexivity|]. now rewrite Hx, IH. Qed.

Lemma splitOn_plain sep s : hasChar sep s = false -> splitOn sep s = [s].
Proof.
  induction s as [|x s IH]; simpl; [reflexivity|]. intros H.
  apply orb_false_elim in H as [H1 H2]. now rewrite H1, (IH H2).
Qed.

Lemma splitOn_app sep a b :
  hasChar sep a = false -> splitOn sep (a +:+ String sep b) = a :: splitOn sep b.
Proof.
  induction a as [|x a IH]; intros H.
  - rewrite append_Empty. simpl. now rewrite Ascii.eqb_refl.
  - simpl in H. apply orb_false_elim in H as [H1 H2]. rewrite append_String. simpl.
    now rewrite H1, (IH H2).
Qed.

Lemma joinWith_cons sep x y rest :
  joinWith sep (x :: y :: rest) = x +:+ String sep (joinWith sep (y :: rest)).
Proof. reflexivity. Qed.

Lemma splitOn_joinWith sep ls :
  ls <> [] -> Forall (fun l => hasChar sep l = false) ls ->
  splitOn sep (joinWith sep ls) = ls.
Proof.
  induction ls as [|l ls IH]; [congruence|]. intros _ HF.
  apply Forall_cons in HF as [Hl HF]. destruct ls as [|l' ls'].
  - now apply splitOn_plain.
  - rewrite joinWith_cons, splitOn_app by exact Hl. f_equal. now apply IH.
Qed.

Lemma joinWith_hasChar c sep ls :
  Ascii.eqb sep c = false -> Forall (fun l => hasChar c l = false) ls ->
  hasChar c (joinWith sep ls) = false.
Proof.
  intros Hs. induction ls as [|l ls IH]; [reflexivity|]. intros HF.
  apply Forall_cons in HF as [Hl HF]. destruct ls as [|l' ls']; [exact Hl|].
  rewrite joinWith_cons, hasChar_app, Hl. cbn [hasChar orb]. rewrite Hs. now apply IH.
Qed.

Lemma renderCell_hasChar c cell :
  Ascii.eqb QUOTE c = false -> hasChar c (snd cell) = false ->
  hasChar c (renderCell cell) = false.
Proof.
  intros Hq Hc. unfold renderCell. destruct (fst cell); [|exact Hc].
  cbn [hasChar]. rewrite hasChar_app, Hq, Hc. cbn [hasChar]. now rewrite Hq.
Qed.

Lemma renderLine_no_newline cells :
  Forall okCell cells -> hasChar NEWLINE (renderLine cells) = false.
Proof.
  intros HF. apply joinWith_hasChar; [reflexivity|].
  apply List.Forall_forall. intros l Hl. apply in_map_iff in Hl as (cell & <- & Hc).
  apply renderCell_hasChar; [reflexivity|].
  apply (proj1 (List.Forall_forall _ _) HF cell Hc).
Qed.

Lemma renderCell_quotes cell :
  hasChar QUOTE (snd cell) = false ->
  Nat.odd (countChar QUOTE (renderCell cell)) = false.
Proof.
  intros Hq. unfold renderCell. destruct (fst cell).
  - cbn [countChar]. rewrite countChar_app, (countChar_hasChar _ _ Hq).
    cbn [countChar]. rewrite Ascii.eqb_refl. reflexivity.
  - now rewrite (countChar_hasChar _ _ Hq).
Qed.

Lemma renderLine_quotes_even cells :
  Forall okCell cells -> Nat.odd (countChar QUOTE (renderLine cells)) = false.
Proof.
  unfold renderLine. induction cells as [|c cells IH]; [reflexivity|]. intros HF.
  apply Forall_cons in HF as [Hc HF]. destruct cells as [|c' cells'].
  - apply renderCell_quotes, Hc.
  - cbn [List.map] in *. rewrite joinWith_cons, countChar_app. cbn [countChar].
    change (Ascii.eqb COMMA QUOTE) with false. cbn [Nat.add].
    rewrite Nat.odd_add, (renderCell_quotes c (proj1 Hc)), (IH HF). reflexivity.
Qed.

Lemma joinLines_even ls :
  Forall (fun l => Nat.odd (countChar QUOTE l) = false) ls -> joinLines None ls = ls.
Proof.
  induction 1 as [|l ls Hl _ IH]; simpl; [reflexivity|]. now rewrite Hl, IH.
Qed.

Lemma fieldsLoop_quote_step rest cur q :
  fieldsLoop (String QUOTE rest) cur q = fieldsLoop rest cur (negb q).
Proof. reflexivity. Qed.

Lemma fieldsLoop_comma_step rest cur :
  fieldsLoop (String COMMA rest) cur false =
  cleanField cur :: fieldsLoop rest EmptyString false.
Proof. reflexivity. Qed.

Lemma fieldsLoop_plain s : forall r cur,
  hasChar QUOTE s = false -> hasChar COMMA s = false ->
  fieldsLoop (s +:+ r) cur false = fieldsLoop r (cur +:+ s) false.
Proof.
  induction s as [|x s IH]; intros r cur Hq Hc.
  - now rewrite append_Empty, string_append_nil_r.
  - simpl in Hq, Hc. apply orb_false_elim in Hq as [Hq1 Hq2].
    apply orb_false_elim in Hc as [Hc1 Hc2]. rewrite append_String. simpl.
    rewrite Hq1, Hc1. simpl. rewrite (IH _ _ Hq2 Hc2), string_append_assoc.
    reflexivity.
Qed.

Lemma fieldsLoop_quoted s : forall r cur,
  hasChar QUOTE s = false ->
  fieldsLoop (s +:+ r) cur true = fieldsLoop r (cur +:+ s) true.
Proof.
  induction s as [|x s IH]; intros r cur Hq.
  - now rewrite append_Empty, string_append_nil_r.
  - simpl in Hq. apply orb_false_elim in Hq as [Hq1 Hq2]. rewrite append_String.
    simpl. rewrite Hq1, andb_false_r, (IH _ _ Hq2), string_append_assoc.
    reflexivity.
Qed.

Lemma fieldsLoop_cell cell r :
  okCell cell ->
  fieldsLoop (renderCell cell +:+ r) EmptyString false = fieldsLoop r (snd cell) false.
Proof.
  destruct cell as [quoted c]. unfold okCell, renderCell. cbn [fst snd].
  intros (Hq & _ & _ & Hc). destruct quoted.
  - rewrite append_String, string_append_assoc, append_String, append_Empty.
    rewrite fieldsLoop_quote_step, (fieldsLoop_quoted _ _ _ Hq), append_Empty.
    apply fieldsLoop_quote_step.
  - rewrite (fieldsLoop_plain _ _ _ Hq (Hc eq_refl)). now rewrite append_Empty.
Qed.

Lemma cleanField_cell cell : okCell cell -> cleanField (snd cell) = snd cell.
Proof. intros (Hq & _ & Ht & _). now rewrite (cleanField_trim _ Hq). Qed.

Lemma splitFields_renderLine cells :
  cells <> [] -> Forall okCell cells ->
  splitFields (renderLine cells) = List.map snd cells.
Proof.
  unfold splitFields, renderLine.
  induction cells as [|c cells IH]; [congruence|]. intros _ HF.
  apply Forall_cons in HF as [Hc HF]. destruct cells as [|c' cells'].
  - cbn [List.map joinWith]. rewrite <- (string_append_nil_r (renderCell c)).
    rewrite (fieldsLoop_cell _ _ Hc). cbn [fieldsLoop].
    now rewrite (cleanField_cell _ Hc).
  - cbn [List.map] in *. rewrite joinWith_cons, (fieldsLoop_cell _ _ Hc).
    rewrite fieldsLoop_comma_step, (cleanField_cell _ Hc). f_equal.
    now apply IH.
Qed.

Lemma parseCSV_row_In text row :
  In row (parseCSV text) ->
  (forall k, is_Some (row !! k) <-> In k (headersOf text) /\ k <> PROTO) /\
  (forall k v, row !! k = Some v ->
     hasChar QUOTE k = false /\ trim k = k /\
     hasChar QUOTE v = false /\ trim v = v).
Proof.
  unfold parseCSV, headersOf.
  destruct (length (splitOn NEWLINE text) <? 2)%nat; [intros []|].
  set (headers := splitFields (hd EmptyString (splitOn NEWLINE text))).
  intros Hrow. apply in_map_iff in Hrow as (line & <- & _). split.
  - intros k. apply mkRow_dom.
  - intros k v Hkv.
    pose proof (fieldsLoop_clean (hd EmptyString (splitOn NEWLINE text))
                  EmptyString false eq_refl) as Hh.
    pose proof (fieldsLoop_clean line EmptyString false eq_refl) as Hv.
    fold (splitFields (hd EmptyString (splitOn NEWLINE text))) in Hh.
    fold headers in Hh. fold (splitFields line) in Hv.
    assert (Hk : In k headers /\ k <> PROTO)
      by (apply (mkRow_dom headers (splitFields line)); eauto).
    destruct Hk as [Hk Hnp].
    destruct (proj1 (List.Forall_forall _ _) Hh k Hk) as [Hk1 Hk2].
    apply (mkRow_lookup _ _ _ _ Hnp) in Hkv as (idx & _ & _ & ->).
    split; [exact Hk1|]. split; [exact Hk2|].
    destruct (nth_in_or_default idx (splitFields line) EmptyString) as [Hin| ->].
    + apply (proj1 (List.Forall_forall _ _) Hv _ Hin).
    + split; reflexivity.
Qed.

Lemma parseCSV_length text :
  (length (parseCSV text) <= countChar NEWLINE text)%nat.
Proof.
  unfold parseCSV. pose proof (splitOn_length NEWLINE text) as Hl.
  destruct (length (splitOn NEWLINE text) <? 2)%nat; [simpl; lia|].
  rewrite length_map.
  etransitivity; [apply filter_length_le|].
  etransitivity; [apply joinLines_length|].
  destruct (splitOn NEWLINE text); simpl in *; lia.
Qed.

(** X16.  Every row that [parseCSV] returns is an object whose own fields
    are the header fields of the first line, whatever the number of fields
    of its own line, but for a header [__proto__], which makes no field;
    neither a key nor a value holds a double quote or begins or ends with a
    blank. *)
Theorem parseCSV_rows text :
  Forall (fun row =>
            (forall k, is_Some (row !! k) <-> In k (headersOf text) /\ k <> PROTO) /\
            (forall k v, row !! k = Some v ->
               hasChar QUOTE k = false /\ trim k = k /\
               hasChar QUOTE v = false /\ trim v = v))
         (parseCSV text).
Proof.
  apply List.Forall_forall. intros row Hrow. now apply parseCSV_row_In.
Qed.

(** X17.  [parseCSV] returns at most one row per line break of the text, and
    no row for a text of one line: the first line is only ever the header. *)
Theorem parseCSV_row_count text :
  (length (parseCSV text) <= countChar NEWLINE text)%nat /\
  (hasChar NEWLINE text = false -> parseCSV text = []).
Proof.
  pose proof (parseCSV_length text) as H.
  split; [exact H|]. intros Hn. rewrite (countChar_hasChar _ _ Hn) in H.
  destruct (parseCSV text); [reflexivity | simpl in H; lia].
Qed.

(** X18.  The object built for a row holds under a header name other than
    [__proto__] the field at the position of the last header of that name,
    and the empty string where the line has no field at that position; it
    holds no field of its own under [__proto__].  With distinct headers every
    header other than [__proto__] reads the field at its own position. *)
Theorem row_value_of_last_header headers values :
  (forall k v,
     k <> PROTO ->
     (mkRow headers values !! k = Some v <->
      exists idx, nth_error headers idx = Some k /\
                  (forall j, (idx < j)%nat -> nth_error headers j <> Some k) /\
                  v = nth idx values EmptyString)) /\
  mkRow headers values !! PROTO = None /\
  (List.NoDup headers ->
   forall idx h, nth_error headers idx = Some h -> h <> PROTO ->
     mkRow headers values !! h = Some (nth idx values EmptyString) /\
     ((length values <= idx)%nat -> mkRow headers values !! h = Some EmptyString)).
Proof.
  split; [intros k v; apply mkRow_lookup |].
  split; [apply mkRow_proto |].
  intros Hnd idx h Hn Hnp.
  assert (H : mkRow headers values !! h = Some (nth idx values EmptyString)).
  { apply (mkRow_lookup _ _ _ _ Hnp). exists idx. split; [exact Hn|].
    split; [|reflexivity].
    intros j Hj Hk. pose proof (proj1 (List.NoDup_nth_error headers) Hnd idx j) as Hu.
    assert (idx < length headers)%nat by (apply nth_error_Some; congruence).
    specialize (Hu ltac:(assumption) ltac:(congruence)). lia. }
  split; [exact H|]. intros Hlen. rewrite H. f_equal. now apply nth_overflow.
Qed.

(** X19.  Reading back a written table.  A table whose cells hold no quote
    and no line break, have no blank at either end, and hold a comma only
    when written between quotes, with at least one header and no line that
    is blank, is read by [parseCSV] as the rows it was written from: each row
    maps the headers to the cells of its line. *)
Theorem parseCSV_round_trip header rows :
  header <> [] ->
  Forall okCell header ->
  Forall (fun cells => Forall okCell cells /\ isBlankLine (renderLine cells) = false)
         rows ->
  parseCSV (renderCSV header rows) =
  List.map (fun cells => mkRow (List.map snd header) (List.map snd cells)) rows.
Proof.
  intros Hne Hh Hr.
  assert (Hrows : forall cells, In cells rows ->
            Forall okCell cells /\ isBlankLine (renderLine cells) = false).
  { apply List.Forall_forall, Hr. }
  assert (Hlines : splitOn NEWLINE (renderCSV header rows) =
                   renderLine header :: List.map renderLine rows).
  { unfold renderCSV. apply splitOn_joinWith; [discriminate|].
    constructor; [now apply renderLine_no_newline|].
    apply List.Forall_forall. intros l Hl.
    apply in_map_iff in Hl as (cells & <- & Hc).
    apply renderLine_no_newline, (Hrows _ Hc). }
  unfold parseCSV. rewrite Hlines. destruct rows as [|r rows']; [reflexivity|].
  remember (r :: rows') as rows eqn:Erows.
  assert ((length (renderLine header :: List.map renderLine rows) <? 2)%nat = false)
    as ->.
  { subst rows. reflexivity. }
  cbn [hd tl]. rewrite (splitFields_renderLine _ Hne Hh).
  rewrite joinLines_even, filter_all.
  - rewrite List.map_map. apply List.map_ext_in. intros cells Hc.
    destruct (Hrows _ Hc) as [Hok Hnb]. rewrite splitFields_renderLine; auto.
    intros ->. discriminate Hnb.
  - apply List.Forall_forall. intros l Hl.
    apply in_map_iff in Hl as (cells & <- & Hc). now rewrite (proj2 (Hrows _ Hc)).
  - apply List.Forall_forall. intros l Hl.
    apply in_map_iff in Hl as (cells & <- & Hc).
    apply renderLine_quotes_even, (Hrows _ Hc).
Qed.

(** * From the rows of the CSV text to transactions *)

Lemma removeChars_app f a b :
  removeChars f (a +:+ b) = removeChars f a +:+ removeChars f b.
Proof.
  induction a as [|x a IH]; [reflexivity|]. rewrite append_String. simpl.
  destruct (f x); [exact IH | now rewrite append_String, IH].
Qed.

Lemma removeChars_hasChar f s c : f c = true -> hasChar c (removeChars f s) = false.
Proof.
  intros Hc. induction s as [|x s IH]; simpl; [reflexivity|].
  destruct (f x) eqn:Ex; [exact IH|]. simpl. rewrite IH, orb_false_r.
  destruct (Ascii.eqb_spec x c) as [->|]; congruence.
Qed.

Lemma removeChars_amount_price s :
  hasChar LPAREN s = false -> hasChar RPAREN s = false ->
  removeChars amountNoise s = removeChars priceNoise s.
Proof.
  induction s as [|x s IH]; simpl; [reflexivity|]. intros Hl Hr.
  apply orb_false_elim in Hl as [Hl1 Hl2]. apply orb_false_elim in Hr as [Hr1 Hr2].
  assert (amountNoise x = priceNoise x) as ->.
  { unfold amountNoise, priceNoise. now rewrite Hl1, Hr1. }
  now rewrite (IH Hl2 Hr2).
Qed.

Lemma endsWith_app c x : endsWith c (x +:+ String c EmptyString) = true.
Proof.
  induction x as [|a x IH].
  - rewrite append_Empty. simpl. apply Ascii.eqb_refl.
  - rewrite append_String. destruct (x +:+ String c EmptyString) as [|b r] eqn:E.
    + destruct x; discriminate E.
    + exact IH.
Qed.

Lemma startsWith_hasChar c s : hasChar c s = false -> startsWith c s = false.
Proof. destruct s as [|x s]; simpl; [reflexivity|]. now intros [H _]%orb_false_elim. Qed.

Lemma trim_empty_of_eq s v : trim s = v -> v <> EmptyString ->
  String.eqb s EmptyString || String.eqb (trim s) EmptyString = false.
Proof.
  intros Ht Hv. apply orb_false_intro; apply String.eqb_neq.
  - intros ->. now apply Hv.
  - congruence.
Qed.

Section IngestionProperties.

Variable parseFloat : string -> option Q.
Variable dateOf : string -> Z.

Lemma ingestRow_Some row t :
  ingestRow parseFloat dateOf row = Some t ->
  (0 < quantity t)%Q /\ ticker t <> EmptyString /\
  option_map trim (row !! "Instrument"%string) = Some (ticker t) /\
  option_map trim (row !! "Trans Code"%string) =
    Some (match transType t with Buy => "Buy" | Sell => "Sell" end)%string /\
  quantity t = parseQuantity parseFloat (row !! "Quantity"%string) /\
  price t = parsePrice parseFloat (row !! "Price"%string) /\
  amount t = parseAmount parseFloat (row !! "Amount"%string).
Proof.
  unfold ingestRow.
  destruct (option_map trim (row !! "Trans Code"%string)) as [code|]; [|discriminate].
  destruct (String.eqb_spec code "Buy") as [->|Hb];
    [|destruct (String.eqb_spec code "Sell") as [->|Hs]; [|discriminate]];
    cbn [negb andb];
    (destruct (parseDate dateOf (row !! "Activity Date"%string)) as [d|];
     [|discriminate]);
    (destruct (option_map trim (row !! "Instrument"%string)) as [tk|];
     [|discriminate]);
    (destruct (String.eqb_spec tk EmptyString) as [|Hne]; [discriminate|]);
    (destruct (Qle_bool (parseQuantity parseFloat (row !! "Quantity"%string)) 0)
       eqn:Eq; [discriminate|]);
    intros [= <-]; cbn [quantity ticker transType price amount];
    (repeat split; try assumption; try reflexivity);
    apply Qnot_le_lt; intros Hle; apply Qle_bool_iff in Hle; congruence.
Qed.

Lemma ingest_In t rows :
  In t (ingest parseFloat dateOf rows) <->
  exists row, In row rows /\ ingestRow parseFloat dateOf row = Some t.
Proof.
  induction rows as [|row rows IH]; simpl.
  - split; [tauto | now intros (? & [] & _)].
  - destruct (ingestRow parseFloat dateOf row) as [t'|] eqn:E; simpl; rewrite IH.
    + split.
      * intros [<-|(r & Hr & Ht)]; [exists row; auto | exists r; auto].
      * intros (r & [<-|Hr] & Ht); [left; congruence | right; eauto].
    + split.
      * intros (r & Hr & Ht). exists r; auto.
      * intros (r & [<-|Hr] & Ht); [congruence | eauto].
Qed.

Lemma ingest_length rows :
  (length (ingest parseFloat dateOf rows) <= length rows)%nat.
Proof.
  induction rows as [|row rows IH]; simpl; [lia|].
  destruct (ingestRow parseFloat dateOf row); simpl; lia.
Qed.

Lemma ingest_app a b :
  ingest parseFloat dateOf (a ++ b) =
  ingest parseFloat dateOf a ++ ingest parseFloat dateOf b.
Proof.
  induction a as [|row a IH]; simpl; [reflexivity|].
  destruct (ingestRow parseFloat dateOf row); simpl; now rewrite IH.
Qed.

Lemma ingest_positive rows :
  Forall (fun t => (0 < quantity t)%Q) (ingest parseFloat dateOf rows).
Proof.
  apply List.Forall_forall. intros t Ht. apply ingest_In in Ht as (row & _ & Ht).
  apply (ingestRow_Some _ _ Ht).
Qed.

(** X20.  The loop of lines 109-130 only lets through rows that make a
    usable transaction: every transaction it builds has a quantity above
    zero and a ticker that is not empty and has no blank at either end,
    and stems from a row whose trimmed code is Buy or Sell as its type
    says, with quantity, price and amount read from that row.  It builds
    at most one transaction per row, in the order of the rows. *)
Theorem ingest_valid rows :
  Forall (fun t =>
            (0 < quantity t)%Q /\ ticker t <> EmptyString /\
            trim (ticker t) = ticker t /\
            exists row,
              In row rows /\
              option_map trim (row !! "Instrument"%string) = Some (ticker t) /\
              option_map trim (row !! "Trans Code"%string) =
                Some (match transType t with Buy => "Buy" | Sell => "Sell" end)%string /\
              quantity t = parseQuantity parseFloat (row !! "Quantity"%string) /\
              price t = parsePrice parseFloat (row !! "Price"%string) /\
              amount t = parseAmount parseFloat (row !! "Amount"%string))
         (ingest parseFloat dateOf rows) /\
  (length (ingest parseFloat dateOf rows) <= length rows)%nat /\
  (forall more,
     ingest parseFloat dateOf (rows ++ more) =
     ingest parseFloat dateOf rows ++ ingest parseFloat dateOf more).
Proof.
  split; [|split; [apply ingest_length | apply ingest_app]].
  apply List.Forall_forall. intros t Ht. apply ingest_In in Ht as (row & Hrow & Ht).
  destruct (ingestRow_Some _ _ Ht) as (Hq & Hne & Hi & Hc & Hrest).
  split; [exact Hq|]. split; [exact Hne|]. split.
  - destruct (row !! "Instrument"%string) as [v|]; [|discriminate].
    injection Hi as <-. apply trim_idem.
  - exists row. auto.
Qed.

(** X21.  [parseAmount] reads the accounting form of a negative amount: a
    string that is, once trimmed, enclosed in parentheses gives minus the
    number read from what is inside, cleaned of parentheses, dollar signs
    and commas.  On a string without parentheses it agrees with
    [parsePrice].  None of the four characters is left in the string that
    [parseFloat] is given. *)
Theorem parseAmount_sign :
  (forall s body,
     trim s = String LPAREN (body +:+ String RPAREN EmptyString) ->
     parseAmount parseFloat (Some s) =
     (- orZero (parseFloat (removeChars amountNoise body)))%Q) /\
  (forall s,
     hasChar LPAREN s = false -> hasChar RPAREN s = false ->
     parseAmount parseFloat (Some s) = parsePrice parseFloat (Some s)) /\
  (forall s c, amountNoise c = true ->
     hasChar c (removeChars amountNoise s) = false).
Proof.
  split; [|split].
  - intros s body Ht. unfold parseAmount.
    rewrite (trim_empty_of_eq s _ Ht) by discriminate. cbn zeta. rewrite Ht.
    assert (startsWith LPAREN (String LPAREN (body +:+ String RPAREN EmptyString))
            = true) as -> by apply Ascii.eqb_refl.
    assert (endsWith RPAREN (String LPAREN (body +:+ String RPAREN EmptyString))
            = true) as ->.
    { rewrite <- append_String. apply endsWith_app. }
    cbn [andb]. rewrite <- append_String, removeChars_app.
    change (removeChars amountNoise (String RPAREN EmptyString)) with EmptyString.
    rewrite string_append_nil_r.
    change (removeChars amountNoise (String LPAREN body))
      with (removeChars amountNoise body).
    reflexivity.
  - intros s Hl Hr. unfold parseAmount, parsePrice.
    destruct (String.eqb s EmptyString || String.eqb (trim s) EmptyString);
      [reflexivity|].
    cbn zeta.
    rewrite (startsWith_hasChar _ _ (trim_hasChar _ _ Hl)). cbn [andb].
    now rewrite (removeChars_amount_price _ (trim_hasChar _ _ Hl) (trim_hasChar _ _ Hr)).
  - intros s c Hc. now apply removeChars_hasChar.
Qed.

Lemma plainRowsb_sound rows :
  plainRowsb parseFloat dateOf rows = true -> plainRows parseFloat dateOf rows.
Proof.
  unfold plainRowsb, plainRows. intros H. apply List.Forall_forall.
  intros row Hrow t Ht. rewrite forallb_forall in H. specialize (H row Hrow).
  rewrite Ht in H. apply andb_true_iff in H as [Hd Hn]. split.
  - destruct (row !! "Activity Date"%string) as [d |]; [| discriminate].
    exists d. now split.
  - intros Hin. apply negb_true_iff in Hn.
    assert (E : existsb (String.eqb (ticker t)) objectPrototypeNames = true);
      [| congruence].
    apply existsb_exists. exists (ticker t). split; [exact Hin |].
    apply String.eqb_refl.
Qed.

(** X22.  The report of a text whose rows have readable dates and tickers
    that are no property names of [Object.prototype]: every transaction has
    a positive quantity and a non-empty ticker without quotes or blanks at
    its ends; every loss sale has a positive quantity and a positive loss;
    every violation disallows a positive amount that does not exceed the
    loss of its sale; and the transactions are no more than the line breaks
    of the text. *)
Theorem text_report_sound text asOf :
  plainRows parseFloat dateOf (parseCSV text) ->
  let r := processTransactionsOfText parseFloat dateOf text asOf in
  Forall (fun t => (0 < quantity t)%Q /\ ticker t <> EmptyString /\
                   trim (ticker t) = ticker t /\ hasChar QUOTE (ticker t) = false)
         (r_transactions r) /\
  Forall (fun ls => (0 < ls_quantity ls)%Q /\ (0 < lossAmount ls)%Q)
         (r_lossSales r) /\
  Forall (fun v => (0 < disallowedLoss v)%Q /\
                   (disallowedLoss v <= lossAmount (lossSale v))%Q)
         (r_violations r) /\
  (total (r_summary r) <= countChar NEWLINE text)%nat.
Proof.
  intros _.
  cbv zeta. unfold processTransactionsOfText.
  set (rows := ingest parseFloat dateOf (parseCSV text)).
  assert (Hpos : Forall (fun t => (0 < quantity t)%Q) (Array_sort compareTxn rows)).
  { apply List.Forall_forall. intros t Ht.
    apply (proj1 (Array_sort_In compareTxn rows t)) in Ht.
    revert t Ht. apply List.Forall_forall, ingest_positive. }
  split; [|split; [|split]].
  - apply List.Forall_forall. intros t Ht.
    unfold processTransactions in Ht. cbn [r_transactions] in Ht.
    apply (proj1 (Array_sort_In compareTxn rows t)) in Ht.
    apply ingest_In in Ht as (row & Hrow & Ht).
    destruct (ingestRow_Some _ _ Ht) as (Hq & Hne & Hi & _).
    split; [exact Hq|]. split; [exact Hne|].
    destruct (row !! "Instrument"%string) as [v|] eqn:Ev; [|discriminate].
    injection Hi as <-. split; [apply trim_idem|].
    apply trim_hasChar.
    apply (proj2 (parseCSV_row_In text row Hrow) _ _ Ev).
  - apply List.Forall_forall. intros ls Hls.
    unfold processTransactions in Hls. cbn [r_lossSales] in Hls.
    split; [apply (run_lossSales_fill _ _ _ Hpos Hls)
           | apply (run_lossSales_shape _ _ _ Hls)].
  - apply List.Forall_forall. intros v Hv.
    destruct (report_violations_sound rows asOf v Hv)
      as (Hls & _ & _ & _ & Hf & b & Hb & _ & _ & _ & Hq).
    unfold processTransactions in Hls. cbn [r_lossSales] in Hls.
    destruct (run_lossSales_fill _ _ _ Hpos Hls) as (Hlq & _).
    destruct (run_lossSales_shape _ _ _ Hls) as (HL & _).
    assert (Hbq : (0 < buyQuantity v)%Q).
    { rewrite <- Hq. rewrite List.Forall_forall in Hpos. now apply Hpos. }
    rewrite Hf.
    destruct (disallowed_bounds _ _ _ Hbq Hlq HL) as (H1 & H2 & _). now split.
  - unfold processTransactions. cbn [r_summary summarize total].
    rewrite (Permutation_length (Array_sort_perm compareTxn rows)).
    etransitivity; [apply ingest_length | apply parseCSV_length].
Qed.

End IngestionProperties.

End Properties.

(** * The statements at sample inputs *)

(** The samples are read on Greenwich time unless a zone is named. *)
#[export] Existing Instance fixedZone.



(** The window counts days of the calendar: in the zone that leaves
    daylight-saving time on 2024-11-03, a buy on 2024-11-19 answers the loss
    sale of 2024-10-20, thirty days of the calendar and one hour more than
    thirty days of 24 hours before it. *)
Example wash_window_across_autumn :
  let D := localMidnight (tz := autumnZone) 2024 10 20 in
  let B := localMidnight (tz := autumnZone) 2024 11 19 in
  let rows := [mkTransaction (localMidnight (tz := autumnZone) 2024 9 1)
                             "T" Buy 10 10 (-100);
               mkTransaction D "T" Sell 10 5 50;
               mkTransaction B "T" Buy 5 5 (-25)]%Q in
  B = addDays (tz := autumnZone) D 30 /\
  B - D = 30 * MS_PER_DAY + HOUR /\
  isInWashWindow (tz := autumnZone) D B = true /\
  List.map (fun v => (saleDate (lossSale v), buyDate v))
           (r_violations (processTransactions (tz := autumnZone) rows 0)) = [(D, B)].
Proof. vm_compute. repeat split. Qed.

Lemma same_day_buy_no_violation_witness :
  r_violations (processTransactions rows_same_day 0) = [] /\
  ~ exists v, In v (r_violations (processTransactions rows_same_day 0)) /\
              v_ticker v = "T"%string /\
              saleDate (lossSale v) = day 5 /\ buyDate v = day 5.
Proof.
  split; [reflexivity |].
  refine (proj2 (proj2 (same_day_buy_no_violation rows_same_day 0
            (mkLossSale "T" (day 5) (0 + 10) 5 (10 * 5 * ((0 + 10) / 10))
               (0 + 10 * 10) (Qabs (10 * 5 * ((0 + 10) / 10) - (0 + 10 * 10))))%Q
            (buyOf 5 "T" 10 10) _ _ _ _ _))).
  - vm_compute. left. reflexivity.
  - vm_compute. auto.
  - reflexivity.
  - reflexivity.
  - reflexivity.
Defined.

Lemma dedup_exactly_one_witness :
  countKey "T" (day 10) (day 0)
           (r_violations (processTransactions rows_dedup 0)) = 1%nat.
Proof.
  refine (proj1 (dedup_exactly_one rows_dedup 0
            (mkLossSale "T" (day 10) (0 + 5 + 5) 5 (10 * 5 * ((0 + 5 + 5) / 10))
               (0 + 5 * 10 + 5 * 10)
               (Qabs (10 * 5 * ((0 + 5 + 5) / 10) - (0 + 5 * 10 + 5 * 10))))%Q
            (buyOf 0 "T" 5 10) _ _ _ _ _ _)).
  - vm_compute. left. reflexivity.
  - vm_compute. auto.
  - reflexivity.
  - reflexivity.
  - reflexivity.
  - reflexivity.
Defined.

(** The key does not tell two loss sales of one ticker and day apart: the
    buy before them is charged to the first only. *)
Example dedup_two_sales_one_violation :
  length (r_lossSales (processTransactions rows_two_sales 0)) = 2%nat /\
  List.map (fun v => (saleDate (lossSale v), buyDate v))
           (r_violations (processTransactions rows_two_sales 0)) = [(day 10, day 0)].
Proof. split; reflexivity. Qed.

Lemma disallowed_loss_formula_witness :
  exists v, In v (r_violations (processTransactions rows_uncapped 0)) /\
            buyDate v = day 60 /\
            disallowedLoss v =
              (Qmin 100 (ls_quantity (lossSale v))
               / ls_quantity (lossSale v) * lossAmount (lossSale v))%Q.
Proof.
  destruct (proj1 (disallowed_loss_formula rows_uncapped 0)
              (nth 0 (r_violations (processTransactions rows_uncapped 0))
                   (mkViolation "" (mkLossSale "" 0 0 0 0 0 0) 0 0 0)))
    as (b & _ & _ & _ & _ & _ & Hf).
  - vm_compute. left. reflexivity.
  - eexists. split; [left; reflexivity |]. split; reflexivity.
Defined.

Lemma active_window_expiry_witness :
  In (mkLossSale "T" (day 10) 1 1 1 2 1)
     (activeWindows [mkLossSale "T" (day 10) 1 1 1 2 1] (day 40)) /\
  ~ In (mkLossSale "T" (day 10) 1 1 1 2 1)
       (activeWindows [mkLossSale "T" (day 10) 1 1 1 2 1] (day 41)) /\
  daysUntil (getSafeDate (day 10)) (day 40) = 1.
Proof.
  split; [| split].
  - refine (proj1 (proj2 (active_window_expiry
              [mkLossSale "T" (day 10) 1 1 1 2 1] (mkLossSale "T" (day 10) 1 1 1 2 1)
              (day 40) _)) _).
    + left. reflexivity.
    + vm_compute. discriminate.
  - refine (proj1 (proj2 (proj2 (active_window_expiry
              [mkLossSale "T" (day 10) 1 1 1 2 1] (mkLossSale "T" (day 10) 1 1 1 2 1)
              (day 41) _))) _).
    + left. reflexivity.
    + vm_compute. discriminate.
  - refine (proj2 (proj1 (proj2 (proj2 (proj2 (active_window_expiry
              [mkLossSale "T" (day 10) 1 1 1 2 1] (mkLossSale "T" (day 10) 1 1 1 2 1)
              (day 40) _)))) _) _).
    + left. reflexivity.
    + vm_compute. split; [discriminate | reflexivity].
    + vm_compute. discriminate.
Defined.

(** C4 fails where a day has 25 hours.  In the zone that leaves daylight-
    saving time on 2024-11-03, a loss sale of 2024-10-04 is still an active
    window at midnight of 2024-11-03, which is day [D + 30]; its safe date is
    midnight of 2024-11-04, 25 hours later, and the days remaining are 2. *)
Lemma active_window_expiry_autumn :
  let D := localMidnight (tz := autumnZone) 2024 10 4 in
  let asOf := localMidnight (tz := autumnZone) 2024 11 3 in
  let ls := mkLossSale "T" D 1 1 1 2 1 in
  asOf = addDays (tz := autumnZone) D 30 /\
  activeWindows (tz := autumnZone) [ls] asOf = [ls] /\
  getSafeDate (tz := autumnZone) D = localMidnight (tz := autumnZone) 2024 11 4 /\
  getSafeDate (tz := autumnZone) D - asOf = 25 * HOUR /\
  daysUntil (getSafeDate (tz := autumnZone) D) asOf = 2.
Proof. vm_compute. repeat split. Qed.

Lemma checkTicker_exact_upper_witness :
  checkTicker (activeWindows (r_lossSales (processTransactions rows_uncapped 0)) (day 83))
              (day 83) " xyz "
  = checkTicker (activeWindows (r_lossSales (processTransactions rows_uncapped 0)) (day 83))
              (day 83) "XYZ".
Proof.
  refine (proj2 (proj2 (proj2 (checkTicker_exact_upper
            (r_lossSales (processTransactions rows_uncapped 0)) (day 83) "XYZ" _)))
          " xyz "%string _).
  - vm_compute. discriminate.
  - reflexivity.
Defined.

Lemma upperChar_not_x c : upperChar c <> ascii_of_nat 120.
Proof.
  destruct c as [[] [] [] [] [] [] [] []]; vm_compute; discriminate.
Qed.

(** C3 fails on the code: an active window recorded under the ticker
    ["xyz"] matches the query ["xyz"] letter for letter, and the check
    reports the upper-cased ticker safe.  No query at all is answered by a
    warning, since the line that upper-cases the query leaves the stored
    ticker as it is. *)
Lemma checkTicker_case_counterexample :
  (exists w, In w (activeWindows (r_lossSales (processTransactions rows_lowercase (day 60)))
                                 (day 60)) /\
             ls_ticker w = "xyz"%string /\
             toUpperCase (ls_ticker w) = toUpperCase "xyz") /\
  checkTickerOn (processTransactions rows_lowercase (day 60)) (day 60) "xyz"
  = Some (SafeResult "XYZ") /\
  (forall t u ws safe days,
     checkTickerOn (processTransactions rows_lowercase (day 60)) (day 60) t
     <> Some (WarningResult u ws safe days)).
Proof.
  split; [| split; [reflexivity |]].
  - eexists. split; [vm_compute; left; reflexivity |]. split; reflexivity.
  - intros t u ws safe days. unfold checkTickerOn.
    destruct (string_dec (trim t) EmptyString) as [Eb | Hne].
    + rewrite (checkTicker_blank _ _ _ Eb). discriminate.
    + rewrite (checkTicker_unfold _ _ _ Hne). cbv zeta.
      assert (E : List.filter
                    (fun w => String.eqb (ls_ticker w) (toUpperCase (trim t)))
                    (activeWindows
                       (r_lossSales (processTransactions rows_lowercase (day 60)))
                       (day 60)) = []).
      { change (activeWindows _ (day 60))
          with [mkLossSale "xyz" (day 59) (0 + 100) 6
                  (100 * 6 * ((0 + 100) / 100))%Q (0 + 100 * 10)%Q
                  (Qabs (100 * 6 * ((0 + 100) / 100) - (0 + 100 * 10)))%Q].
        cbn [List.filter ls_ticker].
        destruct (String.eqb_spec "xyz" (toUpperCase (trim t))) as [E |];
          [| reflexivity].
        exfalso. destruct (trim t) as [| c r]; [discriminate E |].
        cbn [toUpperCase] in E. injection E as E _.
        symmetry in E. exact (upperChar_not_x c E). }
      rewrite E. discriminate.
Qed.

(** The safe date starts from the epoch: for a reference date before 1970
    it can exceed every [saleDate + 31 days]. *)
Lemma checkTicker_before_epoch :
  checkTicker (activeWindows [mkLossSale "T" (day (-100)) 1 1 1 2 1] (day (-90)))
              (day (-90)) "T"
  = Some (WarningResult "T" [mkLossSale "T" (day (-100)) 1 1 1 2 1] 0 90).
Proof. reflexivity. Qed.

Lemma sell_warning_iff_no_lots_witness :
  step [] state_one_lot (sellOf 5 "U" 10 5) =
    mkState (lots state_one_lot) [] [] [mkWarning "U" (day 5)] /\
  warnings (step [] state_one_lot (mkTransaction (day 1) "T" Sell 25 2 50)) = [] /\
  List.map proceeds (r_lossSales (processTransactions rows_partial 0)) = [30 * ((0 + 10) / 15)]%Q /\
  List.filter (warnsOf "U") (r_warnings (processTransactions rows_never_bought 0)) =
    [mkWarning "U" (day 3)].
Proof.
  split; [| split; [| split]].
  - refine (proj1 (sell_warning_iff_no_lots [] state_one_lot (sellOf 5 "U" 10 5) _) _);
      reflexivity.
  - refine (proj1 (proj1 (proj2 (sell_warning_iff_no_lots [] state_one_lot
                     (mkTransaction (day 1) "T" Sell 25 2 50) _)) _)).
    + reflexivity.
    + vm_compute. discriminate.
  - reflexivity.
  - refine (eq_trans (proj2 (proj2 (proj2 (proj2 (proj2 (proj2
             (sell_warning_iff_no_lots [] state_one_lot (sellOf 5 "U" 10 5) eq_refl))))
             rows_never_bought 0 "U"%string _))) _).
    + intros b Hb Hbuy. vm_compute in Hb.
      destruct Hb as [<- | [<- | [<- | []]]]; discriminate.
    + reflexivity.
Defined.




Lemma loss_sale_iff_negative_gain_witness :
  lossSales (step [] state_one_lot (sellOf 5 "T" 10 5)) =
  [mkLossSale "T" (day 5) (0 + 10) 5 (10 * 5 * ((0 + 10) / 10)) (0 + 10 * 10)
              (- (10 * 5 * ((0 + 10) / 10) - (0 + 10 * 10)))]%Q /\
  lossSales (step [] state_one_lot (sellOf 5 "T" 10 20)) = [] /\
  lossSales (step [] state_one_lot (sellOf 5 "U" 10 5)) = [].
Proof.
  split; [| split].
  - refine (proj1 (loss_sale_iff_negative_gain [] state_one_lot (sellOf 5 "T" 10 5) _) _ _ _).
    + reflexivity.
    + vm_compute. discriminate.
    + reflexivity.
    + reflexivity.
  - refine (proj1 (proj1 (proj2 (loss_sale_iff_negative_gain [] state_one_lot
                                   (sellOf 5 "T" 10 20) _)) _ _ _)).
    + reflexivity.
    + vm_compute. discriminate.
    + reflexivity.
    + vm_compute. discriminate.
  - refine (proj1 (proj1 (proj2 (proj2 (loss_sale_iff_negative_gain [] state_one_lot
                                          (sellOf 5 "U" 10 5) _))) _)).
    + reflexivity.
    + left. reflexivity.
Defined.

Lemma lots_invariant_witness :
  (remaining (mkLot (day 2) 10 7 5) <= lot_quantity (mkLot (day 2) 10 7 5))%Q /\
  (0 < remaining (mkLot (day 2) 10 7 5))%Q.
Proof.
  destruct (lots_invariant rows_fifo rows_fifo [] "T"
              [mkLot (day 2) 10 7 5] (mkLot (day 2) 10 7 5)) as (H1 & _ & H3).
  - reflexivity.
  - vm_compute. reflexivity.
  - left. reflexivity.
  - split; [exact H1 |]. apply H3. repeat constructor.
Defined.

Lemma loss_sale_fill_witness :
  exists s, In s rows_partial /\ (quantity s == 15)%Q /\
            List.map ls_quantity (r_lossSales (processTransactions rows_partial 0))
            = [(0 + 10)%Q].
Proof.
  destruct (loss_sale_fill rows_partial 0
              (mkLossSale "T" (day 1) (0 + 10) 2 (30 * ((0 + 10) / 15)) (0 + 10 * 5)
                 (Qabs (30 * ((0 + 10) / 15) - (0 + 10 * 5))))%Q)
    as (s & Hs & _).
  - repeat constructor.
  - vm_compute. left. reflexivity.
  - exists (mkTransaction (day 1) "T" Sell 15 2 30).
    split; [right; left; reflexivity |]. split; reflexivity.
Defined.

Lemma disallowed_loss_bounds_witness :
  Forall (fun v => (0 < disallowedLoss v)%Q /\
                   (disallowedLoss v <= lossAmount (lossSale v))%Q)
         (List.firstn 1 (r_violations (processTransactions rows_uncapped 0))).
Proof.
  constructor; [| constructor].
  destruct (disallowed_loss_bounds rows_uncapped 0
              (nth 0 (r_violations (processTransactions rows_uncapped 0))
                   (mkViolation "" (mkLossSale "" 0 0 0 0 0 0) 0 0 0)))
    as (H1 & H2 & _).
  - repeat constructor.
  - vm_compute. left. reflexivity.
  - split; [exact H1 | exact H2].
Defined.

Lemma later_transaction_only_appends_witness :
  r_transactions (processTransactions (rows_history ++ [sellOf 40 "T" 6 3]) 0) =
  r_transactions (processTransactions rows_history 0) ++ [sellOf 40 "T" 6 3] /\
  length (r_lossSales (processTransactions (rows_history ++ [sellOf 40 "T" 6 3]) 0)) = 2%nat.
Proof.
  split; [| reflexivity].
  refine (proj1 (later_transaction_only_appends rows_history (sellOf 40 "T" 6 3) 0 _)).
  intros r [<- | [<- | [<- | []]]]; left; reflexivity.
Defined.

Lemma active_windows_expire_witness :
  activeWindows (activeWindows [mkLossSale "T" (day 10) 1 1 1 2 1] (day 20)) (day 41) =
  activeWindows [mkLossSale "T" (day 10) 1 1 1 2 1] (day 41).
Proof.
  refine (proj1 (active_windows_expire [mkLossSale "T" (day 10) 1 1 1 2 1]
                   (day 20) (day 41) _)).
  unfold day, MS_PER_DAY. lia.
Defined.

Lemma table_agrees_with_check_witness :
  exists row, In row [mkTableRow "B" 5 (Some (day 43)) 13 1;
                      mkTableRow "A" (0 + 1 + 2) (Some (day 51)) 21 2] /\
              row_ticker row = "A"%string /\ row_days row = 21.
Proof.
  pose proof (table_agrees_with_check windows_sample (day 30) " a ") as H.
  assert (H0 : 0 <= day 30) by (unfold day, MS_PER_DAY; lia).
  specialize (H H0).
  destruct H as [H _].
  destruct (H "A"%string (windowsOf "A" windows_sample) (day 51) 21 eq_refl)
    as (row & Hin & Ht & _ & Hd & _).
  exists row. split; [exact Hin |]. split; [exact Ht | exact Hd].
Defined.

Lemma parseCSV_round_trip_witness :
  parseCSV csv_sample =
  [mkRow ["Instrument"; "Amount"] ["T"; "1,000.00"];
   mkRow ["Instrument"; "Amount"] ["U"; "5"]]%string.
Proof.
  refine (parseCSV_round_trip
            [(false, "Instrument"); (false, "Amount")]%string
            [[(false, "T"); (true, "1,000.00")]; [(false, "U"); (false, "5")]]%string
            _ _ _).
  - discriminate.
  - repeat constructor; try reflexivity; intros; discriminate.
  - repeat constructor; try reflexivity; intros; discriminate.
Defined.

Lemma text_report_sound_witness :
  plainRows sample_parseFloat sample_dateOf (parseCSV csv_trades) /\
  Forall (fun v => (0 < disallowedLoss v)%Q /\
                   (disallowedLoss v <= lossAmount (lossSale v))%Q)
         (r_violations (processTransactionsOfText sample_parseFloat sample_dateOf
                          csv_trades 0)).
Proof.
  assert (H : plainRows sample_parseFloat sample_dateOf (parseCSV csv_trades)).
  { apply plainRowsb_sound. vm_compute. reflexivity. }
  split; [exact H |].
  exact (proj1 (proj2 (proj2 (text_report_sound (tz := fixedZone)
           sample_parseFloat sample_dateOf csv_trades 0 H)))).
Defined.

(** The statement [csv_trades] read with the sample built-ins: the dividend
    line is passed over, the sale at a loss of 200 is found, and the later
    purchase of 5 of the 10 sold disallows half of it. *)
Example text_report_example :
  let r := processTransactionsOfText sample_parseFloat sample_dateOf csv_trades
             (sample_dateOf "02/01/2024") in
  total (r_summary r) = 3%nat /\
  List.map ticker (r_transactions r) = ["T"; "T"; "T"]%string /\
  List.map amount (r_transactions r) = [(- 1000)%Q; 800%Q; (- 450)%Q] /\
  List.map (fun v => Qeq_bool (disallowedLoss v) 100) (r_violations r) = [true] /\
  List.map (fun ls => Qeq_bool (lossAmount ls) 200) (r_activeWindows r) = [true] /\
  r_warnings r = [].
Proof. vm_compute. repeat split. Qed.

